(** * dgo: array types, the meta type and the array collection

    A shallow embedding of [internal/array.go] and [internal/meta.go].

    The first part models the type algebra over immutable snapshots of
    values: the four array types ([defaultArrayType], [sizedArrayType],
    [tupleType], [exactArrayType]), the meta type, and the checks
    [DeepAssignable], [DeepInstance], [Equals] that tie them together.

    The second part models the array collection itself as objects in a
    store, with Go slices over shared backing arrays, so that freezing,
    mutation and storage sharing can be stated. *)

From Stdlib Require Import ZArith Bool String Lia.
From stdpp Require Import base tactics option list.

Local Open Scope Z_scope.

(** ** Go's [int] *)

(** [math.MaxInt64] *)
Definition MaxInt64 : Z := 9223372036854775807.

(** Two's complement wrap-around of a 64-bit [int] after an addition or a
    subtraction. *)
Definition wrap (z : Z) : Z := (z + 2 ^ 63) mod 2 ^ 64 - 2 ^ 63.

(** ** Panics *)

(** What a call can raise. [RuntimeError] stands for the Go runtime's own
    panics (index out of range, failed type assertion, nil dereference);
    the others are the errors the package raises itself. *)
Inductive panic : Type :=
| IllegalArgument (msg : string)
| IllegalSize
| IllegalAssignment
| FrozenMutation (op : string)
| RuntimeError (msg : string).

(** A computation that returns or panics. *)
Inductive result (A : Type) : Type :=
| Ok (a : A)
| Panic (e : panic).
Arguments Ok {A} a.
Arguments Panic {A} e.

Definition rbind {A B : Type} (m : result A) (k : A -> result B) : result B :=
  match m with
  | Ok a => k a
  | Panic e => Panic e
  end.

Declare Scope result_scope.
Delimit Scope result_scope with result.
Notation "x <- m ;; k" := (rbind m (fun x => k))
  (at level 100, m at next level, right associativity) : result_scope.
Local Open Scope result_scope.

(** Short-circuit [a && b] where both sides may panic. *)
Definition rand (a : result bool) (b : result bool) : result bool :=
  x <- a ;; if x then b else Ok false.

(** ** Values and types *)

(** Primitive values. Their implementation is outside [array.go]; only
    their identity matters here. *)
Inductive prim : Type :=
| Nil
| intVal (i : Z)
| hstring (s : string).

(** [dgo.Value], [dgo.Type] and the [array] struct. A [tupleType] keeps its
    [types] as a list of types: [newTupleType] fills the slice from a
    [[]dgo.Type] and every reader asserts [.(dgo.Type)]. *)
Unset Elimination Schemes.
Inductive Value : Type :=
| VPrim (p : prim)
| VArray (a : array)
| VType (t : Typ)
with Typ : Type :=
| DefaultAnyType
| DefaultArrayType
| sizedArrayType (elementType : Typ) (min max : Z)
| tupleType (types : list Typ) (variadic : bool)
| exactArrayType (a : array)
| metaType (tp : option Typ)
| allOfValueType (a : array)
| allOfType (a : array)
| exactType (p : prim)
| otherType (name : string)
with array : Type :=
| mk_array (slice : list Value) (typ : option Typ) (frozen : bool).
Set Elimination Schemes.

Definition slice (a : array) : list Value :=
  match a with mk_array s _ _ => s end.
Definition typ (a : array) : option Typ :=
  match a with mk_array _ t _ => t end.
Definition frozen (a : array) : bool :=
  match a with mk_array _ _ f => f end.

(** [DefaultTupleType = &tupleType{}] *)
Definition DefaultTupleType : Typ := tupleType [] false.

(** [len(s)] as a Go [int]. *)
Definition len {A : Type} (s : list A) : Z := Z.of_nat (length s).

(** [s[i]] with Go's bounds check. *)
Definition index {A : Type} (s : list A) (i : Z) : result A :=
  if (i <? 0) || (len s <=? i) then Panic (RuntimeError "index out of range")
  else match s !! Z.to_nat i with
       | Some x => Ok x
       | None => Panic (RuntimeError "index out of range")
       end.

(** The types that implement [dgo.ArrayType]. *)
Definition isArrayType (t : Typ) : bool :=
  match t with
  | DefaultArrayType | sizedArrayType _ _ _ | tupleType _ _ | exactArrayType _ => true
  | _ => false
  end.

(** ** [Type()]

    [metaType.Type]: the meta type with a nil operand is its own type, any
    other meta type has it as its type. *)
Definition metaType_Type (t_tp : option Typ) : Typ :=
  match t_tp with
  | None => metaType t_tp
  | Some _ => metaType None
  end.

(** [array.Type] *)
Definition array_Type (v : array) : Typ :=
  match typ v with
  | None => exactArrayType v
  | Some t => t
  end.

(** Modelled from the spec: [Type()] of the types whose code is outside
    [array.go] and [meta.go], taken to be the meta type of the type, as it
    is for the four array types, which return [&metaType{t}]; [metaType]
    has its own method. *)
Definition Typ_Type (t : Typ) : Typ :=
  match t with
  | metaType tp => metaType_Type tp
  | _ => metaType (Some t)
  end.

(** Modelled from the spec: [Type()] of a primitive, whose code is outside
    [array.go], is the exact type backed by it. For an array and for a type
    it is the method above. *)
Definition Value_Type (v : Value) : Typ :=
  match v with
  | VPrim p => exactType p
  | VArray a => array_Type a
  | VType t => Typ_Type t
  end.

(** ** Equality *)

(** Modelled from the spec: equality of primitives, whose code is outside
    [array.go]. Two primitives are equal when they are of the same kind and
    hold the same value. *)
Definition prim_equals (p q : prim) : bool :=
  match p, q with
  | Nil, Nil => true
  | intVal i, intVal j => i =? j
  | hstring s, hstring t => String.eqb s t
  | _, _ => false
  end.

(** Modelled from the spec: the functions [equals(seen, a, b)] and
    [sliceEquals(seen, a, b)], which are outside [array.go], and equality of
    the types that are neither array types nor the meta type. [equals]
    hands over to the [deepEqual] or [Equals] method of [a], [sliceEquals]
    compares two slices of the same length position by position, and the
    other types are equal when they are the same type over equal operands.
    The [seen] stack only cuts cycles, which a snapshot does not have. The
    methods of the array types and of the meta type ([array.deepEqual],
    [sizedArrayType.deepEqual], [tupleType.deepEqual] with [tupleEquals],
    [exactArrayType.Equals], [metaType.Equals], [defaultArrayType.Equals])
    are the source's. *)
Fixpoint equals (a b : Value) {struct a} : bool :=
  match a with
  | VPrim p => match b with VPrim q => prim_equals p q | _ => false end
  | VArray v => match b with VArray ov => array_deepEqual v ov | _ => false end
  | VType t => match b with VType ot => Typ_Equals t ot | _ => false end
  end
with Typ_Equals (t other : Typ) {struct t} : bool :=
  match t with
  | DefaultAnyType =>
      match other with DefaultAnyType => true | _ => false end
  | DefaultArrayType =>
      match other with DefaultArrayType => true | _ => false end
  | sizedArrayType e mn mx =>
      match other with
      | sizedArrayType oe omn omx => (mn =? omn) && (mx =? omx) && Typ_Equals e oe
      | _ => false
      end
  | tupleType ts variadic =>
      match other with
      | tupleType ots ovariadic =>
          Bool.eqb variadic ovariadic &&
          (fix sliceEquals (a : list Typ) (b : list Typ) {struct a} : bool :=
             match a, b with
             | [], [] => true
             | x :: a', y :: b' => Typ_Equals x y && sliceEquals a' b'
             | _, _ => false
             end) ts ots
      | exactArrayType oa =>
          (* tupleEquals against the other implementation of dgo.TupleType *)
          Bool.eqb variadic false &&
          (fix elements (a : list Typ) (b : list Value) {struct a} : bool :=
             match a, b with
             | [], [] => true
             | x :: a', y :: b' => Typ_Equals x (Value_Type y) && elements a' b'
             | _, _ => false
             end) ts (slice oa)
      | _ => false
      end
  | exactArrayType a =>
      match other with exactArrayType oa => array_deepEqual a oa | _ => false end
  | metaType tp =>
      match other with
      | metaType otp =>
          match tp with
          | None => match otp with None => true | Some _ => false end
          | Some t' => match otp with Some ot' => Typ_Equals t' ot' | None => false end
          end
      | _ => false
      end
  | allOfValueType a =>
      match other with allOfValueType oa => array_deepEqual a oa | _ => false end
  | allOfType a =>
      match other with allOfType oa => array_deepEqual a oa | _ => false end
  | exactType p =>
      match other with exactType q => prim_equals p q | _ => false end
  | otherType n =>
      match other with otherType m => String.eqb n m | _ => false end
  end
with array_deepEqual (v ov : array) {struct v} : bool :=
  match v with
  | mk_array s _ _ =>
      (fix sliceEquals (a : list Value) (b : list Value) {struct a} : bool :=
         match a, b with
         | [], [] => true
         | x :: a', y :: b' => equals x y && sliceEquals a' b'
         | _, _ => false
         end) s (slice ov)
  end.

(** [sliceEquals(nil, a, b)] on its own. *)
Fixpoint sliceEquals (a b : list Value) : bool :=
  match a, b with
  | [], [] => true
  | x :: a', y :: b' => equals x y && sliceEquals a' b'
  | _, _ => false
  end.

(** [array.Equals] *)
Definition array_Equals (v : array) (other : Value) : bool :=
  equals (VArray v) other.

(** [exactArrayType.Equals] *)
Definition exactArrayType_Equals (t : array) (other : Value) : bool :=
  match other with
  | VType (exactArrayType ot) => array_Equals t (VArray ot)
  | _ => false
  end.

(** ** Accessors of the array types *)

(** [array.Unique]: the first occurrence of every element is kept. The
    source buckets the kept elements by [HashCode] and only compares within
    a bucket; with a hash code that agrees with [Equals] that is the same
    as comparing against every kept element, which is what is written
    here. *)
Fixpoint unique_loop (a : list Value) (u : list Value) : list Value :=
  match a with
  | [] => u
  | k :: a' =>
      if existsb (fun e => equals k e) u then unique_loop a' u
      else unique_loop a' (u ++ [k])
  end.

Definition array_Unique (v : array) : array :=
  let a := slice v in
  if len a <? 2 then v
  else
    let u := unique_loop a [] in
    if len u =? len a then v else mk_array u (typ v) (frozen v).

(** [Min()], [Max()] and [ElementType()] of a [dgo.ArrayType]. For a tuple
    they are [tupleMin], [tupleMax] and [tupleElementType]; the variadic
    case reads the last element with [.(dgo.ArrayType)], which panics on a
    type that is no array type, as does [Element] on an empty tuple. *)
Definition notArrayType {A : Type} : result A :=
  Panic (RuntimeError "interface conversion: not a dgo.ArrayType").

Definition outOfRange {A : Type} : result A :=
  Panic (RuntimeError "index out of range").

Fixpoint Min (t : Typ) {struct t} : result Z :=
  match t with
  | DefaultArrayType => Ok 0
  | sizedArrayType _ mn _ => Ok mn
  | exactArrayType a => Ok (len (slice a))
  | tupleType ts variadic =>
      let n := len ts in
      if variadic then
        vn <- (fix lastMin (l : list Typ) {struct l} : result Z :=
                 match l with
                 | [] => outOfRange
                 | x :: l' => match l' with [] => Min x | _ :: _ => lastMin l' end
                 end) ts ;;
        Ok (wrap (n - 1 + vn))
      else Ok n
  | _ => notArrayType
  end.

Fixpoint Max (t : Typ) {struct t} : result Z :=
  match t with
  | DefaultArrayType => Ok MaxInt64
  | sizedArrayType _ _ mx => Ok mx
  | exactArrayType a => Ok (len (slice a))
  | tupleType ts variadic =>
      let n := len ts in
      if variadic then
        vn <- (fix lastMax (l : list Typ) {struct l} : result Z :=
                 match l with
                 | [] => outOfRange
                 | x :: l' => match l' with [] => Max x | _ :: _ => lastMax l' end
                 end) ts ;;
        if vn <? MaxInt64 then Ok (wrap (n - 1 + vn)) else Ok vn
      else Ok n
  | _ => notArrayType
  end.

(** [ElementTypes()] of a tuple, as an array of types. *)
Definition tupleType_ElementTypes (ts : list Typ) : array :=
  mk_array (map VType ts) None true.

Fixpoint ElementType (t : Typ) {struct t} : result Typ :=
  match t with
  | DefaultArrayType => Ok DefaultAnyType
  | sizedArrayType e _ _ => Ok e
  | exactArrayType a =>
      match slice a with
      | [] => Ok DefaultAnyType
      | [v] => Ok (Value_Type v)
      | _ => Ok (allOfValueType a)
      end
  | tupleType ts variadic =>
      match ts with
      | [] => Ok DefaultAnyType
      | e0 :: [] => if variadic then ElementType e0 else Ok e0
      | _ :: _ :: _ =>
          ea <- (if variadic then
                   (* replace the last position with its element type *)
                   cp <- (fix replaceLast (l : list Typ) {struct l} : result (list Typ) :=
                            match l with
                            | [] => Ok []
                            | x :: l' =>
                                match l' with
                                | [] => e <- ElementType x ;; Ok [e]
                                | _ :: _ => r <- replaceLast l' ;; Ok (x :: r)
                                end
                            end) ts ;;
                   Ok (mk_array (map VType cp) None false)
                 else Ok (tupleType_ElementTypes ts)) ;;
          let ea := array_Unique ea in
          match slice ea with
          | [e] =>
              match e with
              | VType et => Ok et
              | _ => Panic (RuntimeError "interface conversion: not a dgo.Type")
              end
          | _ => Ok (allOfType ea)
          end
      end
  | _ => notArrayType
  end.

(** A value of the interface [dgo.TupleType]: a [tupleType] or an
    [exactArrayType]. *)
Inductive TupleType : Type :=
| TupleOf (types : list Typ) (variadic : bool)
| ExactOf (a : array).

Definition TupleType_Typ (t : TupleType) : Typ :=
  match t with
  | TupleOf ts variadic => tupleType ts variadic
  | ExactOf a => exactArrayType a
  end.

Definition Len (t : TupleType) : Z :=
  match t with
  | TupleOf ts _ => len ts
  | ExactOf a => len (slice a)
  end.

Definition Variadic (t : TupleType) : bool :=
  match t with
  | TupleOf _ variadic => variadic
  | ExactOf _ => false
  end.

Definition Element (t : TupleType) (i : Z) : result Typ :=
  match t with
  | TupleOf ts _ => index ts i
  | ExactOf a => v <- index (slice a) i ;; Ok (Value_Type v)
  end.

Definition asTupleType (t : Typ) : option TupleType :=
  match t with
  | tupleType ts variadic => Some (TupleOf ts variadic)
  | exactArrayType a => Some (ExactOf a)
  | _ => None
  end.

(** ** Constructors *)

(** [newArrayType]; [None] is a nil element type. *)
Definition newArrayType (elementType : option Typ) (min max : Z) : Typ :=
  let min := if min <? 0 then 0 else min in
  let max := if max <? 0 then 0 else max in
  let '(min, max) := if max <? min then (max, min) else (min, max) in
  let elementType := match elementType with
                     | None => DefaultAnyType
                     | Some e => e
                     end in
  if (min =? 0) && (max =? MaxInt64) &&
     match elementType with DefaultAnyType => true | _ => false end
  then DefaultArrayType
  else sizedArrayType elementType min max.

(** [newTupleType] *)
Definition newTupleType (types : list Typ) (variadic : bool) : Typ :=
  let l := len types in
  if l =? 0 then DefaultTupleType
  else tupleType types variadic.

(** [TupleType] *)
Definition TupleType_new (types : list Typ) : Typ :=
  newTupleType types false.

(** [VariadicTupleType] *)
Definition VariadicTupleType (types : list Typ) : result Typ :=
  let n := len types in
  if n =? 0 then
    Panic (IllegalArgument "a variadic tuple must have at least one element")
  else
    last_t <- index types (n - 1) ;;
    if negb (isArrayType last_t) then
      Panic (IllegalArgument "the last element of a variadic tuple must be an ArrayType")
    else Ok (newTupleType types true).

(** [ArrayWithCapacity] with a [dgo.ArrayType] or nil as its type: an empty
    mutable array that carries the type unchecked. *)
Definition ArrayWithCapacity (capacity : Z) (mt : option Typ) : array :=
  mk_array [] mt false.

(** ** Assignability and instance checks *)

Section Checks.

(** The package functions [Assignable(guard, a, b)],
    [Instance(guard, t, v)] and [CheckAssignableTo(guard, other, t)] are
    defined outside [array.go], as are the [Assignable] and [Instance]
    methods of the types that are neither array types nor the meta type.
    The checks below are stated for any behaviour of them. The recursion
    guard they pass along only cuts cycles and is left out. *)
Variable Assignable : Typ -> Typ -> result bool.
Variable Instance : Typ -> Value -> result bool.
Variable CheckAssignableTo : Typ -> Typ -> result bool.
Variable otherAssignable : Typ -> Typ -> result bool.
Variable otherInstance : Typ -> Value -> result bool.

(** [defaultArrayType.Assignable] *)
Definition defaultArrayType_Assignable (other : Typ) : result bool :=
  match other with
  | DefaultArrayType | tupleType _ _ | exactArrayType _ | sizedArrayType _ _ _ => Ok true
  | _ => CheckAssignableTo other DefaultArrayType
  end.

(** [defaultArrayType.Instance] *)
Definition defaultArrayType_Instance (value : Value) : bool :=
  match value with
  | VArray _ => true
  | _ => false
  end.

(** [metaType.Assignable] *)
Definition metaType_Assignable (t_tp : option Typ) (ot : Typ) : result bool :=
  match ot with
  | metaType mt_tp =>
      match t_tp with
      | None => Ok (match mt_tp with None => true | Some _ => false end)
      | Some tp => Ok (match mt_tp with
                       | Some otp => Typ_Equals tp otp
                       | None => false
                       end)
      end
  | _ => CheckAssignableTo ot (metaType t_tp)
  end.

(** Modelled from the spec: [DefaultAnyType.Assignable], whose code is
    outside [array.go]; Any is assignable from every type. The other cases
    of a call [t.Assignable(other)] through the interface are the source's:
    the array types with a [DeepAssignable] method return
    [Assignable(nil, t, other)]. *)
Definition Typ_Assignable (t other : Typ) : result bool :=
  match t with
  | DefaultAnyType => Ok true
  | DefaultArrayType => defaultArrayType_Assignable other
  | sizedArrayType _ _ _ | tupleType _ _ | exactArrayType _ => Assignable t other
  | metaType tp => metaType_Assignable tp other
  | _ => otherAssignable t other
  end.

(** [metaType.Instance] *)
Definition metaType_Instance (t_tp : option Typ) (v : Value) : result bool :=
  match v with
  | VType ot =>
      match t_tp with
      | None => Ok (match ot with metaType _ => true | _ => false end)
      | Some tp => Typ_Assignable tp ot
      end
  | _ => Ok false
  end.

(** [exactArrayType.Instance] *)
Definition exactArrayType_Instance (t : array) (value : Value) : bool :=
  match value with
  | VArray ot => array_Equals t (VArray ot)
  | _ => false
  end.

(** Modelled from the spec: [DefaultAnyType.Instance], whose code is outside
    [array.go]; every value is an instance of Any. The other cases of a
    call [t.Instance(v)] through the interface are the source's. *)
Definition Typ_Instance (t : Typ) (v : Value) : result bool :=
  match t with
  | DefaultAnyType => Ok true
  | DefaultArrayType => Ok (defaultArrayType_Instance v)
  | sizedArrayType _ _ _ | tupleType _ _ => Instance t v
  | exactArrayType a => Ok (exactArrayType_Instance a v)
  | metaType tp => metaType_Instance tp v
  | _ => otherInstance t v
  end.

(** [allInstance] *)
Fixpoint allInstance_loop (t : Typ) (vs : list Value) : result bool :=
  match vs with
  | [] => Ok true
  | v :: vs' =>
      b <- Instance t v ;;
      if negb b then Ok false else allInstance_loop t vs'
  end.

Definition allInstance (t : Typ) (vs : list Value) : result bool :=
  match t with
  | DefaultAnyType => Ok true
  | _ => allInstance_loop t vs
  end.

(** [assignableToAll] *)
Fixpoint assignableToAll (t : Typ) (vs : list Value) : result bool :=
  match vs with
  | [] => Ok true
  | v :: vs' =>
      b <- Assignable (Value_Type v) t ;;
      if negb b then Ok false else assignableToAll t vs'
  end.

(** [sizedArrayType.DeepAssignable] *)
Definition sizedArrayType_DeepAssignable
    (elementType : Typ) (min max : Z) (other : Typ) : result bool :=
  match other with
  | DefaultArrayType => Ok false (* lacks size *)
  | sizedArrayType _ _ _ | tupleType _ _ | exactArrayType _ =>
      rand (omin <- Min other ;; Ok (min <=? omin))
        (rand (omax <- Max other ;; Ok (omax <=? max))
           (oe <- ElementType other ;; Typ_Assignable elementType oe))
  | _ => CheckAssignableTo other (sizedArrayType elementType min max)
  end.

(** [sizedArrayType.DeepInstance] *)
Definition sizedArrayType_DeepInstance
    (elementType : Typ) (min max : Z) (value : Value) : result bool :=
  match value with
  | VArray ov =>
      let l := len (slice ov) in
      rand (Ok (min <=? l))
        (rand (Ok (l <=? max)) (allInstance elementType (slice ov)))
  | _ => Ok false
  end.

(** The type a tuple has at position [i]: the type of the fixed position
    below [tn], the element type of the variadic tail from there on, nil
    ([None]) past the end of a tuple without a tail. *)
Definition tuplePosition (t : TupleType) (tn : Z) (tv : option Typ) (i : Z)
    : result (option Typ) :=
  if i <? tn then e <- Element t i ;; Ok (Some e) else Ok tv.

(** The loop of [tupleAssignableTuple], entered at position [i] with [k]
    rounds to go. [tv] and [ov] are the element types of the variadic
    tails, nil ([None]) for a tuple without one. *)
Fixpoint tupleAssignableTuple_loop
    (t ot : TupleType) (tn on : Z) (tv ov : option Typ) (k : nat) (i : Z)
    : result bool :=
  match k with
  | O => Ok true
  | S k' =>
      te <- tuplePosition t tn tv i ;;
      oe <- tuplePosition ot on ov i ;;
      match te, oe with
      | Some te, Some oe =>
          b <- Assignable te oe ;;
          if negb b then Ok false
          else tupleAssignableTuple_loop t ot tn on tv ov k' (i + 1)
      | _, _ => Ok false
      end
  end.

(** The fixed positions of a tuple and the element type of its variadic
    tail: [tn--; tv = t.Element(tn).(dgo.ArrayType).ElementType()]. *)
Definition tupleTail (t : TupleType) : result (Z * option Typ) :=
  let tn := Len t in
  if Variadic t then
    let tn := tn - 1 in
    e <- Element t tn ;;
    tv <- ElementType e ;;
    Ok (tn, Some tv)
  else Ok (tn, None).

(** [tupleAssignableTuple] *)
Definition tupleAssignableTuple (t ot : TupleType) : result bool :=
  tmin <- Min (TupleType_Typ t) ;;
  omin <- Min (TupleType_Typ ot) ;;
  if tmin >? omin then Ok false
  else
    omax <- Max (TupleType_Typ ot) ;;
    tmax <- Max (TupleType_Typ t) ;;
    if omax >? tmax then Ok false
    else
      tt <- tupleTail t ;;
      let '(tn, tv) := tt in
      ott <- tupleTail ot ;;
      let '(on, ov) := ott in
      let n := if tn <? on then on else tn in
      tupleAssignableTuple_loop t ot tn on tv ov (Z.to_nat n) 0.

(** The loop of [tupleAssignableArray] over the fixed positions. *)
Fixpoint tupleAssignableArray_loop
    (t : TupleType) (et : Typ) (k : nat) (i : Z) : result bool :=
  match k with
  | O => Ok true
  | S k' =>
      e <- Element t i ;;
      b <- Assignable e et ;;
      if negb b then Ok false
      else tupleAssignableArray_loop t et k' (i + 1)
  end.

(** [tupleAssignableArray] *)
Definition tupleAssignableArray
    (t : TupleType) (ot_elementType : Typ) (ot_min ot_max : Z) : result bool :=
  b <- rand (tmin <- Min (TupleType_Typ t) ;; Ok (tmin <=? ot_min))
            (tmax <- Max (TupleType_Typ t) ;; Ok (ot_max <=? tmax)) ;;
  if b then
    let et := ot_elementType in
    let n := Len t in
    let n := if Variadic t then n - 1 else n in
    fixed <- tupleAssignableArray_loop t et (Z.to_nat n) 0 ;;
    if negb fixed then Ok false
    else if negb (Variadic t) then Ok true
    else
      e <- Element t n ;;
      vt <- ElementType e ;;
      Assignable vt et
  else Ok false.

(** [tupleAssignable] *)
Definition tupleAssignable (t : TupleType) (other : Typ) : result bool :=
  match other with
  | DefaultArrayType => Ok false
  | exactArrayType ot => Instance (TupleType_Typ t) (VArray ot)
  | tupleType ots ovariadic => tupleAssignableTuple t (TupleOf ots ovariadic)
  | sizedArrayType oe omin omax => tupleAssignableArray t oe omin omax
  | _ => CheckAssignableTo other (TupleType_Typ t)
  end.

(** [tupleType.DeepAssignable] *)
Definition tupleType_DeepAssignable
    (types : list Typ) (variadic : bool) (other : Typ) : result bool :=
  tupleAssignable (TupleOf types variadic) other.

(** [exactArrayType.DeepAssignable] *)
Definition exactArrayType_DeepAssignable (t : array) (other : Typ) : result bool :=
  let es := slice t in
  match other with
  | DefaultArrayType => Ok false (* lacks size *)
  | sizedArrayType oe omin omax =>
      let l := len es in
      rand (Ok (omin =? l)) (rand (Ok (omax =? l)) (assignableToAll oe es))
  | exactArrayType ot => Ok (sliceEquals es (slice ot))
  | tupleType ots ovariadic => tupleAssignableTuple (ExactOf t) (TupleOf ots ovariadic)
  | _ => CheckAssignableTo other (exactArrayType t)
  end.

(** The two loops of [tupleInstance]: the fixed positions against their
    own types, the rest against one type. *)
Fixpoint tupleInstance_fixed
    (t : TupleType) (s : list Value) (k : nat) (i : Z) : result bool :=
  match k with
  | O => Ok true
  | S k' =>
      e <- Element t i ;;
      v <- index s i ;;
      b <- Instance e v ;;
      if negb b then Ok false else tupleInstance_fixed t s k' (i + 1)
  end.

Fixpoint tupleInstance_rest
    (vt : Typ) (s : list Value) (k : nat) (i : Z) : result bool :=
  match k with
  | O => Ok true
  | S k' =>
      v <- index s i ;;
      b <- Instance vt v ;;
      if negb b then Ok false else tupleInstance_rest vt s k' (i + 1)
  end.

(** [tupleInstance] *)
Definition tupleInstance (t : TupleType) (value : Value) : result bool :=
  match value with
  | VArray ov =>
      let s := slice ov in
      let n := len s in
      if Variadic t then
        inrange <- rand (tmin <- Min (TupleType_Typ t) ;; Ok (tmin <=? n))
                        (tmax <- Max (TupleType_Typ t) ;; Ok (n <=? tmax)) ;;
        if inrange then
          let tn := Len t - 1 in
          fixed <- tupleInstance_fixed t s (Z.to_nat tn) 0 ;;
          if negb fixed then Ok false
          else
            e <- Element t tn ;;
            vt <- ElementType e ;;
            tupleInstance_rest vt s (Z.to_nat (n - tn)) tn
        else Ok false
      else
        if n =? Len t then tupleInstance_fixed t s (Z.to_nat n) 0
        else Ok false
  | _ => Ok false
  end.

(** [tupleType.DeepInstance] *)
Definition tupleType_DeepInstance
    (types : list Typ) (variadic : bool) (value : Value) : result bool :=
  tupleInstance (TupleOf types variadic) value.

(** "x is an instance of e" as [allInstance] reads it: every value is an
    instance of Any, and [Instance] decides for the other types. *)
Definition instanceOf (e : Typ) (x : Value) : Prop :=
  e = DefaultAnyType \/ Instance e x = Ok true.

End Checks.

(** * The array collection in a store *)

(** ** The store

    An element of an array is a primitive, a type, a reference to another
    array, or the nil interface that [removePos] leaves in a released slot.
    Arrays are the freezable values of this model; maps and other freezable
    collections live outside [array.go]. *)
Inductive hValue : Type :=
| GoNil
| HPrim (p : prim)
| HRef (r : nat)
| HType (t : Typ).

(** A Go slice header over a backing array of the store. The capacity is
    what is left of the backing array from [off] on: the code never uses a
    three-index slice expression. *)
Record goslice : Type := mk_goslice {
  ptr : nat;
  off : nat;
  slen : nat
}.

(** The [array] struct, by reference. *)
Record arrayObj : Type := mk_arrayObj {
  a_slice : goslice;
  a_typ : option Typ;
  a_frozen : bool
}.

Record store : Type := mk_store {
  objs : list arrayObj;
  mem : list (list hValue)
}.

Definition backing (st : store) (p : nat) : list hValue :=
  default [] (mem st !! p).

(** The elements a slice header denotes. *)
Definition elems (st : store) (s : goslice) : list hValue :=
  take (slen s) (drop (off s) (backing st (ptr s))).

(** [cap(s)] *)
Definition cap (st : store) (s : goslice) : nat :=
  (length (backing st (ptr s)) - off s)%nat.

(** The elements of the array at [r]; none when [r] is no array. *)
Definition contents (st : store) (r : nat) : list hValue :=
  match objs st !! r with
  | Some o => elems st (a_slice o)
  | None => []
  end.

(** ** Computations over the store *)

Definition M (A : Type) : Type := store -> result A * store.

Definition mret {A : Type} (a : A) : M A := fun st => (Ok a, st).

Definition mbind {A B : Type} (m : M A) (k : A -> M B) : M B :=
  fun st =>
    match m st with
    | (Ok a, st') => k a st'
    | (Panic e, st') => (Panic e, st')
    end.

Definition mpanic {A : Type} (e : panic) : M A := fun st => (Panic e, st).

Definition lift {A : Type} (r : result A) : M A := fun st => (r, st).

Definition getStore : M store := fun st => (Ok st, st).

Declare Scope M_scope.
Delimit Scope M_scope with M.
Notation "x <- m ;; k" := (mbind m (fun x => k))
  (at level 100, m at next level, right associativity) : M_scope.

(** Dereference of an array pointer. *)
Definition getObj (r : nat) : M arrayObj :=
  fun st =>
    match objs st !! r with
    | Some o => (Ok o, st)
    | None => (Panic (RuntimeError "nil pointer dereference"), st)
    end.

Definition setObj (r : nat) (o : arrayObj) : M unit :=
  fun st => (Ok tt, mk_store (<[r := o]> (objs st)) (mem st)).

(** [&array{...}] *)
Definition newObj (o : arrayObj) : M nat :=
  fun st => (Ok (length (objs st)), mk_store (objs st ++ [o]) (mem st)).

(** A fresh backing array with the given cells; the slice over it has the
    first [n] of them. *)
Definition alloc (cells : list hValue) (n : nat) : M goslice :=
  fun st =>
    (Ok (mk_goslice (length (mem st)) 0 n),
     mk_store (objs st) (mem st ++ [cells])).

(** Overwrite the cells of [b] from [i] on with [vs]. *)
Definition write_range (b : list hValue) (i : nat) (vs : list hValue) : list hValue :=
  take i b ++ vs ++ drop (i + length vs) b.

Definition writeCells (p : nat) (i : nat) (vs : list hValue) : M unit :=
  fun st =>
    (Ok tt, mk_store (objs st) (<[p := write_range (backing st p) i vs]> (mem st))).

(** [sliceCopy] *)
Definition sliceCopy (s : goslice) : M goslice :=
  fun st => alloc (elems st s) (slen s) st.

Section Collection.

(** The capacity the runtime picks when [append] has to grow a slice of
    capacity [old] to hold [needed] elements. *)
Variable growslice : nat -> nat -> nat.

(** [et.Instance(e)] and [val.Equals(e)] for values of the store, and the
    parser behind [SetType]; all three are outside [array.go]. *)
Variable hInstance : Typ -> store -> hValue -> result bool.
Variable hEquals : store -> hValue -> hValue -> bool.
Variable Parse : string -> result Value.

(** [append(s, vs...)]: in place when the capacity allows, into a fresh
    backing array otherwise. *)
Definition append (s : goslice) (vs : list hValue) : M goslice :=
  fun st =>
    let n := (slen s + length vs)%nat in
    if (n <=? cap st s)%nat then
      (_ <- writeCells (ptr s) (off s + slen s) vs ;;
       mret (mk_goslice (ptr s) (off s) n))%M st
    else
      let c := Nat.max n (growslice (cap st s) n) in
      alloc (elems st s ++ vs ++ replicate (c - n) GoNil) n st.

(** [s[i:j]]: the bounds are checked against the capacity. *)
Definition subslice (s : goslice) (i j : Z) : M goslice :=
  fun st =>
    if (i <? 0) || (j <? i) || (Z.of_nat (cap st s) <? j) then
      (Panic (RuntimeError "slice bounds out of range"), st)
    else
      (Ok (mk_goslice (ptr s) (off s + Z.to_nat i) (Z.to_nat (j - i))), st).

(** [s[i]] *)
Definition readAt (s : goslice) (i : Z) : M hValue :=
  fun st => (index (elems st s) i, st).

(** [s[i] = v] *)
Definition writeAt (s : goslice) (i : Z) (v : hValue) : M unit :=
  fun st =>
    if (i <? 0) || (Z.of_nat (slen s) <=? i) then
      (Panic (RuntimeError "index out of range"), st)
    else writeCells (ptr s) (off s + Z.to_nat i) [v] st.

(** What an [Iterable] argument is: an array of the store, or any other
    iterable, given by the values its [Each] yields. *)
Inductive Iterable : Type :=
| IterArray (r : nat)
| IterOther (vs : list hValue).

Definition iterValues (values : Iterable) : M (list hValue) :=
  match values with
  | IterArray r => (o <- getObj r ;; st <- getStore ;; mret (elems st (a_slice o)))%M
  | IterOther vs => mret vs
  end.

(** The element type [assertType] checks position [pos] against. *)
Definition positionType (t : Typ) (pos : Z) : result Typ :=
  match asTupleType t with
  | Some tp =>
      if Variadic tp then
        let lp := Len tp - 1 in
        if pos <? lp then Element tp pos
        else (e <- Element tp lp ;; ElementType e)
      else Element tp pos
  | None => ElementType t
  end.

(** [array.assertType] *)
Definition assertType (r : nat) (e : hValue) (pos : Z) : M unit :=
  (v <- getObj r ;;
   match a_typ v with
   | None => mret tt
   | Some t =>
       let sz := Z.of_nat (slen (a_slice v)) in
       _ <- (if pos >=? sz then
               mx <- lift (Max t) ;;
               if wrap (sz + 1) >? mx then mpanic IllegalSize else mret tt
             else mret tt) ;;
       et <- lift (positionType t pos) ;;
       st <- getStore ;;
       b <- lift (hInstance et st e) ;;
       if negb b then mpanic IllegalAssignment else mret tt
   end)%M.

Fixpoint assertTypes_each (et : Typ) (vs : list hValue) : M unit :=
  match vs with
  | [] => mret tt
  | e :: vs' =>
      (st <- getStore ;;
       b <- lift (hInstance et st e) ;;
       if negb b then mpanic IllegalAssignment else assertTypes_each et vs')%M
  end.

(** [array.assertTypes], on the values the iterable yields. *)
Definition assertTypes (r : nat) (values : list hValue) : M unit :=
  (v <- getObj r ;;
   match a_typ v with
   | None => mret tt
   | Some t =>
       let addedSize := len values in
       if addedSize =? 0 then mret tt
       else
         let sz := Z.of_nat (slen (a_slice v)) in
         mx <- lift (Max t) ;;
         if wrap (sz + addedSize) >? mx then mpanic IllegalSize
         else
           et <- lift (ElementType t) ;;
           assertTypes_each et values
   end)%M.

Definition setSlice (r : nat) (s : goslice) : M unit :=
  (v <- getObj r ;; setObj r (mk_arrayObj s (a_typ v) (a_frozen v)))%M.

(** [array.Add] *)
Definition Add (r : nat) (val : hValue) : M unit :=
  (v <- getObj r ;;
   if a_frozen v then mpanic (FrozenMutation "Add")
   else
     _ <- assertType r val (Z.of_nat (slen (a_slice v))) ;;
     s <- append (a_slice v) [val] ;;
     setSlice r s)%M.

Fixpoint appendEach (a : goslice) (vs : list hValue) : M goslice :=
  match vs with
  | [] => mret a
  | e :: vs' => (a' <- append a [e] ;; appendEach a' vs')%M
  end.

(** [array.AddAll] *)
Definition AddAll (r : nat) (values : Iterable) : M unit :=
  (v <- getObj r ;;
   if a_frozen v then mpanic (FrozenMutation "AddAll")
   else
     vs <- iterValues values ;;
     _ <- assertTypes r vs ;;
     let a := a_slice v in
     a <- match values with
          | IterArray _ => append a vs
          | IterOther _ => appendEach a vs
          end ;;
     setSlice r a)%M.

(** [array.AddValues]; the copy [valueSlice] makes of its arguments is
    dropped once they are appended and is not kept in the store. *)
Definition AddValues (r : nat) (values : list hValue) : M unit :=
  (v <- getObj r ;;
   if a_frozen v then mpanic (FrozenMutation "AddValues")
   else
     _ <- assertTypes r values ;;
     s <- append (a_slice v) values ;;
     setSlice r s)%M.

(** [array.IndexOf] *)
Fixpoint IndexOf_loop (st : store) (val : hValue) (a : list hValue) (i : Z) : Z :=
  match a with
  | [] => -1
  | e :: a' => if hEquals st val e then i else IndexOf_loop st val a' (i + 1)
  end.

Definition IndexOf (r : nat) (val : hValue) : M Z :=
  (v <- getObj r ;;
   st <- getStore ;;
   mret (IndexOf_loop st val (elems st (a_slice v)) 0))%M.

(** [array.Insert]. The bounds of [v.slice[:pos]] and [v.slice[pos:]] are
    checked before the one-element slice for [val] is made. *)
Definition Insert (r : nat) (pos : Z) (val : hValue) : M unit :=
  (v <- getObj r ;;
   if a_frozen v then mpanic (FrozenMutation "Insert")
   else
     _ <- assertType r val pos ;;
     let s := a_slice v in
     head <- subslice s 0 pos ;;
     tail <- subslice s pos (Z.of_nat (slen s)) ;;
     st <- getStore ;;
     s' <- append head (val :: elems st tail) ;;
     setSlice r s')%M.

(** [array.removePos] *)
Definition removePos (r : nat) (pos : Z) : M hValue :=
  (v <- getObj r ;;
   let a := a_slice v in
   if (pos >=? 0) && (pos <? Z.of_nat (slen a)) then
     let newLen := Z.of_nat (slen a) - 1 in
     _ <- match a_typ v with
          | Some t =>
              mn <- lift (Min t) ;;
              if mn >? newLen then mpanic IllegalSize else mret tt
          | None => mret tt
          end ;;
     val <- readAt a pos ;;
     st <- getStore ;;
     (* copy(a[pos:], a[pos+1:]) *)
     _ <- writeCells (ptr a) (off a + Z.to_nat pos)
            (drop (Z.to_nat pos + 1) (elems st a)) ;;
     (* a[newLen] = nil *)
     _ <- writeAt a newLen GoNil ;;
     _ <- setSlice r (mk_goslice (ptr a) (off a) (Z.to_nat newLen)) ;;
     mret val
   else mret GoNil)%M.

(** [array.Remove] *)
Definition Remove (r : nat) (pos : Z) : M hValue :=
  (v <- getObj r ;;
   if a_frozen v then mpanic (FrozenMutation "Remove")
   else removePos r pos)%M.

Definition isGoNil (v : hValue) : bool :=
  match v with GoNil => true | _ => false end.

(** [array.RemoveValue] *)
Definition RemoveValue (r : nat) (value : hValue) : M bool :=
  (v <- getObj r ;;
   if a_frozen v then mpanic (FrozenMutation "RemoveValue")
   else
     i <- IndexOf r value ;;
     x <- removePos r i ;;
     mret (negb (isGoNil x)))%M.

(** [array.Pop] *)
Definition Pop (r : nat) : M (hValue * bool) :=
  (v <- getObj r ;;
   if a_frozen v then mpanic (FrozenMutation "Pop")
   else
     let p := Z.of_nat (slen (a_slice v)) - 1 in
     if p >=? 0 then x <- removePos r p ;; mret (x, true)
     else mret (GoNil, false))%M.

(** [array.Set] *)
Definition Set_ (r : nat) (pos : Z) (val : hValue) : M hValue :=
  (v <- getObj r ;;
   if a_frozen v then mpanic (FrozenMutation "Set")
   else
     _ <- assertType r val pos ;;
     old <- readAt (a_slice v) pos ;;
     _ <- writeAt (a_slice v) pos val ;;
     mret old)%M.

(** The argument of [SetType]: a type, a dgo string, a Go string, nil, or
    anything else. *)
Inductive typeArg : Type :=
| ArgType (t : Typ)
| ArgDgoString (s : string)
| ArgString (s : string)
| ArgNil
| ArgOther.

Definition asArrayType (v : Value) : option Typ * bool :=
  match v with
  | VType t => if isArrayType t then (Some t, true) else (None, false)
  | _ => (None, false)
  end.

(** [array.SetType] *)
Definition SetType (r : nat) (ti : typeArg) : M unit :=
  (v <- getObj r ;;
   if a_frozen v then mpanic (FrozenMutation "SetType")
   else
     mtok <- match ti with
             | ArgType t => mret (asArrayType (VType t))
             | ArgDgoString s | ArgString s =>
                 p <- lift (Parse s) ;; mret (asArrayType p)
             | ArgNil => mret (None, true)
             | ArgOther => mret (None, false)
             end ;;
     let '(mt, ok) := mtok in
     if negb ok then
       mpanic (IllegalArgument "Array.SetType: argument does not evaluate to an ArrayType")
     else
       match mt with
       | None => setObj r (mk_arrayObj (a_slice v) None (a_frozen v))
       | Some t =>
           st <- getStore ;;
           b <- lift (hInstance t st (HRef r)) ;;
           if b then setObj r (mk_arrayObj (a_slice v) (Some t) (a_frozen v))
           else mpanic IllegalAssignment
       end)%M.

(** [array.Slice] *)
Definition Slice (r : nat) (i j : Z) : M nat :=
  (v <- getObj r ;;
   if a_frozen v && (i =? 0) && (j =? Z.of_nat (slen (a_slice v))) then mret r
   else
     ss <- subslice (a_slice v) i j ;;
     ss <- (if negb (a_frozen v) then sliceCopy ss else mret ss) ;;
     newObj (mk_arrayObj ss None (a_frozen v)))%M.

(** The mutating operations of an array, with their arguments. *)
Inductive mutation : Type :=
| MAdd (val : hValue)
| MAddAll (values : Iterable)
| MAddValues (values : list hValue)
| MInsert (pos : Z) (val : hValue)
| MSet (pos : Z) (val : hValue)
| MRemove (pos : Z)
| MRemoveValue (value : hValue)
| MPop
| MSetType (ti : typeArg).

(** One mutating call on the array at [r]; what it returns is dropped. *)
Definition mutate (m : mutation) (r : nat) : M unit :=
  match m with
  | MAdd val => Add r val
  | MAddAll values => AddAll r values
  | MAddValues values => AddValues r values
  | MInsert pos val => Insert r pos val
  | MSet pos val => (_ <- Set_ r pos val ;; mret tt)%M
  | MRemove pos => (_ <- Remove r pos ;; mret tt)%M
  | MRemoveValue value => (_ <- RemoveValue r value ;; mret tt)%M
  | MPop => (_ <- Pop r ;; mret tt)%M
  | MSetType ti => SetType r ti
  end.

(** A run of mutating calls on the array at [r]; a call that panics is
    recovered from and the run goes on. *)
Definition mutateAll (ms : list mutation) (r : nat) (st : store) : store :=
  fold_left (fun st m => (mutate m r st).2) ms st.

End Collection.

(** [array.Frozen] *)
Definition Frozen (st : store) (r : nat) : bool :=
  match objs st !! r with
  | Some o => a_frozen o
  | None => false
  end.

(** ** Freeze *)

(** The loop of [array.Freeze] over the elements: [freeze] is the call
    [f.Freeze()] on an element that is freezable. *)
Fixpoint Freeze_each (freeze : nat -> store -> option store)
    (a : list hValue) (st : store) : option store :=
  match a with
  | [] => Some st
  | e :: a' =>
      match e with
      | HRef f =>
          match freeze f st with
          | Some st' => Freeze_each freeze a' st'
          | None => None
          end
      | _ => Freeze_each freeze a' st
      end
  end.

Definition setFrozen (r : nat) (v : arrayObj) (st : store) : store :=
  mk_store (<[r := mk_arrayObj (a_slice v) (a_typ v) true]> (objs st)) (mem st).

(** [array.Freeze]. An array may contain itself, so the recursion is not
    structural: [fuel] bounds the depth of nested calls, and [None] is a
    run that needs more (or that follows a reference to no array). *)
Fixpoint Freeze (fuel : nat) (r : nat) (st : store) : option store :=
  match fuel with
  | O => None
  | S n =>
      match objs st !! r with
      | None => None
      | Some v =>
          if a_frozen v then Some st
          else
            let st1 := setFrozen r v st in
            Freeze_each (Freeze n) (elems st1 (a_slice v)) st1
      end
  end.

(** The arrays of the store that are not frozen. *)
Definition unfrozen (st : store) : nat :=
  length (filter (fun o => a_frozen o = false) (objs st)).

(** Every reference held in the store points to an array of the store. *)
Definition closed (st : store) : Prop :=
  forall (r : nat) (o : arrayObj) (f : nat),
    objs st !! r = Some o -> HRef f ∈ elems st (a_slice o) ->
    (f < length (objs st))%nat.

(** ** Relations between stores *)

(** What [Freeze] may change of an array: nothing but its frozen flag, and
    that only from false to true. *)
Definition obj_le (o o' : arrayObj) : Prop :=
  a_slice o' = a_slice o /\ a_typ o' = a_typ o /\
  (a_frozen o = true -> a_frozen o' = true).

Definition store_le (st st' : store) : Prop :=
  mem st' = mem st /\ Forall2 obj_le (objs st) (objs st').

(** The slice header lies within a backing array of the store. *)
Definition wf_slice (st : store) (s : goslice) : Prop :=
  (ptr s < length (mem st))%nat /\
  (off s + slen s <= length (backing st (ptr s)))%nat.


(** ** Isolation of one array from another

    [isolated r r' o' b'] is what keeps the array at [r'] out of reach of
    the mutating methods of the array at [r]: [r'] is the array [o'], its
    backing array holds [b'], and the array at [r] has another backing
    array. *)
Definition isolated (r r' : nat) (o' : arrayObj) (b' : list hValue) (st : store) : Prop :=
  objs st !! r' = Some o'
  /\ mem st !! ptr (a_slice o') = Some b'
  /\ (forall o, objs st !! r = Some o -> ptr (a_slice o) <> ptr (a_slice o')).

(** [m] keeps the isolation, also when it panics, and what it returns
    satisfies [Q]. *)
Definition keeps_isolated (r r' : nat) (o' : arrayObj) (b' : list hValue)
    {A : Type} (m : M A) (Q : A -> Prop) : Prop :=
  forall st : store,
    isolated r r' o' b' st ->
    match m st with
    | (Ok a, st') => isolated r r' o' b' st' /\ Q a
    | (Panic _, st') => isolated r r' o' b' st'
    end.

(** ** A store to run the collection on

    Array [0] is [[1, a1, 3]] and array [1] is [[a0]]: each holds the
    other, and neither is frozen. *)
Definition example_store : store :=
  mk_store
    [ mk_arrayObj (mk_goslice 0 0 3) None false;
      mk_arrayObj (mk_goslice 1 0 1) None false ]
    [ [HPrim (intVal 1); HRef 1; HPrim (intVal 3)];
      [HRef 0] ].

(** The same store with both arrays frozen. *)
Definition example_frozen : store :=
  mk_store
    [ mk_arrayObj (mk_goslice 0 0 3) None true;
      mk_arrayObj (mk_goslice 1 0 1) None true ]
    [ [HPrim (intVal 1); HRef 1; HPrim (intVal 3)];
      [HRef 0] ].

(** Equality of elements by identity, for the runs below. *)
Definition example_equals (st : store) (a b : hValue) : bool :=
  match a, b with
  | GoNil, GoNil => true
  | HPrim p, HPrim q => prim_equals p q
  | HRef x, HRef y => (x =? y)%nat
  | HType t, HType u => Typ_Equals t u
  | _, _ => false
  end.

(** A runtime that doubles the capacity, a type check that accepts every
    value and a parser that yields nil, for the runs below. *)
Definition example_growslice (old needed : nat) : nat := (2 * needed)%nat.

Definition example_instance (t : Typ) (st : store) (v : hValue) : result bool :=
  Ok true.

Definition example_parse (s : string) : result Value := Ok (VPrim Nil).

(** Array [0] is [[1, 2]] with the type of arrays of at most two elements,
    array [1] is [[3]] and array [2] is [[2, 1]]; none is frozen. *)
Definition example_typed : store :=
  mk_store
    [ mk_arrayObj (mk_goslice 0 0 2) (Some (sizedArrayType DefaultAnyType 0 2)) false;
      mk_arrayObj (mk_goslice 1 0 1) None false;
      mk_arrayObj (mk_goslice 2 0 2) None false ]
    [ [HPrim (intVal 1); HPrim (intVal 2)];
      [HPrim (intVal 3)];
      [HPrim (intVal 2); HPrim (intVal 1)] ].

(** Array [0] is [[7, a1]] and array [1] is [[8]]; neither is frozen. *)
Definition example_nested : store :=
  mk_store
    [ mk_arrayObj (mk_goslice 0 0 2) None false;
      mk_arrayObj (mk_goslice 1 0 1) None false ]
    [ [HPrim (intVal 7); HRef 1];
      [HPrim (intVal 8)] ].

(** The predicate that holds for the primitive [1]. *)
Definition example_predicate (v : hValue) : bool :=
  match v with
  | HPrim (intVal 1) => true
  | _ => false
  end.

(** * More of the array collection *)

Section Reading.

Variable growslice : nat -> nat -> nat.
Variable hInstance : Typ -> store -> hValue -> result bool.
Variable hEquals : store -> hValue -> hValue -> bool.

(** A [dgo.Predicate], as the function of the element it is called on. *)
Variable predicate : hValue -> bool.

(** [array.Len] *)
Definition array_Len (r : nat) : M Z :=
  (v <- getObj r ;; mret (Z.of_nat (slen (a_slice v))))%M.

(** [array.Get] *)
Definition Get (r : nat) (i : Z) : M hValue :=
  (v <- getObj r ;; readAt (a_slice v) i)%M.

(** [array.With] *)
Definition With (r : nat) (val : hValue) : M nat :=
  (v <- getObj r ;;
   _ <- assertType hInstance r val (Z.of_nat (slen (a_slice v))) ;;
   s <- append growslice (a_slice v) [val] ;;
   newObj (mk_arrayObj s (a_typ v) (a_frozen v)))%M.

(** The loops of [array.All], [array.Any] and [array.One] over the
    elements; [f] is the flag [One] keeps once an element has matched. *)
Fixpoint All_loop (a : list hValue) : bool :=
  match a with
  | [] => true
  | e :: a' => if negb (predicate e) then false else All_loop a'
  end.

Fixpoint Any_loop (a : list hValue) : bool :=
  match a with
  | [] => false
  | e :: a' => if predicate e then true else Any_loop a'
  end.

Fixpoint One_loop (a : list hValue) (f : bool) : bool :=
  match a with
  | [] => f
  | e :: a' =>
      if predicate e then (if f then false else One_loop a' true)
      else One_loop a' f
  end.

(** [array.All] *)
Definition All (r : nat) : M bool :=
  (v <- getObj r ;; st <- getStore ;; mret (All_loop (elems st (a_slice v))))%M.

(** [array.Any] *)
Definition Any (r : nat) : M bool :=
  (v <- getObj r ;; st <- getStore ;; mret (Any_loop (elems st (a_slice v))))%M.

(** [array.One] *)
Definition One (r : nat) : M bool :=
  (v <- getObj r ;; st <- getStore ;; mret (One_loop (elems st (a_slice v)) false))%M.

(** The loop of [array.Select] ([keep] true) and of [array.Reject] ([keep]
    false): the elements the predicate answers [keep] for are appended to
    [vs] one by one. *)
Fixpoint Select_loop (keep : bool) (a : list hValue) (vs : goslice) : M goslice :=
  match a with
  | [] => mret vs
  | e :: a' =>
      if Bool.eqb (predicate e) keep
      then (vs' <- append growslice vs [e] ;; Select_loop keep a' vs')%M
      else Select_loop keep a' vs
  end.

(** [array.Select] *)
Definition Select (r : nat) : M nat :=
  (v <- getObj r ;;
   vs <- alloc [] 0 ;;
   st <- getStore ;;
   vs <- Select_loop true (elems st (a_slice v)) vs ;;
   newObj (mk_arrayObj vs (a_typ v) (a_frozen v)))%M.

(** [array.Reject] *)
Definition Reject (r : nat) : M nat :=
  (v <- getObj r ;;
   vs <- alloc [] 0 ;;
   st <- getStore ;;
   vs <- Select_loop false (elems st (a_slice v)) vs ;;
   newObj (mk_arrayObj vs (a_typ v) (a_frozen v)))%M.

(** The inner loop of [array.ContainsAll]: the first element of [vs] that
    is not nil and equals [ea] is set to nil; [None] when there is none. *)
Fixpoint ContainsAll_mark (st : store) (ea : hValue) (vs : list hValue)
    : option (list hValue) :=
  match vs with
  | [] => None
  | be :: vs' =>
      if negb (isGoNil be) && hEquals st be ea then Some (GoNil :: vs')
      else match ContainsAll_mark st ea vs' with
           | Some vs'' => Some (be :: vs'')
           | None => None
           end
  end.

(** The outer loop of [array.ContainsAll]: [k] rounds from index [i] on,
    each reading [a[i]]. *)
Fixpoint ContainsAll_loop (st : store) (a vs : list hValue) (k : nat) (i : Z)
    : result bool :=
  match k with
  | O => Ok true
  | S k' =>
      ea <- index a i ;;
      match ContainsAll_mark st ea vs with
      | Some vs' => ContainsAll_loop st a vs' k' (i + 1)
      | None => Ok false
      end
  end.

(** [array.ContainsAll]; the copy it marks is dropped at the end and is not
    kept in the store. *)
Definition ContainsAll (r : nat) (other : Iterable) : M bool :=
  (v <- getObj r ;;
   st <- getStore ;;
   let a := elems st (a_slice v) in
   let l := len a in
   vs <- iterValues other ;;
   if l <? len vs then mret false
   else if l =? 0 then mret true
   else lift (ContainsAll_loop st a vs (length vs) 0))%M.

(** [array.SameValues] *)
Definition SameValues (r : nat) (other : Iterable) : M bool :=
  (v <- getObj r ;;
   vs <- iterValues other ;;
   if Z.of_nat (slen (a_slice v)) =? len vs then ContainsAll r other
   else mret false)%M.

End Reading.

(** The loop of [array.Copy] for a frozen copy: each element that is
    freezable is replaced in the copy [cp] by its frozen copy. *)
Fixpoint Copy_each (frozenCopy : nat -> store -> option (nat * store))
    (cp : goslice) (es : list hValue) (i : nat) (st : store) : option store :=
  match es with
  | [] => Some st
  | e :: es' =>
      match e with
      | HRef f =>
          match frozenCopy f st with
          | Some (c, st') =>
              Copy_each frozenCopy cp es' (S i)
                (writeCells (ptr cp) (off cp + i) [HRef c] st').2
          | None => None
          end
      | _ => Copy_each frozenCopy cp es' (S i) st
      end
  end.

(** [array.Copy]; [array.FrozenCopy] is [Copy] with [frozen] true. The
    recursion follows the elements, so [fuel] bounds its depth as it does
    for [Freeze]. *)
Fixpoint Copy (fuel : nat) (r : nat) (frozen : bool) (st : store)
    : option (nat * store) :=
  match fuel with
  | O => None
  | S n =>
      match objs st !! r with
      | None => None
      | Some v =>
          if frozen && a_frozen v then Some (r, st)
          else
            match sliceCopy (a_slice v) st with
            | (Ok cp, st1) =>
                match (if frozen
                       then Copy_each (fun f => Copy n f true) cp (elems st1 cp) 0 st1
                       else Some st1) with
                | Some st2 =>
                    Some (length (objs st2),
                          mk_store (objs st2 ++ [mk_arrayObj cp (a_typ v) frozen])
                            (mem st2))
                | None => None
                end
            | (Panic _, _) => None
            end
      end
  end.

Definition FrozenCopy (fuel : nat) (r : nat) (st : store) : option (nat * store) :=
  Copy fuel r true st.

(** ** Flatten *)

Definition isRef (v : hValue) : bool :=
  match v with HRef _ => true | _ => false end.

(** The position of the first element of [a] that is an array, counted
    from [i]. *)
Fixpoint Flatten_first (a : list hValue) (i : nat) : option nat :=
  match a with
  | [] => None
  | e :: a' => if isRef e then Some i else Flatten_first a' (S i)
  end.

(** The loop of [flattenElements]: [flatten] is the nested call on the
    elements of an element that is an array. *)
Fixpoint flattenElements_each (growslice : nat -> nat -> nat)
    (flatten : list hValue -> goslice -> store -> option (goslice * store))
    (elements : list hValue) (receiver : goslice) (st : store)
    : option (goslice * store) :=
  match elements with
  | [] => Some (receiver, st)
  | e :: elements' =>
      match e with
      | HRef a =>
          match objs st !! a with
          | Some o =>
              match flatten (elems st (a_slice o)) receiver st with
              | Some (receiver', st') =>
                  flattenElements_each growslice flatten elements' receiver' st'
              | None => None
              end
          | None => None
          end
      | _ =>
          match append growslice receiver [e] st with
          | (Ok receiver', st') =>
              flattenElements_each growslice flatten elements' receiver' st'
          | (Panic _, _) => None
          end
      end
  end.

(** [flattenElements]. The recursion follows the elements, so [fuel]
    bounds its depth as it does for [Freeze]. *)
Fixpoint flattenElements (growslice : nat -> nat -> nat) (fuel : nat)
    (elements : list hValue) (receiver : goslice) (st : store)
    : option (goslice * store) :=
  match fuel with
  | O => None
  | S n => flattenElements_each growslice (flattenElements growslice n)
             elements receiver st
  end.

(** [array.Flatten] *)
Definition Flatten (growslice : nat -> nat -> nat) (fuel : nat) (r : nat) (st : store)
    : option (nat * store) :=
  match objs st !! r with
  | None => None
  | Some v =>
      let a := elems st (a_slice v) in
      match Flatten_first a 0 with
      | None => Some (r, st)
      | Some i =>
          (* fs := make([]dgo.Value, i, len(a)*2); copy(fs, a) *)
          match alloc (take i a ++ replicate (2 * length a - i) GoNil) i st with
          | (Ok fs, st1) =>
              match flattenElements growslice fuel (drop i a) fs st1 with
              | Some (s, st2) =>
                  Some (length (objs st2),
                        mk_store (objs st2 ++ [mk_arrayObj s None (a_frozen v)]) (mem st2))
              | None => None
              end
          | (Panic _, _) => None
          end
      end
  end.

(** What the elements [es] are once every array among them, and within
    these arrays, is replaced by its elements. *)
Inductive flattens (st : store) : list hValue -> list hValue -> Prop :=
| flattens_nil : flattens st [] []
| flattens_ref (a : nat) (o : arrayObj) (es l1 l2 : list hValue) :
    objs st !! a = Some o ->
    flattens st (elems st (a_slice o)) l1 ->
    flattens st es l2 ->
    flattens st (HRef a :: es) (l1 ++ l2)
| flattens_val (e : hValue) (es l : list hValue) :
    isRef e = false ->
    flattens st es l ->
    flattens st (e :: es) (e :: l).

(** ** Stores that grow *)

(** Every array and every backing array of [st] is in [st'], as it was. *)
Definition extends (st st' : store) : Prop :=
  (forall (r : nat) (o : arrayObj), objs st !! r = Some o -> objs st' !! r = Some o)
  /\ (forall (p : nat) (b : list hValue), mem st !! p = Some b -> mem st' !! p = Some b).

(** What a frozen copy has in place of the element [x] of its source: a
    frozen array for an array, [x] itself otherwise. *)
Definition frozen_image (st : store) (x y : hValue) : Prop :=
  match x with
  | HRef _ => exists c : nat, y = HRef c /\ Frozen st c = true
  | _ => y = x
  end.

(** ** Calls that only read *)

(** A call that reads the store and leaves it as it is, whether it
    returns or panics. *)
Definition reads_only {A : Type} (m : M A) : Prop :=
  forall st : store, (m st).2 = st.

(** * Properties *)

(** ** Results and equality *)

Lemma rand_true (a b : result bool) :
  rand a b = Ok true <-> a = Ok true /\ b = Ok true.
Proof.
  unfold rand, rbind.
  destruct a as [[|]|e]; intuition congruence.
Qed.

Lemma rbind_Ok {A B : Type} (m : result A) (k : A -> result B) (b : B) :
  rbind m k = Ok b <-> exists a, m = Ok a /\ k a = Ok b.
Proof.
  unfold rbind. destruct m as [a|e]; split.
  - intros H. exists a. auto.
  - intros (a' & Ha & Hk). inversion Ha. subst. exact Hk.
  - discriminate.
  - intros (a' & Ha & _). discriminate.
Qed.

Lemma prim_equals_refl (p : prim) : prim_equals p p = true.
Proof.
  destruct p; simpl; auto using Z.eqb_refl, String.eqb_refl.
Qed.

(** The three equalities are reflexive, by simultaneous recursion on the
    value, the type and the array. *)
Lemma equals_refl (a : Value) : equals a a = true
with Typ_Equals_refl (t : Typ) : Typ_Equals t t = true
with array_deepEqual_refl (v : array) : array_deepEqual v v = true.
Proof.
  - destruct a as [p|v|t]; simpl.
    + apply prim_equals_refl.
    + apply array_deepEqual_refl.
    + apply Typ_Equals_refl.
  - destruct t as [| |e mn mx|ts variadic|a|tp|a|a|p|n]; simpl; auto.
    + rewrite !Z.eqb_refl, Typ_Equals_refl. reflexivity.
    + rewrite Bool.eqb_reflx. simpl.
      induction ts as [|x ts IH]; auto.
      rewrite Typ_Equals_refl. simpl. exact IH.
    + destruct tp as [t'|]; auto.
    + apply prim_equals_refl.
    + apply String.eqb_refl.
  - destruct v as [s t f]. simpl.
    induction s as [|x s IH]; auto.
    rewrite equals_refl. simpl. exact IH.
Qed.

Lemma array_deepEqual_sliceEquals (v ov : array) :
  array_deepEqual v ov = sliceEquals (slice v) (slice ov).
Proof.
  destruct v as [s t f]. simpl. generalize (slice ov).
  induction s as [|x s IH]; intros [|y b]; simpl; auto.
  all: try (rewrite IH; reflexivity).
Qed.

Lemma array_Equals_refl (v : array) : array_Equals v (VArray v) = true.
Proof. unfold array_Equals. apply equals_refl. Qed.

(** ** The loops of the checks *)

Section ChecksFacts.

Set Default Proof Using "Type".

Variable Assignable : Typ -> Typ -> result bool.
Variable Instance : Typ -> Value -> result bool.
Variable CheckAssignableTo : Typ -> Typ -> result bool.
Variable otherAssignable : Typ -> Typ -> result bool.
Variable otherInstance : Typ -> Value -> result bool.

Lemma allInstance_loop_true (t : Typ) (vs : list Value) :
  allInstance_loop Instance t vs = Ok true <->
  Forall (fun x => Instance t x = Ok true) vs.
Proof.
  clear Assignable CheckAssignableTo otherAssignable otherInstance.
  induction vs as [|v vs IH]; simpl.
  - split; auto.
  - rewrite Forall_cons. rewrite <- IH. unfold rbind.
    destruct (Instance t v) as [[|]|e]; simpl; intuition congruence.
Qed.

Lemma allInstance_true (t : Typ) (vs : list Value) :
  allInstance Instance t vs = Ok true <->
  Forall (instanceOf Instance t) vs.
Proof.
  unfold instanceOf. destruct t; simpl;
    try (rewrite allInstance_loop_true; split; intros H;
         [ eapply Forall_impl; [exact H | simpl; auto]
         | eapply Forall_impl; [exact H | simpl; intros x [Hx|Hx]; [discriminate | exact Hx]] ]).
  split; intros _; auto.
  apply Forall_forall. auto.
Qed.

Lemma assignableToAll_true (t : Typ) (vs : list Value) :
  assignableToAll Assignable t vs = Ok true <->
  Forall (fun x => Assignable (Value_Type x) t = Ok true) vs.
Proof.
  clear Instance CheckAssignableTo otherAssignable otherInstance.
  induction vs as [|v vs IH]; simpl.
  - split; auto.
  - rewrite Forall_cons. rewrite <- IH. unfold rbind.
    destruct (Assignable (Value_Type v) t) as [[|]|e]; simpl; intuition congruence.
Qed.

(** ** Exact array types *)

(** C1, as the code has it. For an exact array type [E]: against another
    exact array type [T], [E] is assignable from [T] exactly when [T]
    equals [E]; against the unconstrained array type it never is; against
    a sized array type it is exactly when both bounds equal the length of
    the array behind [E] and the type of every element is assignable from
    the sized type's element type; and a value is an instance of [E]
    exactly when it equals the array that [E] represents. *)
Theorem exactArrayType_assignable_instance (E : array) :
  (forall T : array,
      exactArrayType_DeepAssignable Assignable CheckAssignableTo E (exactArrayType T) = Ok true
      <-> exactArrayType_Equals E (VType (exactArrayType T)) = true)
  /\ exactArrayType_DeepAssignable Assignable CheckAssignableTo E DefaultArrayType = Ok false
  /\ (forall (oe : Typ) (omin omax : Z),
         exactArrayType_DeepAssignable Assignable CheckAssignableTo E
           (sizedArrayType oe omin omax) = Ok true
         <-> omin = len (slice E) /\ omax = len (slice E)
             /\ Forall (fun x => Assignable (Value_Type x) oe = Ok true) (slice E))
  /\ (forall V : Value,
         exactArrayType_Instance E V = true <-> array_Equals E V = true).
Proof.
  split; [|split; [|split]].
  - intros T. simpl. unfold array_Equals. simpl.
    rewrite array_deepEqual_sliceEquals. split; congruence.
  - reflexivity.
  - intros oe omin omax. unfold exactArrayType_DeepAssignable.
    rewrite !rand_true, assignableToAll_true. split.
    + intros (H1 & H2 & H3). repeat split; auto; apply Z.eqb_eq; congruence.
    + intros (H1 & H2 & H3). subst. rewrite !Z.eqb_refl. auto.
  - intros V. destruct V; simpl; unfold array_Equals; simpl;
      split; auto; discriminate.
Qed.

(** ** Sized array types *)

(** The assignable half: for an array type [O] other than the
    unconstrained one, the sized type is assignable from [O] exactly when
    [min <= O.Min()], [O.Max() <= max] and [e] is assignable from
    [O.ElementType()]. *)
Lemma sizedArrayType_assignable_sized (e : Typ) (min max : Z) (O : Typ) :
  isArrayType O = true ->
  O <> DefaultArrayType ->
  (sizedArrayType_DeepAssignable Assignable CheckAssignableTo otherAssignable
     e min max O = Ok true
   <-> exists (m M : Z) (oe : Typ),
         Min O = Ok m /\ Max O = Ok M /\ ElementType O = Ok oe /\
         min <= m /\ M <= max /\
         Typ_Assignable Assignable CheckAssignableTo otherAssignable e oe = Ok true).
Proof.
  intros Harr Hdef.
  assert (Hbody :
    sizedArrayType_DeepAssignable Assignable CheckAssignableTo otherAssignable e min max O =
    rand (omin <- Min O ;; Ok (min <=? omin))
      (rand (omax <- Max O ;; Ok (omax <=? max))
         (oe <- ElementType O ;;
          Typ_Assignable Assignable CheckAssignableTo otherAssignable e oe))).
  { destruct O; try discriminate; try reflexivity. congruence. }
  rewrite Hbody, !rand_true, !rbind_Ok. split.
  - intros ((m & Hm & Hle1) & (M & HM & Hle2) & (oe & Hoe & Ha)).
    exists m, M, oe. repeat split; auto.
    + apply Z.leb_le. congruence.
    + apply Z.leb_le. congruence.
  - intros (m & M & oe & Hm & HM & Hoe & Hle1 & Hle2 & Ha).
    repeat split.
    + exists m. split; auto. f_equal. apply Z.leb_le. exact Hle1.
    + exists M. split; auto. f_equal. apply Z.leb_le. exact Hle2.
    + exists oe. auto.
Qed.

(** The unconstrained array type is never assignable to a sized one. *)
Lemma sizedArrayType_assignable_default (e : Typ) (min max : Z) :
  sizedArrayType_DeepAssignable Assignable CheckAssignableTo otherAssignable
    e min max DefaultArrayType = Ok false.
Proof. reflexivity. Qed.

(** The instance half: a value is an instance of a sized array type
    exactly when it is an array whose length lies within the bounds and
    whose elements are all instances of the element type. *)
Lemma sizedArrayType_instance_array (e : Typ) (min max : Z) (v : Value) :
  sizedArrayType_DeepInstance Instance e min max v = Ok true
  <-> exists ov : array,
        v = VArray ov /\ min <= len (slice ov) /\ len (slice ov) <= max /\
        Forall (instanceOf Instance e) (slice ov).
Proof.
  destruct v as [p|ov|t]; unfold sizedArrayType_DeepInstance.
  - split; [discriminate | intros (ov & H & _); discriminate].
  - rewrite !rand_true, allInstance_true. split.
    + intros (H1 & H2 & H3). exists ov. repeat split; auto.
      * apply Z.leb_le. congruence.
      * apply Z.leb_le. congruence.
    + intros (ov' & Hv & H1 & H2 & H3). inversion Hv. subst ov'.
      repeat split; auto; f_equal; apply Z.leb_le; assumption.
  - split; [discriminate | intros (ov & H & _); discriminate].
Qed.

(** C2, as the code has it. For a sized array type [A] with element type
    [e] and bounds [min], [max]: [A] is assignable from an array type [O]
    other than the unconstrained one exactly when [min <= O.Min()],
    [O.Max() <= max] and [e] is assignable from [O.ElementType()]; [A] is
    never assignable from the unconstrained array type; and a value is an
    instance of [A] exactly when it is an array whose length lies within
    the bounds and whose elements are all instances of [e]. *)
Theorem sizedArrayType_assignable_instance (e : Typ) (min max : Z) :
  (forall O : Typ,
      isArrayType O = true ->
      O <> DefaultArrayType ->
      (sizedArrayType_DeepAssignable Assignable CheckAssignableTo otherAssignable
         e min max O = Ok true
       <-> exists (m M : Z) (oe : Typ),
             Min O = Ok m /\ Max O = Ok M /\ ElementType O = Ok oe /\
             min <= m /\ M <= max /\
             Typ_Assignable Assignable CheckAssignableTo otherAssignable e oe = Ok true))
  /\ sizedArrayType_DeepAssignable Assignable CheckAssignableTo otherAssignable
       e min max DefaultArrayType = Ok false
  /\ (forall v : Value,
         sizedArrayType_DeepInstance Instance e min max v = Ok true
         <-> exists ov : array,
               v = VArray ov /\ min <= len (slice ov) /\ len (slice ov) <= max /\
               Forall (instanceOf Instance e) (slice ov)).
Proof.
  split; [|split].
  - intros O. apply sizedArrayType_assignable_sized.
  - apply sizedArrayType_assignable_default.
  - intros v. apply sizedArrayType_instance_array.
Qed.

(** ** Tuples *)

(** The loop of [tupleAssignableTuple] returns true exactly when, at each
    of the [k] positions from [i] on, both tuples have a type and the type
    of the first is assignable from the type of the second. *)
Lemma tupleAssignableTuple_loop_true
    (t ot : TupleType) (tn on : Z) (tv ov : option Typ) (k : nat) :
  forall i : Z,
    tupleAssignableTuple_loop Assignable t ot tn on tv ov k i = Ok true
    <-> forall d : nat, (d < k)%nat ->
          exists te oe : Typ,
            tuplePosition t tn tv (i + Z.of_nat d) = Ok (Some te)
            /\ tuplePosition ot on ov (i + Z.of_nat d) = Ok (Some oe)
            /\ Assignable te oe = Ok true.
Proof.
  clear Instance CheckAssignableTo otherAssignable otherInstance.
  induction k as [|k IH]; intros i; simpl.
  - split; [intros _ d Hd; lia | reflexivity].
  - split.
    + intros H d Hd.
      apply rbind_Ok in H as (te & Hte & H).
      apply rbind_Ok in H as (oe & Hoe & H).
      destruct te as [te|]; [|discriminate].
      destruct oe as [oe|]; [|discriminate].
      apply rbind_Ok in H as (b & Hb & H).
      destruct b; [|discriminate]. simpl in H.
      destruct d as [|d].
      * rewrite Z.add_0_r. exists te, oe. auto.
      * apply (proj1 (IH (i + 1))) with (d := d) in H; [|lia].
        replace (i + Z.of_nat (S d)) with (i + 1 + Z.of_nat d) by lia.
        exact H.
    + intros H.
      destruct (H 0%nat ltac:(lia)) as (te & oe & Hte & Hoe & Hb).
      rewrite Z.add_0_r in Hte, Hoe.
      rewrite Hte, Hoe. simpl. rewrite Hb. simpl.
      apply IH. intros d Hd.
      replace (i + 1 + Z.of_nat d) with (i + Z.of_nat (S d)) by lia.
      apply H. lia.
Qed.

(** X1. What [tupleAssignableTuple] checks: the bounds of the second tuple lie
    within those of the first, and the types agree at every position below
    the longer of the two fixed prefixes. The element types of two variadic
    tails meet only where one tuple still has fixed positions. *)
Lemma tupleAssignableTuple_true (t ot : TupleType) :
  tupleAssignableTuple Assignable t ot = Ok true
  <-> exists (tmin omin omax tmax tn on : Z) (tv ov : option Typ),
        Min (TupleType_Typ t) = Ok tmin /\ Min (TupleType_Typ ot) = Ok omin
        /\ Max (TupleType_Typ ot) = Ok omax /\ Max (TupleType_Typ t) = Ok tmax
        /\ tmin <= omin /\ omax <= tmax
        /\ tupleTail t = Ok (tn, tv) /\ tupleTail ot = Ok (on, ov)
        /\ forall i : Z,
             0 <= i < Z.max tn on ->
             exists te oe : Typ,
               tuplePosition t tn tv i = Ok (Some te)
               /\ tuplePosition ot on ov i = Ok (Some oe)
               /\ Assignable te oe = Ok true.
Proof.
  clear Instance CheckAssignableTo otherAssignable otherInstance.
  unfold tupleAssignableTuple. split.
  - intros H.
    apply rbind_Ok in H as (tmin & Htmin & H).
    apply rbind_Ok in H as (omin & Homin & H).
    destruct (tmin >? omin) eqn:Hmin; [discriminate|].
    apply rbind_Ok in H as (omax & Homax & H).
    apply rbind_Ok in H as (tmax & Htmax & H).
    destruct (omax >? tmax) eqn:Hmax; [discriminate|].
    apply rbind_Ok in H as ([tn tv] & Htt & H).
    apply rbind_Ok in H as ([on ov] & Hott & H).
    exists tmin, omin, omax, tmax, tn, on, tv, ov.
    repeat split; auto.
    + rewrite Z.gtb_ltb in Hmin. apply Z.ltb_ge in Hmin. exact Hmin.
    + rewrite Z.gtb_ltb in Hmax. apply Z.ltb_ge in Hmax. exact Hmax.
    + intros i Hi.
      pose proof (proj1 (tupleAssignableTuple_loop_true t ot tn on tv ov _ 0) H
                    (Z.to_nat i)) as Hpos.
      rewrite Z.add_0_l, Z2Nat.id in Hpos by lia.
      apply Hpos. destruct (tn <? on) eqn:Hlt.
      * apply Z.ltb_lt in Hlt. lia.
      * apply Z.ltb_ge in Hlt. lia.
  - intros (tmin & omin & omax & tmax & tn & on & tv & ov &
            Htmin & Homin & Homax & Htmax & Hmin & Hmax & Htt & Hott & Hpos).
    rewrite Htmin, Homin. simpl.
    replace (tmin >? omin) with false
      by (symmetry; rewrite Z.gtb_ltb; apply Z.ltb_ge; exact Hmin).
    rewrite Homax, Htmax. simpl.
    replace (omax >? tmax) with false
      by (symmetry; rewrite Z.gtb_ltb; apply Z.ltb_ge; exact Hmax).
    rewrite Htt, Hott. simpl.
    apply tupleAssignableTuple_loop_true. intros d Hd. rewrite Z.add_0_l.
    apply Hpos. destruct (tn <? on) eqn:Hlt.
    + apply Z.ltb_lt in Hlt. lia.
    + apply Z.ltb_ge in Hlt. lia.
Qed.

(** C3 at a failing input. [T] is the variadic tuple whose tail holds empty
    tuples, [T'] the variadic tuple whose tail holds arrays of any kind.
    Both have bounds [0] and [MaxInt64] and no fixed position, so the loop
    of [tupleAssignableTuple] runs over no position and the call returns
    true, although the element type of the tail of [T] is not assignable
    from the element type of the tail of [T']. *)
Theorem tupleAssignableTuple_ignores_tails :
  VariadicTupleType [newArrayType (Some DefaultTupleType) 0 MaxInt64]
    = Ok (tupleType [sizedArrayType DefaultTupleType 0 MaxInt64] true)
  /\ VariadicTupleType [newArrayType (Some DefaultArrayType) 0 MaxInt64]
    = Ok (tupleType [sizedArrayType DefaultArrayType 0 MaxInt64] true)
  /\ tupleAssignableTuple Assignable
       (TupleOf [sizedArrayType DefaultTupleType 0 MaxInt64] true)
       (TupleOf [sizedArrayType DefaultArrayType 0 MaxInt64] true) = Ok true
  /\ tupleTail (TupleOf [sizedArrayType DefaultTupleType 0 MaxInt64] true)
       = Ok (0, Some DefaultTupleType)
  /\ tupleTail (TupleOf [sizedArrayType DefaultArrayType 0 MaxInt64] true)
       = Ok (0, Some DefaultArrayType)
  /\ tupleType_DeepAssignable Assignable Instance CheckAssignableTo
       [] false DefaultArrayType = Ok false.
Proof. repeat split. Qed.

(** ** The type of an array *)

(** C4, as the code has it. The type of an array without a declared type
    is the exact array type backed by the array, and the array is an
    instance of it; the type of an array with a declared type is that
    declared type. *)
Theorem array_Type_instance (s : list Value) (f : bool) :
  array_Type (mk_array s None f) = exactArrayType (mk_array s None f)
  /\ exactArrayType_Instance (mk_array s None f) (VArray (mk_array s None f)) = true
  /\ Typ_Instance Assignable Instance CheckAssignableTo otherAssignable otherInstance
       (array_Type (mk_array s None f)) (VArray (mk_array s None f)) = Ok true
  /\ (forall t : Typ, array_Type (mk_array s (Some t) f) = t).
Proof.
  repeat split.
  - unfold exactArrayType_Instance. apply array_Equals_refl.
  - unfold array_Type, Typ_Instance, exactArrayType_Instance. cbn [typ].
    f_equal. apply array_Equals_refl.
Qed.

End ChecksFacts.

(** ** Closed instances of the checks *)

(** C1 at a concrete input: the exact type of the empty array is assignable
    from the sized array type with bounds [0] and [0], whatever the
    dispatching functions do, and the two types are not equal. *)
Lemma exactArrayType_assignable_not_equal :
  newArrayType None 0 0 = sizedArrayType DefaultAnyType 0 0
  /\ array_Type (ArrayWithCapacity 0 None) = exactArrayType (mk_array [] None false)
  /\ (forall Assignable CheckAssignableTo : Typ -> Typ -> result bool,
        exactArrayType_DeepAssignable Assignable CheckAssignableTo
          (mk_array [] None false) (sizedArrayType DefaultAnyType 0 0) = Ok true)
  /\ exactArrayType_Equals (mk_array [] None false)
       (VType (sizedArrayType DefaultAnyType 0 0)) = false
  /\ Typ_Equals (sizedArrayType DefaultAnyType 0 0)
       (exactArrayType (mk_array [] None false)) = false.
Proof. repeat split. Qed.

(** C2 at a concrete input: the sized array type with element type Any
    and bounds [0] and [MaxInt64] is not assignable from the unconstrained
    array type, although the bounds of the latter fit and Any is assignable
    from its element type. *)
Lemma sizedArrayType_rejects_default :
  (forall Assignable CheckAssignableTo otherAssignable : Typ -> Typ -> result bool,
      sizedArrayType_DeepAssignable Assignable CheckAssignableTo otherAssignable
        DefaultAnyType 0 MaxInt64 DefaultArrayType = Ok false)
  /\ isArrayType DefaultArrayType = true
  /\ Min DefaultArrayType = Ok 0
  /\ Max DefaultArrayType = Ok MaxInt64
  /\ ElementType DefaultArrayType = Ok DefaultAnyType
  /\ 0 <= 0
  /\ MaxInt64 <= MaxInt64
  /\ (forall Assignable CheckAssignableTo otherAssignable : Typ -> Typ -> result bool,
        Typ_Assignable Assignable CheckAssignableTo otherAssignable
          DefaultAnyType DefaultAnyType = Ok true).
Proof. repeat split; try reflexivity; lia. Qed.

(** The hypotheses of C2 hold of a sized array type with bounds [1] and
    [2], which the sized array type over Any with bounds [0] and [3] is
    assignable from. *)
Lemma sizedArrayType_assignable_instance_witness :
  isArrayType (sizedArrayType DefaultAnyType 1 2) = true
  /\ sizedArrayType DefaultAnyType 1 2 <> DefaultArrayType
  /\ sizedArrayType_DeepAssignable
       (fun _ _ => Ok false) (fun _ _ => Ok false) (fun _ _ => Ok false)
       DefaultAnyType 0 3 (sizedArrayType DefaultAnyType 1 2) = Ok true.
Proof.
  split; [reflexivity|]. split; [discriminate|].
  apply (proj1 (sizedArrayType_assignable_instance
                  (fun _ _ => Ok false) (fun _ _ => Ok false)
                  (fun _ _ => Ok false) (fun _ _ => Ok false)
                  DefaultAnyType 0 3)
           (sizedArrayType DefaultAnyType 1 2)).
  - reflexivity.
  - discriminate.
  - exists 1, 2, DefaultAnyType. repeat split; try reflexivity; lia.
Defined.

(** C4 at a concrete input: the empty array that [ArrayWithCapacity] makes
    for the array type with bounds [1] and [5] has that type as its type,
    and is no instance of it. *)
Lemma array_Type_not_instance :
  array_Type (ArrayWithCapacity 0 (Some (newArrayType None 1 5)))
    = sizedArrayType DefaultAnyType 1 5
  /\ (forall Instance : Typ -> Value -> result bool,
        sizedArrayType_DeepInstance Instance DefaultAnyType 1 5
          (VArray (ArrayWithCapacity 0 (Some (newArrayType None 1 5)))) = Ok false).
Proof. repeat split. Qed.

(** ** Variadic tuples *)

Lemma index_last {A : Type} (l : list A) :
  l <> [] ->
  index l (len l - 1) = match last l with
                        | Some x => Ok x
                        | None => outOfRange
                        end.
Proof.
  intros Hne. unfold index, len.
  destruct l as [|a l] using rev_ind; [congruence|].
  rewrite last_snoc, length_app. simpl.
  replace ((Z.of_nat (length l + 1) - 1 <? 0)
           || (Z.of_nat (length l + 1) <=? Z.of_nat (length l + 1) - 1)) with false.
  2:{ symmetry. apply orb_false_iff. split; [apply Z.ltb_ge | apply Z.leb_gt]; lia. }
  replace (Z.to_nat (Z.of_nat (length l + 1) - 1)) with (length l) by lia.
  rewrite lookup_app_r by lia.
  replace (length l - length l)%nat with 0%nat by lia. reflexivity.
Qed.

(** What [VariadicTupleType] returns, by the last of its types. *)
Lemma VariadicTupleType_cases (types : list Typ) :
  VariadicTupleType types =
  match last types with
  | None => Panic (IllegalArgument "a variadic tuple must have at least one element")
  | Some t =>
      if isArrayType t then Ok (tupleType types true)
      else Panic (IllegalArgument
                    "the last element of a variadic tuple must be an ArrayType")
  end.
Proof.
  unfold VariadicTupleType.
  destruct types as [|t0 ts]; [reflexivity|].
  assert (Hne : t0 :: ts <> []) by discriminate.
  assert (Hlen : (len (t0 :: ts) =? 0) = false).
  { apply Z.eqb_neq. unfold len. simpl. lia. }
  rewrite Hlen, (index_last _ Hne).
  destruct (last (t0 :: ts)) as [t|] eqn:Hlast.
  - simpl. unfold newTupleType. rewrite Hlen.
    destruct (isArrayType t); reflexivity.
  - apply last_None in Hlast. congruence.
Qed.

(** C7. The variadic tuple constructor fails with an IllegalArgument error
    exactly when its type list is empty or its last element is no array
    type, and returns the variadic tuple over its types exactly when the
    list has a last element that is an array type. *)
Theorem VariadicTupleType_spec (types : list Typ) :
  ((exists msg : string, VariadicTupleType types = Panic (IllegalArgument msg))
   <-> types = [] \/ exists t : Typ, last types = Some t /\ isArrayType t = false)
  /\ (VariadicTupleType types = Ok (tupleType types true)
      <-> exists t : Typ, last types = Some t /\ isArrayType t = true)
  /\ ((exists msg : string, VariadicTupleType types = Panic (IllegalArgument msg))
      \/ VariadicTupleType types = Ok (tupleType types true)).
Proof.
  rewrite VariadicTupleType_cases.
  destruct (last types) as [t|] eqn:Hlast.
  - destruct (isArrayType t) eqn:Harr; repeat split.
    + intros (msg & H). discriminate.
    + intros [H | (t' & H1 & H2)].
      * subst. discriminate.
      * congruence.
    + intros _. exists t. auto.
    + right. reflexivity.
    + intros _. right. exists t. auto.
    + intros _. eexists. reflexivity.
    + discriminate.
    + intros (t' & H1 & H2). congruence.
    + left. eexists. reflexivity.
  - apply last_None in Hlast. subst. repeat split.
    + intros _. left. reflexivity.
    + intros _. eexists. reflexivity.
    + discriminate.
    + intros (t' & H1 & _). discriminate.
    + left. eexists. reflexivity.
Qed.

(** ** The meta type *)

(** C9. The type of a meta type with an operand is the meta type without
    one, which is its own type; so from a meta type on, every further
    application of [Type()] yields the meta type without operand. *)
Theorem metaType_Type_fixed_point :
  (forall t : Typ, Typ_Type (metaType (Some t)) = metaType None)
  /\ Typ_Type (metaType None) = metaType None
  /\ (forall (tp : option Typ) (n : nat),
         Nat.iter (S n) Typ_Type (metaType tp) = metaType None).
Proof.
  split; [|split]; try reflexivity.
  intros tp n. induction n as [|n IH].
  - destruct tp; reflexivity.
  - change (Typ_Type (Nat.iter (S n) Typ_Type (metaType tp)) = metaType None).
    rewrite IH. reflexivity.
Qed.

(** ** Freezing *)

Lemma obj_le_refl (o : arrayObj) : obj_le o o.
Proof. repeat split; auto. Qed.

Lemma obj_le_trans (o1 o2 o3 : arrayObj) :
  obj_le o1 o2 -> obj_le o2 o3 -> obj_le o1 o3.
Proof.
  intros (H1 & H2 & H3) (H4 & H5 & H6). repeat split; try congruence. auto.
Qed.

Lemma store_le_refl (st : store) : store_le st st.
Proof.
  split; auto. apply Forall2_same_length_lookup. split; auto.
  intros i x y Hx Hy. rewrite Hx in Hy. inversion Hy. apply obj_le_refl.
Qed.

Lemma store_le_trans (s1 s2 s3 : store) :
  store_le s1 s2 -> store_le s2 s3 -> store_le s1 s3.
Proof.
  intros [Hm1 Ho1] [Hm2 Ho2]. split; [congruence|].
  revert Ho2. generalize (objs s3). revert Ho1. generalize (objs s2).
  generalize (objs s1). clear.
  intros l1 l2 H12. induction H12 as [|x y l1 l2 Hxy H12 IH]; intros l3 H23.
  - inversion H23. constructor.
  - inversion H23 as [|y' z l2' l3' Hyz H23']. subst. constructor.
    + eapply obj_le_trans; eauto.
    + apply IH. assumption.
Qed.

Lemma store_le_lookup (st st' : store) (k : nat) (o : arrayObj) :
  store_le st st' -> objs st !! k = Some o ->
  exists o', objs st' !! k = Some o' /\ obj_le o o'.
Proof.
  intros [_ H] Hk. eapply Forall2_lookup_l in H as (o' & Ho' & Hle); eauto.
Qed.

Lemma store_le_elems (st st' : store) (s : goslice) :
  store_le st st' -> elems st' s = elems st s.
Proof.
  intros [Hm _]. unfold elems, backing. rewrite Hm. reflexivity.
Qed.

Lemma store_le_contents (st st' : store) (k : nat) :
  store_le st st' -> contents st' k = contents st k.
Proof.
  intros Hle. unfold contents.
  destruct (objs st !! k) as [o|] eqn:Hk.
  - destruct (store_le_lookup _ _ _ _ Hle Hk) as (o' & Ho' & Hs & _).
    rewrite Ho', Hs. apply store_le_elems. exact Hle.
  - destruct Hle as [_ H]. apply Forall2_length in H.
    apply lookup_ge_None in Hk.
    assert (Hk' : objs st' !! k = None) by (apply lookup_ge_None; lia).
    rewrite Hk'. reflexivity.
Qed.

Lemma store_le_Frozen (st st' : store) (k : nat) :
  store_le st st' -> Frozen st k = true -> Frozen st' k = true.
Proof.
  unfold Frozen. intros Hle Hf.
  destruct (objs st !! k) as [o|] eqn:Hk; [|discriminate].
  destruct (store_le_lookup _ _ _ _ Hle Hk) as (o' & Ho' & _ & _ & Hfr).
  rewrite Ho'. auto.
Qed.

Lemma setFrozen_le (st : store) (r : nat) (v : arrayObj) :
  objs st !! r = Some v -> store_le st (setFrozen r v st).
Proof.
  intros Hr. split; [reflexivity|]. simpl.
  apply Forall2_same_length_lookup. split.
  - rewrite length_insert. reflexivity.
  - intros i x y Hx Hy. destruct (decide (i = r)) as [->|Hne].
    + rewrite list_lookup_insert_eq in Hy by (eapply lookup_lt_Some; eauto).
      inversion Hy. rewrite Hr in Hx. inversion Hx. subst.
      repeat split; auto.
    + rewrite list_lookup_insert_ne in Hy by auto.
      rewrite Hx in Hy. inversion Hy. apply obj_le_refl.
Qed.

Lemma setFrozen_Frozen (st : store) (r : nat) (v : arrayObj) :
  objs st !! r = Some v -> Frozen (setFrozen r v st) r = true.
Proof.
  intros Hr. unfold Frozen, setFrozen. simpl.
  rewrite list_lookup_insert_eq by (eapply lookup_lt_Some; eauto).
  reflexivity.
Qed.

(** The loop of [Freeze] only raises frozen flags and leaves every array
    among the elements frozen, if the call on one element does. *)
Lemma Freeze_each_le (freeze : nat -> store -> option store) :
  (forall (f : nat) (st st' : store),
      freeze f st = Some st' -> store_le st st' /\ Frozen st' f = true) ->
  forall (a : list hValue) (st st' : store),
    Freeze_each freeze a st = Some st' ->
    store_le st st' /\ forall f : nat, HRef f ∈ a -> Frozen st' f = true.
Proof.
  intros Hfreeze a.
  induction a as [|e a IHa]; intros st st' H; simpl in H.
  - inversion H. subst. split; [apply store_le_refl|].
    intros f Hin. inversion Hin.
  - assert (Hskip : Freeze_each freeze a st = Some st' ->
                    (forall f, e <> HRef f) ->
                    store_le st st' /\
                    forall f : nat, HRef f ∈ e :: a -> Frozen st' f = true).
    { intros H0 Hne. apply IHa in H0 as [Hle Hall]. split; auto.
      intros f Hin. apply elem_of_cons in Hin as [Heq|Hin]; auto.
      exfalso. eapply Hne. eauto. }
    destruct e as [|p|f0|t]; try (apply Hskip; [assumption | discriminate]).
    destruct (freeze f0 st) as [st2|] eqn:Hf2; [|discriminate].
    apply Hfreeze in Hf2 as [Hle2 Hfr2].
    apply IHa in H as [Hle Hall]. split.
    + eapply store_le_trans; eauto.
    + intros f Hin. apply elem_of_cons in Hin as [Heq|Hin]; auto.
      inversion Heq. subst. eapply store_le_Frozen; eauto.
Qed.

(** [Freeze] only raises frozen flags, and the array it is called on is
    frozen when it returns. *)
Lemma Freeze_le (fuel : nat) :
  forall (r : nat) (st st' : store),
    Freeze fuel r st = Some st' -> store_le st st' /\ Frozen st' r = true.
Proof.
  induction fuel as [|n IH]; intros r st st' H; [discriminate|].
  simpl in H. destruct (objs st !! r) as [v|] eqn:Hr; [|discriminate].
  destruct (a_frozen v) eqn:Hf.
  - inversion H. subst. split; [apply store_le_refl|].
    unfold Frozen. rewrite Hr. exact Hf.
  - apply (Freeze_each_le _ IH) in H as [Hle _].
    pose proof (setFrozen_le st r v Hr) as Hle1.
    pose proof (setFrozen_Frozen st r v Hr) as Hfr1.
    split.
    + eapply store_le_trans; eauto.
    + eapply store_le_Frozen; eauto.
Qed.

Lemma store_le_length (st st' : store) :
  store_le st st' -> length (objs st') = length (objs st).
Proof. intros [_ H]. symmetry. eapply Forall2_length. exact H. Qed.

Lemma store_le_unfrozen (st st' : store) :
  store_le st st' -> (unfrozen st' <= unfrozen st)%nat.
Proof.
  intros [_ H]. unfold unfrozen.
  induction H as [|o o' l l' (_ & _ & Hf) _ IH]; [reflexivity|].
  rewrite !filter_cons.
  destruct (decide (a_frozen o' = false)) as [Ho'|Ho'];
    destruct (decide (a_frozen o = false)) as [Ho|Ho]; simpl; try lia.
  apply not_false_is_true in Ho. apply Hf in Ho. congruence.
Qed.

Lemma unfrozen_setFrozen (st : store) (r : nat) (v : arrayObj) :
  objs st !! r = Some v -> a_frozen v = false ->
  S (unfrozen (setFrozen r v st)) = unfrozen st.
Proof.
  intros Hr Hf. unfold unfrozen, setFrozen. simpl.
  rewrite insert_take_drop by (eapply lookup_lt_Some; eauto).
  rewrite <- (take_drop_middle _ _ _ Hr) at 3.
  rewrite !filter_app, !filter_cons, !length_app. simpl.
  destruct (decide (true = false)) as [?|_]; [discriminate|].
  destruct (decide (a_frozen v = false)) as [_|?]; [|contradiction].
  simpl. lia.
Qed.

Lemma store_le_closed (st st' : store) :
  store_le st st' -> closed st -> closed st'.
Proof.
  intros Hle Hc r o' f Hr Hin.
  rewrite (store_le_length _ _ Hle).
  pose proof Hle as [_ H2].
  eapply Forall2_lookup_r in H2 as (o & Ho & Hs & _); eauto.
  apply (Hc r o f Ho). rewrite <- Hs, <- (store_le_elems _ _ _ Hle). exact Hin.
Qed.

(** With more fuel than there are arrays left to freeze, the loop of
    [Freeze] returns, if [Freeze] does. *)
Lemma Freeze_each_total (n : nat) :
  (forall (r : nat) (st : store),
      closed st -> (r < length (objs st))%nat -> (unfrozen st < n)%nat ->
      exists st', Freeze n r st = Some st') ->
  forall (a : list hValue) (st : store),
    closed st -> (unfrozen st < n)%nat ->
    (forall f : nat, HRef f ∈ a -> (f < length (objs st))%nat) ->
    exists st', Freeze_each (Freeze n) a st = Some st'.
Proof.
  intros IH a. induction a as [|e a IHa]; intros st Hc Hn Hin; simpl.
  - eauto.
  - assert (Hrest : forall f : nat, HRef f ∈ a -> (f < length (objs st))%nat).
    { intros f Hf. apply Hin. apply elem_of_cons. auto. }
    destruct e as [|p|f0|t]; try (apply IHa; assumption).
    destruct (IH f0 st Hc) as [st2 Hf2]; auto.
    { apply Hin. apply elem_of_cons. auto. }
    rewrite Hf2. apply Freeze_le in Hf2 as [Hle _].
    apply IHa.
    + eapply store_le_closed; eauto.
    + pose proof (store_le_unfrozen _ _ Hle). lia.
    + rewrite (store_le_length _ _ Hle). exact Hrest.
Qed.

(** [Freeze] returns when its fuel exceeds the number of arrays that are
    not frozen yet. *)
Lemma Freeze_total (n : nat) :
  forall (r : nat) (st : store),
    closed st -> (r < length (objs st))%nat -> (unfrozen st < n)%nat ->
    exists st', Freeze n r st = Some st'.
Proof.
  induction n as [|n IH]; intros r st Hc Hr Hn; [lia|].
  simpl. destruct (lookup_lt_is_Some_2 _ _ Hr) as [v Hv]. rewrite Hv.
  destruct (a_frozen v) eqn:Hf; [eauto|].
  pose proof (setFrozen_le _ _ _ Hv) as Hle.
  apply (Freeze_each_total n IH).
  - eapply store_le_closed; eauto.
  - pose proof (unfrozen_setFrozen _ _ _ Hv Hf). lia.
  - intros f Hin. rewrite (store_le_length _ _ Hle).
    apply (Hc r v f Hv). rewrite <- (store_le_elems _ _ _ Hle). exact Hin.
Qed.

(** C6. A call of [Freeze] that returns leaves the array frozen, raises
    frozen flags only and changes no contents; on a frozen array it changes
    nothing, so freezing twice is freezing once; on an array that is not
    frozen yet it sets the flag and then calls [Freeze] on the elements in
    turn, which leaves every array among them frozen; and it does return
    when the store is closed and the fuel exceeds the number of arrays not
    frozen yet. *)
Theorem Freeze_idempotent_recursive (fuel : nat) (r : nat) (st st' : store) :
  Freeze fuel r st = Some st' ->
  Freeze fuel r st' = Some st'
  /\ (Frozen st r = true -> st' = st)
  /\ Frozen st' r = true
  /\ (Frozen st r = false ->
      forall f : nat, HRef f ∈ contents st r -> Frozen st' f = true)
  /\ (forall k : nat, contents st' k = contents st k)
  /\ (forall k : nat, Frozen st k = true -> Frozen st' k = true)
  /\ (forall (n : nat) (v : arrayObj) (s : store),
         objs s !! r = Some v -> a_frozen v = false ->
         Freeze (S n) r s =
         Freeze_each (Freeze n) (elems (setFrozen r v s) (a_slice v)) (setFrozen r v s))
  /\ (forall s : store,
         closed s -> (r < length (objs s))%nat ->
         exists s', Freeze (S (unfrozen s)) r s = Some s').
Proof.
  intros H. pose proof (Freeze_le _ _ _ _ H) as [Hle Hfr].
  destruct fuel as [|n]; [discriminate|].
  repeat split.
  - simpl. unfold Frozen in Hfr.
    destruct (objs st' !! r) as [v'|]; [|discriminate]. rewrite Hfr. reflexivity.
  - intros Hf. simpl in H. unfold Frozen in Hf.
    destruct (objs st !! r) as [v|]; [|discriminate]. rewrite Hf in H. congruence.
  - exact Hfr.
  - intros Hnf f Hin. simpl in H. unfold contents in Hin. unfold Frozen in Hnf.
    destruct (objs st !! r) as [v|] eqn:Hr; [|inversion Hin].
    destruct (a_frozen v) eqn:Hf.
    + discriminate.
    + apply (Freeze_each_le _ (Freeze_le n)) in H as [_ Hall]. apply Hall.
      rewrite (store_le_elems _ _ _ (setFrozen_le _ _ _ Hr)). exact Hin.
  - intros k. apply store_le_contents. exact Hle.
  - intros k. apply store_le_Frozen. exact Hle.
  - intros n0 v s Hs Hf. simpl. rewrite Hs, Hf. reflexivity.
  - intros s Hc Hr. apply Freeze_total; auto.
Qed.

(** ** Mutation *)

Section CollectionFacts.

Set Default Proof Using "Type".

Variable growslice : nat -> nat -> nat.
Variable hInstance : Typ -> store -> hValue -> result bool.
Variable hEquals : store -> hValue -> hValue -> bool.
Variable Parse : string -> result Value.

(** Runs the guard at the head of a mutating method on a frozen array. *)
Ltac frozen_guard Hobj Hfrozen :=
  intros; unfold mbind, getObj; rewrite Hobj; cbn beta iota;
  rewrite Hfrozen; reflexivity.

(** C5. Once [Freeze] has returned for an array, each of its mutating
    methods panics with the frozen-array error that names the method, and
    leaves the store as it was. *)
Theorem frozen_array_rejects_mutation (fuel : nat) (r : nat) (st st' : store) :
  Freeze fuel r st = Some st' ->
  (forall val, Add growslice hInstance r val st' = (Panic (FrozenMutation "Add"), st'))
  /\ (forall values,
         AddAll growslice hInstance r values st' = (Panic (FrozenMutation "AddAll"), st'))
  /\ (forall values,
         AddValues growslice hInstance r values st'
         = (Panic (FrozenMutation "AddValues"), st'))
  /\ (forall pos val,
         Insert growslice hInstance r pos val st' = (Panic (FrozenMutation "Insert"), st'))
  /\ (forall pos val,
         Set_ hInstance r pos val st' = (Panic (FrozenMutation "Set"), st'))
  /\ (forall pos, Remove r pos st' = (Panic (FrozenMutation "Remove"), st'))
  /\ (forall value,
         RemoveValue hEquals r value st' = (Panic (FrozenMutation "RemoveValue"), st'))
  /\ Pop r st' = (Panic (FrozenMutation "Pop"), st')
  /\ (forall ti,
         SetType hInstance Parse r ti st' = (Panic (FrozenMutation "SetType"), st')).
Proof.
  intros H. apply Freeze_le in H as [_ Hfr]. unfold Frozen in Hfr.
  destruct (objs st' !! r) as [v|] eqn:Hobj; [|discriminate].
  repeat split.
  - unfold Add. frozen_guard Hobj Hfr.
  - unfold AddAll. frozen_guard Hobj Hfr.
  - unfold AddValues. frozen_guard Hobj Hfr.
  - unfold Insert. frozen_guard Hobj Hfr.
  - unfold Set_. frozen_guard Hobj Hfr.
  - unfold Remove. frozen_guard Hobj Hfr.
  - unfold RemoveValue. frozen_guard Hobj Hfr.
  - unfold Pop. frozen_guard Hobj Hfr.
  - unfold SetType. frozen_guard Hobj Hfr.
Qed.

Lemma IndexOf_loop_absent (st : store) (val : hValue) (a : list hValue) :
  forall i : Z,
    Forall (fun e => hEquals st val e = false) a ->
    IndexOf_loop hEquals st val a i = -1.
Proof.
  induction a as [|e a IH]; intros i Hall; simpl; [reflexivity|].
  inversion Hall as [|? ? He Ha]. subst. rewrite He. apply IH. exact Ha.
Qed.

Lemma removePos_out_of_range (r : nat) (v : arrayObj) (pos : Z) (st : store) :
  objs st !! r = Some v ->
  pos < 0 \/ Z.of_nat (slen (a_slice v)) <= pos ->
  removePos r pos st = (Ok GoNil, st).
Proof.
  intros Hobj Hpos. unfold removePos, mbind, getObj. rewrite Hobj. cbn beta iota.
  replace ((pos >=? 0) && (pos <? Z.of_nat (slen (a_slice v)))) with false;
    [reflexivity|].
  symmetry. apply andb_false_iff.
  destruct Hpos; [left; rewrite Z.geb_leb; apply Z.leb_gt | right; apply Z.ltb_ge]; lia.
Qed.

(** C10. On an array that is not frozen, [Remove] at a position below [0]
    or not below the length returns nil without a panic and leaves the
    store as it was; and [RemoveValue] of a value that equals no element
    returns false and leaves the store as it was. *)
Theorem Remove_out_of_range_is_noop (r : nat) (v : arrayObj) (st : store) :
  objs st !! r = Some v ->
  a_frozen v = false ->
  (forall pos : Z,
      pos < 0 \/ Z.of_nat (slen (a_slice v)) <= pos ->
      Remove r pos st = (Ok GoNil, st))
  /\ (forall value : hValue,
         Forall (fun e => hEquals st value e = false) (contents st r) ->
         RemoveValue hEquals r value st = (Ok false, st)).
Proof.
  intros Hobj Hfr. split.
  - intros pos Hpos. unfold Remove, mbind at 1, getObj. rewrite Hobj.
    cbn beta iota. rewrite Hfr.
    apply (removePos_out_of_range r v pos st Hobj). exact Hpos.
  - intros value Habs. unfold RemoveValue, mbind at 1, getObj. rewrite Hobj.
    cbn beta iota. rewrite Hfr.
    unfold mbind at 1, IndexOf, mbind at 1, getObj. rewrite Hobj. cbn beta iota.
    unfold mbind at 1, getStore, mret. cbn beta iota.
    unfold contents in Habs. rewrite Hobj in Habs.
    rewrite (IndexOf_loop_absent _ _ _ 0 Habs).
    unfold mbind.
    rewrite (removePos_out_of_range r v (-1) st Hobj) by (left; lia).
    reflexivity.
Qed.

(** ** Isolation of a slice from its source *)
Section Isolation.

Variables r r' : nat.
Variable o' : arrayObj.
Variable b' : list hValue.
Hypothesis r_other : r <> r'.

Set Default Proof Using "Type + r_other".

Local Abbreviation isolated_here := (isolated r r' o' b').
Local Abbreviation keeps := (keeps_isolated r r' o' b').

Lemma keeps_ret {A : Type} (a : A) (Q : A -> Prop) :
  Q a -> keeps (mret a) Q.
Proof. intros HQ st HI. simpl. auto. Qed.

Lemma keeps_panic {A : Type} (e : panic) (Q : A -> Prop) :
  keeps (mpanic e) Q.
Proof. intros st HI. simpl. auto. Qed.

Lemma keeps_lift {A : Type} (x : result A) :
  keeps (lift x) (fun _ => True).
Proof. intros st HI. unfold lift. destruct x; auto. Qed.

Lemma keeps_getStore : keeps getStore (fun _ => True).
Proof. intros st HI. simpl. auto. Qed.

Lemma keeps_bind {A B : Type} (m : M A) (k : A -> M B)
    (Q : A -> Prop) (R : B -> Prop) :
  keeps m Q -> (forall a, Q a -> keeps (k a) R) -> keeps (mbind m k) R.
Proof.
  intros Hm Hk st HI. unfold mbind. specialize (Hm st HI).
  destruct (m st) as [[a|e] st1]; [|exact Hm].
  destruct Hm as [HI1 HQ]. apply (Hk a HQ st1 HI1).
Qed.

Lemma keeps_weaken {A : Type} (m : M A) (Q R : A -> Prop) :
  keeps m Q -> (forall a, Q a -> R a) -> keeps m R.
Proof.
  intros Hm HQR st HI. specialize (Hm st HI).
  destruct (m st) as [[a|e] st1]; [|exact Hm].
  destruct Hm. auto.
Qed.

Lemma keeps_getObj_source :
  keeps (getObj r) (fun o => ptr (a_slice o) <> ptr (a_slice o')).
Proof.
  intros st HI. unfold getObj.
  destruct (objs st !! r) as [o|] eqn:Hr; [|exact HI].
  split; [exact HI|]. destruct HI as (_ & _ & H). auto.
Qed.

Lemma keeps_getObj (k : nat) : keeps (getObj k) (fun _ => True).
Proof.
  intros st HI. unfold getObj. destruct (objs st !! k); auto.
Qed.

Lemma keeps_writeCells (p i : nat) (vs : list hValue) :
  p <> ptr (a_slice o') -> keeps (writeCells p i vs) (fun _ => True).
Proof.
  intros Hp st (H1 & H2 & H3). unfold writeCells. simpl.
  repeat split; auto. simpl. rewrite list_lookup_insert_ne by auto. exact H2.
Qed.

Lemma keeps_alloc (cells : list hValue) (n : nat) :
  keeps (alloc cells n) (fun s => ptr s <> ptr (a_slice o')).
Proof.
  intros st (H1 & H2 & H3). unfold alloc. simpl.
  pose proof (lookup_lt_Some _ _ _ H2) as Hlt.
  repeat split; auto.
  - simpl. rewrite lookup_app_l by exact Hlt. exact H2.
  - lia.
Qed.

Lemma keeps_append (s : goslice) (vs : list hValue) :
  ptr s <> ptr (a_slice o') ->
  keeps (append growslice s vs) (fun s2 => ptr s2 <> ptr (a_slice o')).
Proof.
  intros Hp st HI. unfold append.
  destruct (slen s + length vs <=? cap st s)%nat.
  - apply (keeps_bind _ _ (fun _ => True)); auto.
    + apply keeps_writeCells. exact Hp.
    + intros _ _. apply keeps_ret. exact Hp.
  - apply keeps_alloc. exact HI.
Qed.

Lemma keeps_appendEach (vs : list hValue) :
  forall s : goslice,
    ptr s <> ptr (a_slice o') ->
    keeps (appendEach growslice s vs) (fun s2 => ptr s2 <> ptr (a_slice o')).
Proof.
  induction vs as [|e vs IH]; intros s Hp; simpl.
  - apply keeps_ret. exact Hp.
  - eapply keeps_bind; [apply keeps_append; exact Hp|].
    intros s2 Hp2. apply IH. exact Hp2.
Qed.

Lemma keeps_subslice (s : goslice) (i j : Z) :
  ptr s <> ptr (a_slice o') ->
  keeps (subslice s i j) (fun s2 => ptr s2 <> ptr (a_slice o')).
Proof.
  intros Hp st HI. unfold subslice.
  destruct ((i <? 0) || (j <? i) || (Z.of_nat (cap st s) <? j)); auto.
Qed.

Lemma keeps_readAt (s : goslice) (i : Z) : keeps (readAt s i) (fun _ => True).
Proof.
  intros st HI. unfold readAt. destruct (index (elems st s) i); auto.
Qed.

Lemma keeps_writeAt (s : goslice) (i : Z) (v : hValue) :
  ptr s <> ptr (a_slice o') -> keeps (writeAt s i v) (fun _ => True).
Proof.
  intros Hp st HI. unfold writeAt.
  destruct ((i <? 0) || (Z.of_nat (slen s) <=? i)); [exact HI|].
  apply keeps_writeCells; auto.
Qed.

Lemma keeps_setObj_source (o : arrayObj) :
  ptr (a_slice o) <> ptr (a_slice o') -> keeps (setObj r o) (fun _ => True).
Proof.
  intros Hp st (H1 & H2 & H3). unfold setObj. simpl.
  repeat split; auto; simpl.
  - rewrite list_lookup_insert_ne by auto. exact H1.
  - intros o0 Ho0. destruct (decide (r < length (objs st))%nat) as [Hlt|Hge].
    + rewrite list_lookup_insert_eq in Ho0 by exact Hlt. congruence.
    + rewrite list_insert_ge in Ho0 by lia.
      apply lookup_lt_Some in Ho0. lia.
Qed.

Lemma keeps_setSlice (s : goslice) :
  ptr s <> ptr (a_slice o') -> keeps (setSlice r s) (fun _ => True).
Proof.
  intros Hp. unfold setSlice.
  eapply keeps_bind; [apply (keeps_getObj r)|].
  intros v _. apply keeps_setObj_source. exact Hp.
Qed.

(** One step through a method body: the rule for its head. *)
Ltac keeps_head :=
  match goal with
  | |- keeps (mret _) _ => apply keeps_ret; auto
  | |- keeps (mpanic _) _ => apply keeps_panic
  | |- keeps (lift _) _ =>
      first [apply keeps_lift | eapply keeps_weaken; [apply keeps_lift | auto]]
  | |- keeps getStore _ =>
      first [apply keeps_getStore | eapply keeps_weaken; [apply keeps_getStore | auto]]
  | |- keeps (getObj r) _ => apply keeps_getObj_source
  | |- keeps (getObj _) _ =>
      first [apply keeps_getObj | eapply keeps_weaken; [apply keeps_getObj | auto]]
  | |- keeps (append _ _ _) _ =>
      first [apply keeps_append; assumption
            | eapply keeps_weaken; [apply keeps_append; assumption | auto]]
  | |- keeps (appendEach _ _ _) _ =>
      first [apply keeps_appendEach; assumption
            | eapply keeps_weaken; [apply keeps_appendEach; assumption | auto]]
  | |- keeps (subslice _ _ _) _ => apply keeps_subslice; assumption
  | |- keeps (readAt _ _) _ =>
      first [apply keeps_readAt | eapply keeps_weaken; [apply keeps_readAt | auto]]
  | |- keeps (writeAt _ _ _) _ =>
      first [apply keeps_writeAt; assumption
            | eapply keeps_weaken; [apply keeps_writeAt; assumption | auto]]
  | |- keeps (writeCells _ _ _) _ =>
      first [apply keeps_writeCells; assumption
            | eapply keeps_weaken; [apply keeps_writeCells; assumption | auto]]
  | |- keeps (setSlice r _) _ =>
      first [apply keeps_setSlice; assumption
            | eapply keeps_weaken; [apply keeps_setSlice; assumption | auto]]
  | |- keeps (setObj r _) _ =>
      first [apply keeps_setObj_source; assumption
            | eapply keeps_weaken; [apply keeps_setObj_source; assumption | auto]]
  | |- keeps (mbind (if ?b then _ else _) _) _ => destruct b
  | |- keeps (mbind (match ?x with _ => _ end) _) _ => destruct x
  | |- keeps (mbind (getObj r) _) _ =>
      eapply keeps_bind; [apply keeps_getObj_source | intros ? ?; cbv beta in *]
  | |- keeps (mbind (append _ _ _) _) _ =>
      eapply keeps_bind; [apply keeps_append; assumption | intros ? ?; cbv beta in *]
  | |- keeps (mbind (appendEach _ _ _) _) _ =>
      eapply keeps_bind; [apply keeps_appendEach; assumption | intros ? ?; cbv beta in *]
  | |- keeps (mbind (subslice _ _ _) _) _ =>
      eapply keeps_bind; [apply keeps_subslice; assumption | intros ? ?; cbv beta in *]
  | |- keeps (mbind _ _) _ =>
      eapply (keeps_bind _ _ (fun _ => True)); [ | intros ? _ ]
  | |- keeps (if ?b then _ else _) _ => destruct b
  | |- keeps (match ?x with _ => _ end) _ => destruct x
  | |- keeps (let '(_, _) := ?x in _) _ => destruct x
  end.

Ltac keeps_auto := repeat keeps_head.

Lemma keeps_assertTypes_each (et : Typ) (vs : list hValue) :
  keeps (assertTypes_each hInstance et vs) (fun _ => True).
Proof.
  induction vs as [|e vs IH]; simpl; keeps_auto. exact IH.
Qed.

Lemma keeps_assertType (e : hValue) (pos : Z) :
  keeps (assertType hInstance r e pos) (fun _ => True).
Proof. unfold assertType. keeps_auto. Qed.

Lemma keeps_assertTypes (values : list hValue) :
  keeps (assertTypes hInstance r values) (fun _ => True).
Proof.
  unfold assertTypes. keeps_auto. apply keeps_assertTypes_each.
Qed.

Lemma keeps_iterValues (values : Iterable) :
  keeps (iterValues values) (fun _ => True).
Proof. unfold iterValues. keeps_auto. Qed.

Lemma keeps_Add (val : hValue) :
  keeps (Add growslice hInstance r val) (fun _ => True).
Proof.
  unfold Add. keeps_auto. apply keeps_assertType.
Qed.

Lemma keeps_AddAll (values : Iterable) :
  keeps (AddAll growslice hInstance r values) (fun _ => True).
Proof.
  unfold AddAll. keeps_auto.
  - apply keeps_iterValues.
  - apply keeps_assertTypes.
Qed.

Lemma keeps_AddValues (values : list hValue) :
  keeps (AddValues growslice hInstance r values) (fun _ => True).
Proof.
  unfold AddValues. keeps_auto. apply keeps_assertTypes.
Qed.

Lemma keeps_Insert (pos : Z) (val : hValue) :
  keeps (Insert growslice hInstance r pos val) (fun _ => True).
Proof.
  unfold Insert. keeps_auto. apply keeps_assertType.
Qed.

Lemma keeps_removePos (pos : Z) :
  keeps (removePos r pos) (fun _ => True).
Proof.
  unfold removePos. keeps_auto.
Qed.

Lemma keeps_Remove (pos : Z) :
  keeps (Remove r pos) (fun _ => True).
Proof.
  unfold Remove. keeps_auto. apply keeps_removePos.
Qed.

Lemma keeps_IndexOf (val : hValue) :
  keeps (IndexOf hEquals r val) (fun _ => True).
Proof. unfold IndexOf. keeps_auto. Qed.

Lemma keeps_RemoveValue (value : hValue) :
  keeps (RemoveValue hEquals r value) (fun _ => True).
Proof.
  unfold RemoveValue. keeps_auto.
  - apply keeps_IndexOf.
  - apply keeps_removePos.
Qed.

Lemma keeps_Pop : keeps (Pop r) (fun _ => True).
Proof.
  unfold Pop. keeps_auto. apply keeps_removePos.
Qed.

Lemma keeps_Set (pos : Z) (val : hValue) :
  keeps (Set_ hInstance r pos val) (fun _ => True).
Proof.
  unfold Set_. keeps_auto. apply keeps_assertType.
Qed.

Lemma keeps_SetType (ti : typeArg) :
  keeps (SetType hInstance Parse r ti) (fun _ => True).
Proof.
  unfold SetType. keeps_auto.
Qed.

(** Every mutating method of the array at [r] keeps the array at [r']
    isolated. *)
Lemma keeps_mutate (m : mutation) :
  keeps (mutate growslice hInstance hEquals Parse m r) (fun _ => True).
Proof.
  destruct m; simpl.
  - apply keeps_Add.
  - apply keeps_AddAll.
  - apply keeps_AddValues.
  - apply keeps_Insert.
  - eapply keeps_bind; [apply keeps_Set | intros; apply keeps_ret; auto].
  - eapply keeps_bind; [apply keeps_Remove | intros; apply keeps_ret; auto].
  - eapply keeps_bind; [apply keeps_RemoveValue | intros; apply keeps_ret; auto].
  - eapply keeps_bind; [apply keeps_Pop | intros; apply keeps_ret; auto].
  - apply keeps_SetType.
Qed.

Lemma isolated_mutateAll (ms : list mutation) :
  forall st : store,
    isolated_here st ->
    isolated_here (mutateAll growslice hInstance hEquals Parse ms r st).
Proof.
  induction ms as [|m ms IH]; intros st HI; simpl; [exact HI|].
  apply IH. pose proof (keeps_mutate m st HI) as H.
  destruct (mutate growslice hInstance hEquals Parse m r st) as [[a|e] st1];
    simpl; tauto.
Qed.

Lemma isolated_contents (st : store) :
  isolated_here st ->
  contents st r' = take (slen (a_slice o')) (drop (off (a_slice o')) b').
Proof.
  intros (H1 & H2 & _). unfold contents, elems, backing.
  rewrite H1, H2. reflexivity.
Qed.

End Isolation.

Set Default Proof Using "Type".

(** ** Slices *)

Lemma elems_length (st : store) (s : goslice) :
  (length (elems st s) <= slen s)%nat.
Proof. unfold elems. rewrite length_take. lia. Qed.

Lemma elems_subslice (st : store) (s : goslice) (i n : nat) :
  (i + n <= slen s)%nat ->
  elems st (mk_goslice (ptr s) (off s + i) n) = take n (drop i (elems st s)).
Proof.
  intros Hle. unfold elems. simpl.
  rewrite skipn_firstn_comm, take_take, drop_drop.
  f_equal. lia.
Qed.

Lemma subslice_in_range (st : store) (s : goslice) (i j : Z) :
  wf_slice st s -> 0 <= i -> i <= j -> j <= Z.of_nat (slen s) ->
  subslice s i j st
  = (Ok (mk_goslice (ptr s) (off s + Z.to_nat i) (Z.to_nat (j - i))), st).
Proof.
  intros [_ Hwf] Hi Hij Hj. unfold subslice, cap.
  replace ((i <? 0) || (j <? i)
           || (Z.of_nat (length (backing st (ptr s)) - off s) <? j)) with false;
    [reflexivity|].
  symmetry. rewrite !orb_false_iff. repeat split; apply Z.ltb_ge; lia.
Qed.

(** [Slice] of an array that is not frozen: the elements are copied into
    a fresh backing array, behind a fresh array. *)
Lemma Slice_copies (r : nat) (v : arrayObj) (st : store) (i j : Z) :
  objs st !! r = Some v -> a_frozen v = false ->
  wf_slice st (a_slice v) -> 0 <= i -> i <= j -> j <= Z.of_nat (slen (a_slice v)) ->
  Slice r i j st
  = (Ok (length (objs st)),
     mk_store
       (objs st ++ [mk_arrayObj
                      (mk_goslice (length (mem st)) 0 (Z.to_nat (j - i))) None false])
       (mem st ++ [take (Z.to_nat (j - i)) (drop (Z.to_nat i) (elems st (a_slice v)))])).
Proof.
  intros Hobj Hfr Hwf Hi Hij Hj.
  unfold Slice, mbind at 1, getObj. rewrite Hobj. cbn beta iota.
  rewrite Hfr. cbn [andb negb].
  unfold mbind at 1. rewrite (subslice_in_range st _ i j Hwf Hi Hij Hj).
  unfold mbind, sliceCopy, alloc, newObj.
  rewrite elems_subslice by lia. reflexivity.
Qed.

(** [Slice] of a frozen array: the array itself for the full range, else a
    fresh frozen array over the same backing array. *)
Lemma Slice_shares (r : nat) (v : arrayObj) (st : store) (i j : Z) :
  objs st !! r = Some v -> a_frozen v = true ->
  wf_slice st (a_slice v) -> 0 <= i -> i <= j -> j <= Z.of_nat (slen (a_slice v)) ->
  Slice r i j st
  = if (i =? 0) && (j =? Z.of_nat (slen (a_slice v))) then (Ok r, st)
    else (Ok (length (objs st)),
          mk_store
            (objs st ++ [mk_arrayObj
                           (mk_goslice (ptr (a_slice v))
                              (off (a_slice v) + Z.to_nat i) (Z.to_nat (j - i)))
                           None true])
            (mem st)).
Proof.
  intros Hobj Hfr Hwf Hi Hij Hj.
  unfold Slice, mbind at 1, getObj. rewrite Hobj. cbn beta iota.
  rewrite Hfr. cbn [andb negb].
  destruct ((i =? 0) && (j =? Z.of_nat (slen (a_slice v)))); [reflexivity|].
  unfold mbind at 1. rewrite (subslice_in_range st _ i j Hwf Hi Hij Hj).
  reflexivity.
Qed.

Lemma contents_app_objs (st : store) (o : arrayObj) (k : nat) :
  (k < length (objs st))%nat ->
  contents (mk_store (objs st ++ [o]) (mem st)) k = contents st k.
Proof.
  intros Hk. unfold contents. simpl. rewrite lookup_app_l by exact Hk.
  reflexivity.
Qed.

Lemma elems_app_mem (st : store) (os : list arrayObj) (b : list hValue) (s : goslice) :
  (ptr s < length (mem st))%nat ->
  elems (mk_store os (mem st ++ [b])) s = elems st s.
Proof.
  intros Hp. unfold elems, backing. simpl. rewrite lookup_app_l by exact Hp.
  reflexivity.
Qed.

(** C8. For an array and indices [0 <= i <= j <= len], [Slice] returns an
    array that holds the elements at positions [i] to [j-1] and has the
    frozen flag of its source, and leaves the source as it was. The result
    of a frozen source has the backing array of the source. The result of
    a source that is not frozen is another array with a fresh backing
    array of its own, and no run of mutating calls on the source changes
    its contents. *)
Theorem Slice_shares_storage_only_when_frozen
    (r : nat) (v : arrayObj) (st : store) (i j : Z) :
  objs st !! r = Some v ->
  wf_slice st (a_slice v) ->
  0 <= i -> i <= j -> j <= Z.of_nat (slen (a_slice v)) ->
  exists (r' : nat) (v' : arrayObj) (st' : store),
    Slice r i j st = (Ok r', st')
    /\ objs st' !! r' = Some v'
    /\ contents st' r' = take (Z.to_nat (j - i)) (drop (Z.to_nat i) (contents st r))
    /\ a_frozen v' = a_frozen v
    /\ contents st' r = contents st r
    /\ (a_frozen v = true ->
        ptr (a_slice v') = ptr (a_slice v) /\ mem st' = mem st)
    /\ (a_frozen v = false ->
        r' <> r
        /\ ptr (a_slice v') <> ptr (a_slice v)
        /\ (length (mem st) <= ptr (a_slice v'))%nat
        /\ forall ms : list mutation,
             contents (mutateAll growslice hInstance hEquals Parse ms r st') r'
             = contents st' r').
Proof.
  intros Hobj Hwf Hi Hij Hj.
  pose proof (lookup_lt_Some _ _ _ Hobj) as Hr.
  assert (Hc : contents st r = elems st (a_slice v)).
  { unfold contents. rewrite Hobj. reflexivity. }
  destruct (a_frozen v) eqn:Hfr.
  - rewrite (Slice_shares r v st i j Hobj Hfr Hwf Hi Hij Hj).
    destruct ((i =? 0) && (j =? Z.of_nat (slen (a_slice v)))) eqn:Hfull.
    + apply andb_true_iff in Hfull as [H0 Hlen].
      apply Z.eqb_eq in H0. apply Z.eqb_eq in Hlen. subst i j.
      exists r, v, st. repeat split; auto; try discriminate.
      rewrite Hc. simpl. rewrite Z.sub_0_r, Nat2Z.id.
      rewrite take_ge by apply elems_length. reflexivity.
    + set (ss := mk_goslice (ptr (a_slice v))
                   (off (a_slice v) + Z.to_nat i) (Z.to_nat (j - i))).
      set (o := mk_arrayObj ss None true).
      set (st' := mk_store (objs st ++ [o]) (mem st)).
      assert (Ho : objs st' !! length (objs st) = Some o).
      { simpl. rewrite lookup_app_r by lia. rewrite Nat.sub_diag. reflexivity. }
      exists (length (objs st)), o, st'.
      split; [reflexivity|]. split; [exact Ho|]. split; [|split; [|split; [|split]]].
      * unfold contents at 1. rewrite Ho. rewrite Hc.
        change (elems st ss
                = take (Z.to_nat (j - i)) (drop (Z.to_nat i) (elems st (a_slice v)))).
        apply elems_subslice. lia.
      * reflexivity.
      * apply contents_app_objs. exact Hr.
      * intros _. split; reflexivity.
      * discriminate.
  - rewrite (Slice_copies r v st i j Hobj Hfr Hwf Hi Hij Hj).
    set (n := Z.to_nat (j - i)).
    set (b := take n (drop (Z.to_nat i) (elems st (a_slice v)))).
    set (o := mk_arrayObj (mk_goslice (length (mem st)) 0 n) None false).
    set (st' := mk_store (objs st ++ [o]) (mem st ++ [b])).
    assert (Ho : objs st' !! length (objs st) = Some o).
    { simpl. rewrite lookup_app_r by lia. rewrite Nat.sub_diag. reflexivity. }
    assert (Hb : mem st' !! length (mem st) = Some b).
    { simpl. rewrite lookup_app_r by lia. rewrite Nat.sub_diag. reflexivity. }
    assert (Hcr' : contents st' (length (objs st)) = b).
    { unfold contents. rewrite Ho. unfold elems, backing. simpl ptr.
      rewrite Hb. simpl. rewrite drop_0. rewrite take_ge; [reflexivity|].
      unfold b. rewrite length_take. lia. }
    destruct Hwf as [Hp Hlen].
    assert (Hiso : isolated r (length (objs st)) o b st').
    { repeat split; auto. intros o0 Ho0. simpl in Ho0.
      rewrite lookup_app_l in Ho0 by exact Hr.
      rewrite Hobj in Ho0. inversion Ho0. subst o0. simpl. lia. }
    exists (length (objs st)), o, st'. repeat split; auto; try discriminate.
    + rewrite Hcr', Hc. reflexivity.
    + unfold contents. simpl. rewrite lookup_app_l by exact Hr. rewrite Hobj.
      apply elems_app_mem. exact Hp.
    + lia.
    + simpl. lia.
    + intros ms.
      assert (Hne : r <> length (objs st)) by lia.
      pose proof (isolated_mutateAll r (length (objs st)) o b Hne ms st' Hiso) as Hiso'.
      transitivity (take (slen (a_slice o)) (drop (off (a_slice o)) b)).
      * eapply isolated_contents; eauto.
      * symmetry. eapply isolated_contents; eauto.
Qed.

End CollectionFacts.

(** [Freeze] on array [0] of the example store returns with three units of
    fuel, freezes both arrays, and a second call changes nothing. *)
Lemma Freeze_idempotent_recursive_witness :
  Freeze 3 0 example_store = Some example_frozen
  /\ Freeze 3 0 example_frozen = Some example_frozen
  /\ Frozen example_frozen 0 = true
  /\ (Frozen example_store 0 = false ->
      forall f : nat, HRef f ∈ contents example_store 0 -> Frozen example_frozen f = true).
Proof.
  split; [reflexivity|].
  pose proof (Freeze_idempotent_recursive 3 0 example_store example_frozen eq_refl)
    as (H1 & _ & H3 & H4 & _).
  split; [exact H1|]. split; [exact H3|exact H4].
Defined.

(** After [Freeze] on array [0] of the example store, [Add] of [5] panics
    with the frozen-array error and the store stays as it is. *)
Lemma frozen_array_rejects_mutation_witness :
  Freeze 3 0 example_store = Some example_frozen
  /\ Add (fun _ needed => 2 * needed)%nat (fun _ _ _ => Ok true) 0
       (HPrim (intVal 5)) example_frozen
     = (Panic (FrozenMutation "Add"), example_frozen).
Proof.
  split; [reflexivity|].
  apply (frozen_array_rejects_mutation
           (fun _ needed => 2 * needed)%nat (fun _ _ _ => Ok true)
           example_equals (fun _ => Ok (VPrim Nil))
           3 0 example_store example_frozen eq_refl).
Defined.

(** On array [0] of the example store, [Remove] at [-1] and at [3] and
    [RemoveValue] of [7] change nothing. *)
Lemma Remove_out_of_range_is_noop_witness :
  objs example_store !! 0%nat = Some (mk_arrayObj (mk_goslice 0 0 3) None false)
  /\ Remove 0 (-1) example_store = (Ok GoNil, example_store)
  /\ Remove 0 3 example_store = (Ok GoNil, example_store)
  /\ RemoveValue example_equals 0 (HPrim (intVal 7)) example_store
     = (Ok false, example_store).
Proof.
  split; [reflexivity|].
  pose proof (Remove_out_of_range_is_noop example_equals 0
                (mk_arrayObj (mk_goslice 0 0 3) None false) example_store
                eq_refl eq_refl) as [HR HV].
  split; [|split].
  - apply HR. left. lia.
  - apply HR. right. simpl. lia.
  - apply HV. repeat constructor.
Defined.

(** [Slice(1, 3)] of array [0] of the example store. *)
Lemma Slice_shares_storage_only_when_frozen_witness :
  objs example_store !! 0%nat = Some (mk_arrayObj (mk_goslice 0 0 3) None false)
  /\ wf_slice example_store (mk_goslice 0 0 3)
  /\ exists (r' : nat) (v' : arrayObj) (st' : store),
       Slice 0 1 3 example_store = (Ok r', st')
       /\ objs st' !! r' = Some v'
       /\ contents st' r' = [HRef 1; HPrim (intVal 3)]
       /\ a_frozen v' = false
       /\ forall ms : list mutation,
            contents (mutateAll (fun _ needed => 2 * needed)%nat (fun _ _ _ => Ok true)
                        example_equals (fun _ => Ok (VPrim Nil)) ms 0 st') r'
            = contents st' r'.
Proof.
  split; [reflexivity|].
  assert (Hwf : wf_slice example_store (mk_goslice 0 0 3)).
  { split; simpl; lia. }
  split; [exact Hwf|].
  destruct (Slice_shares_storage_only_when_frozen
              (fun _ needed => 2 * needed)%nat (fun _ _ _ => Ok true)
              example_equals (fun _ => Ok (VPrim Nil))
              0 (mk_arrayObj (mk_goslice 0 0 3) None false) example_store 1 3
              eq_refl Hwf ltac:(lia) ltac:(lia) ltac:(simpl; lia))
    as (r' & v' & st' & HS & Ho & Hc & Hf & _ & _ & Hcopy).
  exists r', v', st'. repeat split; auto.
  apply Hcopy. reflexivity.
Defined.

(** * Further properties *)

(** ** Array type construction *)

(** The shape of what [newArrayType] returns, with the clamping and the
    swap of the bounds written as [max] and [min]. *)
Lemma newArrayType_shape (elementType : option Typ) (lo hi : Z) :
  newArrayType elementType lo hi =
  if (Z.max 0 (Z.min lo hi) =? 0) && (Z.max 0 (Z.max lo hi) =? MaxInt64) &&
     match default DefaultAnyType elementType with DefaultAnyType => true | _ => false end
  then DefaultArrayType
  else sizedArrayType (default DefaultAnyType elementType)
         (Z.max 0 (Z.min lo hi)) (Z.max 0 (Z.max lo hi)).
Proof.
  unfold newArrayType.
  destruct (lo <? 0) eqn:H1; destruct (hi <? 0) eqn:H2;
    [ apply Z.ltb_lt in H1; apply Z.ltb_lt in H2
    | apply Z.ltb_lt in H1; apply Z.ltb_ge in H2
    | apply Z.ltb_ge in H1; apply Z.ltb_lt in H2
    | apply Z.ltb_ge in H1; apply Z.ltb_ge in H2 ].
  - replace (Z.max 0 (Z.min lo hi)) with 0 by lia.
    replace (Z.max 0 (Z.max lo hi)) with 0 by lia.
    destruct elementType; reflexivity.
  - destruct (hi <? 0) eqn:H3; [apply Z.ltb_lt in H3; lia|].
    replace (Z.max 0 (Z.min lo hi)) with 0 by lia.
    replace (Z.max 0 (Z.max lo hi)) with hi by lia.
    destruct elementType; reflexivity.
  - destruct (0 <? lo) eqn:H3;
      [apply Z.ltb_lt in H3 | apply Z.ltb_ge in H3].
    + replace (Z.max 0 (Z.min lo hi)) with 0 by lia.
      replace (Z.max 0 (Z.max lo hi)) with lo by lia.
      destruct elementType; reflexivity.
    + replace (Z.max 0 (Z.min lo hi)) with lo by lia.
      replace (Z.max 0 (Z.max lo hi)) with 0 by lia.
      destruct elementType; reflexivity.
  - destruct (hi <? lo) eqn:H3;
      [apply Z.ltb_lt in H3 | apply Z.ltb_ge in H3].
    + replace (Z.max 0 (Z.min lo hi)) with hi by lia.
      replace (Z.max 0 (Z.max lo hi)) with lo by lia.
      destruct elementType; reflexivity.
    + replace (Z.max 0 (Z.min lo hi)) with lo by lia.
      replace (Z.max 0 (Z.max lo hi)) with hi by lia.
      destruct elementType; reflexivity.
Qed.

(** X2. [newArrayType] normalises its bounds: whatever the arguments, the type
    it returns has the bounds [max 0 (min lo hi)] and [max 0 (max lo hi)],
    which satisfy [0 <= min <= max], and the given element type (Any for
    nil); the order of the two bounds does not matter; and the result is
    the unconstrained array type exactly when these are [0], [MaxInt64]
    and Any. *)
Theorem newArrayType_normalises (elementType : option Typ) (lo hi : Z) :
  Min (newArrayType elementType lo hi) = Ok (Z.max 0 (Z.min lo hi))
  /\ Max (newArrayType elementType lo hi) = Ok (Z.max 0 (Z.max lo hi))
  /\ ElementType (newArrayType elementType lo hi) = Ok (default DefaultAnyType elementType)
  /\ 0 <= Z.max 0 (Z.min lo hi) <= Z.max 0 (Z.max lo hi)
  /\ newArrayType elementType lo hi = newArrayType elementType hi lo
  /\ (newArrayType elementType lo hi = DefaultArrayType
      <-> Z.max 0 (Z.min lo hi) = 0 /\ Z.max 0 (Z.max lo hi) = MaxInt64
          /\ default DefaultAnyType elementType = DefaultAnyType).
Proof.
  assert (Hsym : newArrayType elementType lo hi = newArrayType elementType hi lo).
  { rewrite !newArrayType_shape, (Z.min_comm lo hi), (Z.max_comm lo hi).
    reflexivity. }
  rewrite <- Hsym. rewrite newArrayType_shape.
  set (e := default DefaultAnyType elementType) in *.
  set (m := Z.max 0 (Z.min lo hi)) in *.
  set (M := Z.max 0 (Z.max lo hi)) in *.
  assert (Hcond :
    ((m =? 0) && (M =? MaxInt64) &&
     match e with DefaultAnyType => true | _ => false end) = true
    <-> m = 0 /\ M = MaxInt64 /\ e = DefaultAnyType).
  { rewrite !andb_true_iff, !Z.eqb_eq.
    destruct e; intuition (try discriminate; auto). }
  destruct ((m =? 0) && (M =? MaxInt64) &&
            match e with DefaultAnyType => true | _ => false end) eqn:Hc.
  - destruct (proj1 Hcond eq_refl) as (Hm & HM & He).
    rewrite Hm, HM, He. simpl.
    repeat split; auto; try lia; try (subst m M; lia).
  - simpl. repeat split; auto; try (subst m M; lia); try discriminate.
    intros H. apply Hcond in H. discriminate.
Qed.

(** ** Bounds of tuples *)

Lemma wrap_small (z : Z) : - 2 ^ 63 <= z < 2 ^ 63 -> wrap z = z.
Proof.
  intros H. unfold wrap. rewrite Z.mod_small by lia. lia.
Qed.

Lemma len_app_one {A : Type} (l : list A) (x : A) : len (l ++ [x]) = len l + 1.
Proof. unfold len. rewrite length_app. simpl. lia. Qed.

Lemma Min_tupleType (ts : list Typ) (variadic : bool) :
  Min (tupleType ts variadic) =
  if variadic then
    vn <- match last ts with Some x => Min x | None => outOfRange end ;;
    Ok (wrap (len ts - 1 + vn))
  else Ok (len ts).
Proof.
  destruct variadic; [|reflexivity]. simpl. f_equal.
  induction ts as [|x ts IH]; [reflexivity|].
  destruct ts as [|y ts]; [reflexivity|]. rewrite IH. reflexivity.
Qed.

Lemma Max_tupleType (ts : list Typ) (variadic : bool) :
  Max (tupleType ts variadic) =
  if variadic then
    vn <- match last ts with Some x => Max x | None => outOfRange end ;;
    if vn <? MaxInt64 then Ok (wrap (len ts - 1 + vn)) else Ok vn
  else Ok (len ts).
Proof.
  destruct variadic; [|reflexivity]. simpl. f_equal.
  induction ts as [|x ts IH]; [reflexivity|].
  destruct ts as [|y ts]; [reflexivity|]. rewrite IH. reflexivity.
Qed.

(** X3. [tupleMin] and [tupleMax]. A tuple without a variadic tail has its
    number of types as both bounds. A variadic tuple over [fixed] and a
    tail with bounds [0 <= m <= M] has the bounds [len fixed + m] and
    [len fixed + M], or [MaxInt64] as its maximum when the tail has it, so
    its minimum never exceeds its maximum, as long as the two sums are
    within [int]. *)
Theorem tuple_bounds (fixed : list Typ) (tail : Typ) (m M : Z) :
  Min tail = Ok m ->
  Max tail = Ok M ->
  0 <= m <= M ->
  len fixed + m <= MaxInt64 ->
  M = MaxInt64 \/ len fixed + M <= MaxInt64 ->
  (forall ts : list Typ,
      Min (tupleType ts false) = Ok (len ts) /\ Max (tupleType ts false) = Ok (len ts))
  /\ Min (tupleType (fixed ++ [tail]) true) = Ok (len fixed + m)
  /\ Max (tupleType (fixed ++ [tail]) true)
     = Ok (if M <? MaxInt64 then len fixed + M else MaxInt64)
  /\ len fixed + m <= (if M <? MaxInt64 then len fixed + M else MaxInt64).
Proof.
  intros Hm HM Hle Hfitm Hfit.
  assert (Hlen : 0 <= len fixed) by (unfold len; lia).
  assert (Hmax : MaxInt64 = 2 ^ 63 - 1) by reflexivity.
  split; [intros ts; split; reflexivity|].
  rewrite Min_tupleType, Max_tupleType, last_snoc, Hm, HM, len_app_one. simpl.
  replace (len fixed + 1 - 1 + m) with (len fixed + m) by lia.
  replace (len fixed + 1 - 1 + M) with (len fixed + M) by lia.
  destruct (M <? MaxInt64) eqn:HltM;
    [apply Z.ltb_lt in HltM | apply Z.ltb_ge in HltM].
  - destruct Hfit as [Hfit|Hfit]; [lia|].
    rewrite !wrap_small by lia. repeat split. lia.
  - destruct Hfit as [Hfit|Hfit].
    + subst M. rewrite wrap_small by lia. repeat split. exact Hfitm.
    + assert (M = MaxInt64) by lia. subst M.
      rewrite wrap_small by lia. repeat split. lia.
Qed.

Lemma tuple_bounds_witness :
  Min (sizedArrayType DefaultAnyType 1 3) = Ok 1
  /\ Max (sizedArrayType DefaultAnyType 1 3) = Ok 3
  /\ Min (tupleType ([DefaultArrayType; DefaultTupleType] ++ [sizedArrayType DefaultAnyType 1 3]) true)
     = Ok 3
  /\ Max (tupleType ([DefaultArrayType; DefaultTupleType] ++ [sizedArrayType DefaultAnyType 1 3]) true)
     = Ok 5.
Proof.
  split; [reflexivity|]. split; [reflexivity|].
  pose proof (tuple_bounds [DefaultArrayType; DefaultTupleType]
                (sizedArrayType DefaultAnyType 1 3) 1 3 eq_refl eq_refl
                ltac:(lia) ltac:(unfold len, MaxInt64; simpl; lia)
                ltac:(right; unfold len, MaxInt64; simpl; lia))
    as (_ & Hmin & Hmax & _).
  split; [exact Hmin | exact Hmax].
Defined.

(** ** Indexing and pairing *)

Lemma index_Ok {A : Type} (s : list A) (i : Z) (x : A) :
  index s i = Ok x <-> 0 <= i /\ s !! Z.to_nat i = Some x.
Proof.
  unfold index, len. split.
  - destruct ((i <? 0) || (Z.of_nat (length s) <=? i)) eqn:Hb; [discriminate|].
    apply orb_false_iff in Hb as [H1 H2]. apply Z.ltb_ge in H1.
    destruct (s !! Z.to_nat i) as [y|]; [|discriminate].
    intros H. inversion H. auto.
  - intros [Hi Hx]. pose proof (lookup_lt_Some _ _ _ Hx) as Hlt.
    replace ((i <? 0) || (Z.of_nat (length s) <=? i)) with false.
    + rewrite Hx. reflexivity.
    + symmetry. apply orb_false_iff. split; [apply Z.ltb_ge | apply Z.leb_gt]; lia.
Qed.

(** Reading two slices at the positions below [k] and relating the values
    read is relating their first [k] elements pairwise. *)
Lemma indexed_Forall2 {A B : Type} (P : A -> B -> Prop) (l : list A) (s : list B) (k : nat) :
  (forall d : nat, (d < k)%nat ->
     exists (e : A) (v : B),
       index l (Z.of_nat d) = Ok e /\ index s (Z.of_nat d) = Ok v /\ P e v)
  <-> (k <= length l)%nat /\ (k <= length s)%nat /\ Forall2 P (take k l) (take k s).
Proof.
  split.
  - intros H.
    assert (Hl : (k <= length l)%nat /\ (k <= length s)%nat).
    { destruct k as [|k]; [lia|].
      destruct (H k ltac:(lia)) as (e & v & He & Hv & _).
      apply index_Ok in He as [_ He]. apply index_Ok in Hv as [_ Hv].
      rewrite Nat2Z.id in He, Hv.
      apply lookup_lt_Some in He. apply lookup_lt_Some in Hv. lia. }
    destruct Hl as [Hl Hs]. repeat split; auto.
    apply Forall2_same_length_lookup. split.
    + rewrite !length_take. lia.
    + intros i x y Hx Hy.
      apply lookup_take_Some in Hx as [Hx Hi].
      apply lookup_take_Some in Hy as [Hy _].
      destruct (H i Hi) as (e & v & He & Hv & HP).
      apply index_Ok in He as [_ He]. apply index_Ok in Hv as [_ Hv].
      rewrite Nat2Z.id in He, Hv. congruence.
  - intros (Hl & Hs & HF) d Hd.
    destruct (lookup_lt_is_Some_2 l d ltac:(lia)) as [e He].
    destruct (lookup_lt_is_Some_2 s d ltac:(lia)) as [v Hv].
    exists e, v. repeat split.
    + apply index_Ok. rewrite Nat2Z.id. split; [lia | exact He].
    + apply index_Ok. rewrite Nat2Z.id. split; [lia | exact Hv].
    + eapply Forall2_lookup_lr; [exact HF | |].
      * apply lookup_take_Some. eauto.
      * apply lookup_take_Some. eauto.
Qed.

(** Reading a slice at the [k] positions from [n] on is reading the first
    [k] elements of what is left of it after [n]. *)
Lemma indexed_Forall {B : Type} (Q : B -> Prop) (s : list B) (n k : nat) :
  (forall d : nat, (d < k)%nat ->
     exists v : B, index s (Z.of_nat n + Z.of_nat d) = Ok v /\ Q v)
  <-> (n + k <= length s \/ k = 0)%nat /\ Forall Q (take k (drop n s)).
Proof.
  split.
  - intros H.
    assert (Hl : (n + k <= length s \/ k = 0)%nat).
    { destruct k as [|k]; [lia|]. left.
      destruct (H k ltac:(lia)) as (v & Hv & _).
      apply index_Ok in Hv as [_ Hv].
      replace (Z.to_nat (Z.of_nat n + Z.of_nat k)) with (n + k)%nat in Hv by lia.
      apply lookup_lt_Some in Hv. lia. }
    split; [exact Hl|]. apply Forall_lookup. intros i x Hx.
    apply lookup_take_Some in Hx as [Hx Hi]. rewrite lookup_drop in Hx.
    destruct (H i Hi) as (v & Hv & HQ).
    apply index_Ok in Hv as [_ Hv].
    replace (Z.to_nat (Z.of_nat n + Z.of_nat i)) with (n + i)%nat in Hv by lia.
    congruence.
  - intros (Hl & HF) d Hd.
    destruct (lookup_lt_is_Some_2 s (n + d) ltac:(lia)) as [v Hv].
    exists v. split.
    + apply index_Ok. split; [lia|].
      replace (Z.to_nat (Z.of_nat n + Z.of_nat d)) with (n + d)%nat by lia.
      exact Hv.
    + eapply Forall_lookup_1; [exact HF|].
      apply lookup_take_Some. split; [|exact Hd]. rewrite lookup_drop. exact Hv.
Qed.

(** ** Instances of tuples *)

Section TupleFacts.

Variable Assignable : Typ -> Typ -> result bool.
Variable Instance : Typ -> Value -> result bool.

Set Default Proof Using "Type".

Lemma tupleInstance_fixed_true (t : TupleType) (s : list Value) (k : nat) :
  forall i : Z,
    tupleInstance_fixed Instance t s k i = Ok true
    <-> forall d : nat, (d < k)%nat ->
          exists (e : Typ) (v : Value),
            Element t (i + Z.of_nat d) = Ok e
            /\ index s (i + Z.of_nat d) = Ok v
            /\ Instance e v = Ok true.
Proof.
  clear Assignable.
  induction k as [|k IH]; intros i; simpl.
  - split; [intros _ d Hd; lia | reflexivity].
  - split.
    + intros H d Hd.
      apply rbind_Ok in H as (e & He & H).
      apply rbind_Ok in H as (v & Hv & H).
      apply rbind_Ok in H as (b & Hb & H).
      destruct b; [|discriminate]. simpl in H.
      destruct d as [|d].
      * rewrite Z.add_0_r. exists e, v. auto.
      * apply (proj1 (IH (i + 1))) with (d := d) in H; [|lia].
        replace (i + Z.of_nat (S d)) with (i + 1 + Z.of_nat d) by lia.
        exact H.
    + intros H.
      destruct (H 0%nat ltac:(lia)) as (e & v & He & Hv & Hb).
      rewrite Z.add_0_r in He, Hv.
      rewrite He, Hv. simpl. rewrite Hb. simpl.
      apply IH. intros d Hd.
      replace (i + 1 + Z.of_nat d) with (i + Z.of_nat (S d)) by lia.
      apply H. lia.
Qed.

Lemma tupleInstance_rest_true (vt : Typ) (s : list Value) (k : nat) :
  forall i : Z,
    tupleInstance_rest Instance vt s k i = Ok true
    <-> forall d : nat, (d < k)%nat ->
          exists v : Value,
            index s (i + Z.of_nat d) = Ok v /\ Instance vt v = Ok true.
Proof.
  clear Assignable.
  induction k as [|k IH]; intros i; simpl.
  - split; [intros _ d Hd; lia | reflexivity].
  - split.
    + intros H d Hd.
      apply rbind_Ok in H as (v & Hv & H).
      apply rbind_Ok in H as (b & Hb & H).
      destruct b; [|discriminate]. simpl in H.
      destruct d as [|d].
      * rewrite Z.add_0_r. exists v. auto.
      * apply (proj1 (IH (i + 1))) with (d := d) in H; [|lia].
        replace (i + Z.of_nat (S d)) with (i + 1 + Z.of_nat d) by lia.
        exact H.
    + intros H.
      destruct (H 0%nat ltac:(lia)) as (v & Hv & Hb).
      rewrite Z.add_0_r in Hv.
      rewrite Hv. simpl. rewrite Hb. simpl.
      apply IH. intros d Hd.
      replace (i + 1 + Z.of_nat d) with (i + Z.of_nat (S d)) by lia.
      apply H. lia.
Qed.

(** X4. The instances of a tuple without a variadic tail are the arrays that
    have as many elements as the tuple has types, each element an instance
    of the type at its position. Nothing else is an instance, and the type
    and the frozen flag of the array play no part. *)
Theorem tupleType_instance_positional (types : list Typ) (value : Value) :
  tupleType_DeepInstance Instance types false value = Ok true
  <-> exists ov : array,
        value = VArray ov
        /\ Forall2 (fun e v => Instance e v = Ok true) types (slice ov).
Proof.
  clear Assignable.
  unfold tupleType_DeepInstance, tupleInstance. cbn [Variadic Len].
  destruct value as [p|ov|tp].
  1, 3: split; [discriminate | intros (ov' & Hov & _); discriminate].
  set (s := slice ov).
  assert (Hpos : forall k : nat,
    tupleInstance_fixed Instance (TupleOf types false) s k 0 = Ok true
    <-> (k <= length types)%nat /\ (k <= length s)%nat
        /\ Forall2 (fun e v => Instance e v = Ok true) (take k types) (take k s)).
  { intros k. rewrite tupleInstance_fixed_true.
    rewrite <- (indexed_Forall2 (fun e v => Instance e v = Ok true) types s k).
    split; intros H d Hd; specialize (H d Hd); rewrite ?Z.add_0_l in *; exact H. }
  unfold len. split.
  - intros H. exists ov. split; [reflexivity|].
    destruct (Z.of_nat (length s) =? Z.of_nat (length types)) eqn:Hn; [|discriminate].
    apply Z.eqb_eq in Hn. rewrite Nat2Z.id in H.
    apply Hpos in H as (_ & _ & H).
    rewrite firstn_all in H.
    replace (length s) with (length types) in H by lia.
    rewrite firstn_all in H. exact H.
  - intros (ov' & Hov & HF). inversion Hov. subst ov'. fold s in HF.
    pose proof (Forall2_length _ _ _ HF) as Hlen.
    replace (Z.of_nat (length s) =? Z.of_nat (length types)) with true
      by (symmetry; apply Z.eqb_eq; lia).
    rewrite Nat2Z.id. apply Hpos. repeat split; [lia | lia |].
    rewrite firstn_all. rewrite <- Hlen at 1. rewrite firstn_all. exact HF.
Qed.

(** X5. The instances of a variadic tuple [fixed ++ [tail]] are the arrays
    whose length lies within the bounds of the tuple, whose first elements
    are instances of the fixed types position by position, and whose
    remaining elements are all instances of the element type of the
    tail. *)
Theorem tupleType_instance_variadic (fixed : list Typ) (tail : Typ) (value : Value) :
  tupleType_DeepInstance Instance (fixed ++ [tail]) true value = Ok true
  <-> exists (ov : array) (tmin tmax : Z) (vt : Typ),
        value = VArray ov
        /\ Min (tupleType (fixed ++ [tail]) true) = Ok tmin
        /\ Max (tupleType (fixed ++ [tail]) true) = Ok tmax
        /\ tmin <= len (slice ov) <= tmax
        /\ ElementType tail = Ok vt
        /\ Forall2 (fun e v => Instance e v = Ok true)
             fixed (take (length fixed) (slice ov))
        /\ Forall (fun v => Instance vt v = Ok true)
             (drop (length fixed) (slice ov)).
Proof.
  clear Assignable.
  unfold tupleType_DeepInstance, tupleInstance. cbn [Variadic Len TupleType_Typ].
  destruct value as [p|ov|tp].
  1, 3: split; [discriminate | intros (ov' & ? & ? & ? & Hov & _); discriminate].
  set (s := slice ov). set (t := TupleOf (fixed ++ [tail]) true).
  assert (Hlen : len (fixed ++ [tail]) - 1 = Z.of_nat (length fixed)).
  { unfold len. rewrite length_app. simpl. lia. }
  assert (Htail : Element t (len (fixed ++ [tail]) - 1) = Ok tail).
  { rewrite Hlen. unfold t, Element. apply index_Ok. split; [lia|].
    rewrite Nat2Z.id. rewrite lookup_app_r by lia.
    rewrite Nat.sub_diag. reflexivity. }
  assert (Hfixed :
    tupleInstance_fixed Instance t s (Z.to_nat (len (fixed ++ [tail]) - 1)) 0 = Ok true
    <-> (length fixed <= length s)%nat
        /\ Forall2 (fun e v => Instance e v = Ok true) fixed (take (length fixed) s)).
  { rewrite Hlen, Nat2Z.id. rewrite tupleInstance_fixed_true.
    transitivity
      (forall d : nat, (d < length fixed)%nat ->
         exists (e : Typ) (v : Value),
           index fixed (Z.of_nat d) = Ok e /\ index s (Z.of_nat d) = Ok v
           /\ Instance e v = Ok true).
    - split; intros H d Hd; destruct (H d Hd) as (e & v & He & Hv & Hi);
        exists e, v; rewrite ?Z.add_0_l in *; repeat split; auto.
      + unfold t, Element in He. apply index_Ok in He as [H0 He].
        apply index_Ok. split; [exact H0|].
        rewrite Nat2Z.id in *. rewrite lookup_app_l in He by lia. exact He.
      + unfold t, Element. apply index_Ok in He as [H0 He].
        apply index_Ok. split; [exact H0|].
        rewrite Nat2Z.id in *. rewrite lookup_app_l by lia. exact He.
    - rewrite (indexed_Forall2 (fun e v => Instance e v = Ok true) fixed s).
      rewrite firstn_all. intuition lia. }
  assert (Hrest : forall vt : Typ,
    (length fixed <= length s)%nat ->
    tupleInstance_rest Instance vt s
      (Z.to_nat (len s - (len (fixed ++ [tail]) - 1))) (len (fixed ++ [tail]) - 1) = Ok true
    <-> Forall (fun v => Instance vt v = Ok true) (drop (length fixed) s)).
  { intros vt Hle. rewrite Hlen. rewrite tupleInstance_rest_true.
    rewrite (indexed_Forall (fun v => Instance vt v = Ok true) s (length fixed)).
    unfold len. replace (Z.to_nat (Z.of_nat (length s) - Z.of_nat (length fixed)))
      with (length s - length fixed)%nat by lia.
    rewrite <- (length_drop s (length fixed)). rewrite firstn_all.
    rewrite length_drop. intuition lia. }
  split.
  - intros H.
    apply rbind_Ok in H as (b & Hb & H).
    destruct b; [|discriminate].
    apply rand_true in Hb as [Hmin Hmax].
    apply rbind_Ok in Hmin as (tmin & Hmin & Hlo).
    apply rbind_Ok in Hmax as (tmax & Hmax & Hhi).
    injection Hlo as Hlo'. injection Hhi as Hhi'.
    apply Z.leb_le in Hlo', Hhi'.
    apply rbind_Ok in H as (b & Hb & H).
    destruct b; [|discriminate]. cbn [negb] in H.
    apply Hfixed in Hb as [Hle HF].
    apply rbind_Ok in H as (e & He & H).
    fold t in He. rewrite Htail in He. inversion He. subst e.
    apply rbind_Ok in H as (vt & Hvt & H).
    apply Hrest in H; [|exact Hle].
    exists ov, tmin, tmax, vt. fold s. repeat split; auto.
  - intros (ov' & tmin & tmax & vt & Hov & Hmin & Hmax & [Hlo Hhi] & Hvt & HF & HR).
    inversion Hov. subst ov'. fold s in Hlo, Hhi, HF, HR.
    assert (Hle : (length fixed <= length s)%nat).
    { apply Forall2_length in HF. rewrite length_take in HF. lia. }
    rewrite Hmin, Hmax. unfold rand. cbn [rbind].
    replace (tmin <=? len s) with true by (symmetry; apply Z.leb_le; exact Hlo).
    replace (len s <=? tmax) with true by (symmetry; apply Z.leb_le; exact Hhi).
    cbn [rbind]. fold t. rewrite (proj2 Hfixed) by auto. cbn [rbind negb].
    rewrite Htail. cbn [rbind]. rewrite Hvt. cbn [rbind].
    apply Hrest; auto.
Qed.

Lemma tupleAssignableArray_loop_true (t : TupleType) (et : Typ) (k : nat) :
  forall i : Z,
    tupleAssignableArray_loop Assignable t et k i = Ok true
    <-> forall d : nat, (d < k)%nat ->
          exists e : Typ,
            Element t (i + Z.of_nat d) = Ok e /\ Assignable e et = Ok true.
Proof.
  clear Instance.
  induction k as [|k IH]; intros i; simpl.
  - split; [intros _ d Hd; lia | reflexivity].
  - split.
    + intros H d Hd.
      apply rbind_Ok in H as (e & He & H).
      apply rbind_Ok in H as (b & Hb & H).
      destruct b; [|discriminate]. simpl in H.
      destruct d as [|d].
      * rewrite Z.add_0_r. exists e. auto.
      * apply (proj1 (IH (i + 1))) with (d := d) in H; [|lia].
        replace (i + Z.of_nat (S d)) with (i + 1 + Z.of_nat d) by lia.
        exact H.
    + intros H.
      destruct (H 0%nat ltac:(lia)) as (e & He & Hb).
      rewrite Z.add_0_r in He.
      rewrite He. simpl. rewrite Hb. simpl.
      apply IH. intros d Hd.
      replace (i + 1 + Z.of_nat d) with (i + Z.of_nat (S d)) by lia.
      apply H. lia.
Qed.

(** The loop of [tupleAssignableArray] over the first [k] types of a
    tuple accepts exactly when there are [k] such types and each of them
    is assignable from the element type. *)
Lemma tupleAssignableArray_loop_Forall (types : list Typ) (variadic : bool) (et : Typ) (k : nat) :
  (k <= length types)%nat ->
  tupleAssignableArray_loop Assignable (TupleOf types variadic) et k 0 = Ok true
  <-> Forall (fun e => Assignable e et = Ok true) (take k types).
Proof.
  clear Instance.
  intros Hk. rewrite tupleAssignableArray_loop_true.
  pose proof (indexed_Forall (fun e => Assignable e et = Ok true) types 0 k) as HF.
  rewrite drop_0 in HF. cbn [Element].
  split.
  - intros H. apply HF. intros d Hd. destruct (H d Hd) as (e & He & Ha).
    exists e. auto.
  - intros H d Hd. apply (proj2 HF); [|exact Hd]. split; [lia | exact H].
Qed.

(** X6. When a tuple is assignable from a sized array type. The bounds of the
    array type must lie within those of the tuple, and every type of the
    tuple must be assignable from the element type of the array type: each
    type of a tuple without a tail, each fixed type and the element type of
    the tail of a variadic tuple. *)
Theorem tupleType_assignable_sized
    (CheckAssignableTo : Typ -> Typ -> result bool)
    (types fixed : list Typ) (tail oe : Typ) (omin omax : Z) :
  (tupleType_DeepAssignable Assignable Instance CheckAssignableTo
     types false (sizedArrayType oe omin omax) = Ok true
   <-> len types <= omin /\ omax <= len types
       /\ Forall (fun e => Assignable e oe = Ok true) types)
  /\ (tupleType_DeepAssignable Assignable Instance CheckAssignableTo
        (fixed ++ [tail]) true (sizedArrayType oe omin omax) = Ok true
      <-> exists (tmin tmax : Z) (vt : Typ),
            Min (tupleType (fixed ++ [tail]) true) = Ok tmin
            /\ Max (tupleType (fixed ++ [tail]) true) = Ok tmax
            /\ tmin <= omin /\ omax <= tmax
            /\ ElementType tail = Ok vt
            /\ Forall (fun e => Assignable e oe = Ok true) fixed
            /\ Assignable vt oe = Ok true).
Proof.
  unfold tupleType_DeepAssignable, tupleAssignable, tupleAssignableArray.
  cbn [Variadic Len TupleType_Typ]. split.
  - cbn [Min Max negb]. unfold rand. cbn [rbind].
    pose proof (tupleAssignableArray_loop_Forall types false oe (length types)
                  ltac:(lia)) as HF.
    rewrite firstn_all in HF. unfold len at 3. rewrite Nat2Z.id.
    destruct (len types <=? omin) eqn:Hlo; cbn [rbind].
    2: { apply Z.leb_gt in Hlo. split; [discriminate | lia]. }
    destruct (omax <=? len types) eqn:Hhi; cbn [rbind].
    2: { apply Z.leb_gt in Hhi. split; [discriminate | lia]. }
    apply Z.leb_le in Hlo, Hhi. split.
    + intros H. apply rbind_Ok in H as (b & Hb & H).
      destruct b; [|discriminate].
      repeat split; auto. apply HF. exact Hb.
    + intros (_ & _ & H). apply HF in H. rewrite H. reflexivity.
  - assert (Hlen : len (fixed ++ [tail]) - 1 = Z.of_nat (length fixed)).
    { unfold len. rewrite length_app. simpl. lia. }
    assert (Htail : Element (TupleOf (fixed ++ [tail]) true) (len (fixed ++ [tail]) - 1)
                    = Ok tail).
    { rewrite Hlen. unfold Element. apply index_Ok. split; [lia|].
      rewrite Nat2Z.id. rewrite lookup_app_r by lia.
      rewrite Nat.sub_diag. reflexivity. }
    pose proof (tupleAssignableArray_loop_Forall (fixed ++ [tail]) true oe (length fixed)
                  ltac:(rewrite length_app; lia)) as HF.
    rewrite take_app_length in HF.
    rewrite <- (Nat2Z.id (length fixed)) in HF at 1. rewrite <- Hlen in HF.
    split.
    + intros H. apply rbind_Ok in H as (b & Hb & H).
      destruct b; [|discriminate].
      apply rand_true in Hb as [Hmin Hmax].
      apply rbind_Ok in Hmin as (tmin & Hmin & Hlo).
      apply rbind_Ok in Hmax as (tmax & Hmax & Hhi).
      injection Hlo as Hlo'. injection Hhi as Hhi'.
      apply Z.leb_le in Hlo', Hhi'.
      apply rbind_Ok in H as (b & Hb & H).
      destruct b; [|discriminate]. cbn [negb] in H.
      apply HF in Hb.
      apply rbind_Ok in H as (e & He & H).
      rewrite Htail in He. injection He as <-.
      apply rbind_Ok in H as (vt & Hvt & H).
      exists tmin, tmax, vt. repeat split; auto.
    + intros (tmin & tmax & vt & Hmin & Hmax & Hlo & Hhi & Hvt & Hfix & Hvar).
      rewrite Hmin, Hmax. unfold rand. cbn [rbind].
      replace (tmin <=? omin) with true by (symmetry; apply Z.leb_le; exact Hlo).
      replace (omax <=? tmax) with true by (symmetry; apply Z.leb_le; exact Hhi).
      cbn [rbind]. rewrite (proj2 HF) by exact Hfix. cbn [rbind negb].
      rewrite Htail. cbn [rbind]. rewrite Hvt. cbn [rbind]. exact Hvar.
Qed.

End TupleFacts.

(** ** The store under [append] *)

Lemma elems_wf_length (st : store) (s : goslice) :
  wf_slice st s -> length (elems st s) = slen s.
Proof.
  intros [_ H]. unfold elems. rewrite length_take, length_drop. lia.
Qed.

Lemma backing_insert (os : list arrayObj) (m : list (list hValue))
    (p q : nat) (b : list hValue) :
  backing (mk_store os (<[p := b]> m)) q
  = if decide (p = q) then (if decide (p < length m)%nat then b else []) else default [] (m !! q).
Proof.
  unfold backing. simpl. destruct (decide (p = q)) as [->|Hne].
  - destruct (decide (q < length m)%nat) as [Hlt|Hge].
    + rewrite list_lookup_insert_eq by exact Hlt. reflexivity.
    + rewrite list_insert_ge by lia.
      rewrite lookup_ge_None_2 by lia. reflexivity.
  - rewrite list_lookup_insert_ne by exact Hne. reflexivity.
Qed.

Lemma write_range_length (b : list hValue) (i : nat) (vs : list hValue) :
  (i + length vs <= length b)%nat -> length (write_range b i vs) = length b.
Proof.
  intros H. unfold write_range.
  rewrite !length_app, length_take, length_drop. lia.
Qed.

Lemma write_range_take (b : list hValue) (i : nat) (vs : list hValue) (n : nat) :
  (n <= i)%nat -> (i <= length b)%nat -> take n (write_range b i vs) = take n b.
Proof.
  intros Hn Hi. unfold write_range.
  rewrite take_app_le by (rewrite length_take; lia).
  rewrite take_take. f_equal. lia.
Qed.

Lemma write_range_window (b : list hValue) (o n : nat) (vs : list hValue) :
  (o + n + length vs <= length b)%nat ->
  take (n + length vs) (drop o (write_range b (o + n) vs))
  = take n (drop o b) ++ vs.
Proof.
  intros H. unfold write_range.
  rewrite drop_app_le by (rewrite length_take; lia).
  rewrite skipn_firstn_comm.
  replace (o + n - o)%nat with n by lia.
  rewrite take_app_ge by (rewrite length_take, length_drop; lia).
  rewrite length_take, length_drop.
  replace (n `min` (length b - o))%nat with n by lia.
  replace (n + length vs - n)%nat with (length vs) by lia.
  rewrite take_app_le by lia. rewrite firstn_all. reflexivity.
Qed.

Section StoreFacts.

Variable growslice : nat -> nat -> nat.
Variable hInstance : Typ -> store -> hValue -> result bool.
Variable hEquals : store -> hValue -> hValue -> bool.
Variable Parse : string -> result Value.

Set Default Proof Using "Type".

(** [append] never panics. From a slice that lies within its backing array
    it returns a slice that holds the old elements followed by the new
    ones. The arrays of the store stay as they are, and so does every cell
    of the store other than those of the backing array of the slice from
    the end of the slice on. *)
Lemma append_spec (s : goslice) (vs : list hValue) (st : store) :
  wf_slice st s ->
  exists (s' : goslice) (st' : store),
    append growslice s vs st = (Ok s', st')
    /\ objs st' = objs st
    /\ wf_slice st' s'
    /\ slen s' = (slen s + length vs)%nat
    /\ elems st' s' = elems st s ++ vs
    /\ (length (mem st) <= length (mem st'))%nat
    /\ (forall q : nat, q <> ptr s -> (q < length (mem st))%nat ->
          backing st' q = backing st q)
    /\ length (backing st' (ptr s)) = length (backing st (ptr s))
    /\ take (off s + slen s) (backing st' (ptr s))
       = take (off s + slen s) (backing st (ptr s))
    /\ (ptr s' = ptr s /\ off s' = off s /\ (slen s + length vs <= cap st s)%nat
        /\ backing st' (ptr s)
           = write_range (backing st (ptr s)) (off s + slen s) vs
        \/ ptr s' = length (mem st) /\ (cap st s < slen s + length vs)%nat).
Proof.
  clear hInstance hEquals Parse.
  intros [Hp Hlen]. unfold append.
  destruct (slen s + length vs <=? cap st s)%nat eqn:Hfit.
  - apply Nat.leb_le in Hfit. unfold cap in Hfit.
    unfold mbind, writeCells, mret.
    eexists _, _. split; [reflexivity|].
    split; [reflexivity|].
    assert (Hb : backing
                   (mk_store (objs st)
                      (<[ptr s := write_range (backing st (ptr s)) (off s + slen s) vs]>
                         (mem st))) (ptr s)
                 = write_range (backing st (ptr s)) (off s + slen s) vs).
    { rewrite backing_insert. rewrite decide_True by reflexivity.
      rewrite decide_True by exact Hp. reflexivity. }
    repeat split.
    + simpl. rewrite length_insert. exact Hp.
    + cbn [ptr off slen]. rewrite Hb. rewrite write_range_length by lia. lia.
    + unfold elems at 1. cbn [ptr off slen]. rewrite Hb.
      rewrite write_range_window by lia. reflexivity.
    + simpl. rewrite length_insert. lia.
    + intros q Hq _. rewrite backing_insert.
      rewrite decide_False by congruence. reflexivity.
    + rewrite Hb. apply write_range_length. lia.
    + rewrite Hb. apply write_range_take; lia.
    + left. repeat split; [unfold cap; lia | exact Hb].
  - apply Nat.leb_gt in Hfit. unfold alloc.
    eexists _, _. split; [reflexivity|].
    split; [reflexivity|].
    set (c := Nat.max (slen s + length vs) (growslice (cap st s) (slen s + length vs))).
    assert (Hb : backing
                   (mk_store (objs st)
                      (mem st ++ [elems st s ++ vs
                                  ++ replicate (c - (slen s + length vs)) GoNil]))
                   (length (mem st))
                 = elems st s ++ vs ++ replicate (c - (slen s + length vs)) GoNil).
    { unfold backing. simpl. rewrite lookup_app_r by lia.
      rewrite Nat.sub_diag. reflexivity. }
    assert (Hold : forall q, (q < length (mem st))%nat ->
              backing
                (mk_store (objs st)
                   (mem st ++ [elems st s ++ vs
                               ++ replicate (c - (slen s + length vs)) GoNil])) q
              = backing st q).
    { intros q Hq. unfold backing. simpl. rewrite lookup_app_l by exact Hq.
      reflexivity. }
    pose proof (elems_wf_length st s (conj Hp Hlen)) as He.
    repeat split.
    + simpl. rewrite length_app. simpl. lia.
    + cbn [ptr off slen]. rewrite Hb. rewrite !length_app, He. lia.
    + unfold elems at 1. cbn [ptr off slen]. rewrite Hb, drop_0.
      rewrite app_assoc. rewrite take_app_le by (rewrite length_app, He; lia).
      rewrite take_ge by (rewrite length_app, He; lia). reflexivity.
    + simpl. rewrite length_app. lia.
    + intros q _ Hq. apply Hold. exact Hq.
    + rewrite Hold by exact Hp. reflexivity.
    + rewrite Hold by exact Hp. reflexivity.
    + right. split; [reflexivity | exact Hfit].
Qed.

(** ** Running a call *)

Lemma mbind_run {A B : Type} (m : M A) (k : A -> M B) (st st1 : store) (a : A) :
  m st = (Ok a, st1) -> mbind m k st = k a st1.
Proof. intros H. unfold mbind. rewrite H. reflexivity. Qed.

Lemma mbind_panic {A B : Type} (m : M A) (k : A -> M B) (st st1 : store) (e : panic) :
  m st = (Panic e, st1) -> mbind m k st = (Panic e, st1).
Proof. intros H. unfold mbind. rewrite H. reflexivity. Qed.

Lemma getObj_run (r : nat) (v : arrayObj) (st : store) :
  objs st !! r = Some v -> getObj r st = (Ok v, st).
Proof. intros H. unfold getObj. rewrite H. reflexivity. Qed.

Lemma reads_only_run {A : Type} (m : M A) (st : store) :
  reads_only m -> m st = ((m st).1, st).
Proof. intros H. rewrite <- (H st) at 3. destruct (m st); reflexivity. Qed.

Lemma reads_only_bind {A B : Type} (m : M A) (k : A -> M B) :
  reads_only m -> (forall a, reads_only (k a)) -> reads_only (mbind m k).
Proof.
  intros Hm Hk st. unfold mbind. rewrite (reads_only_run m st Hm).
  destruct (m st).1 as [a|e]; [apply Hk | reflexivity].
Qed.

Lemma reads_only_ret {A : Type} (a : A) : reads_only (mret a).
Proof. intros st. reflexivity. Qed.

Lemma reads_only_panic {A : Type} (e : panic) : reads_only (@mpanic A e).
Proof. intros st. reflexivity. Qed.

Lemma reads_only_lift {A : Type} (x : result A) : reads_only (lift x).
Proof. intros st. reflexivity. Qed.

Lemma reads_only_getStore : reads_only getStore.
Proof. intros st. reflexivity. Qed.

Lemma reads_only_getObj (r : nat) : reads_only (getObj r).
Proof. intros st. unfold getObj. destruct (objs st !! r); reflexivity. Qed.

Lemma reads_only_readAt (s : goslice) (i : Z) : reads_only (readAt s i).
Proof. intros st. reflexivity. Qed.

Lemma reads_only_subslice (s : goslice) (i j : Z) : reads_only (subslice s i j).
Proof. intros st. unfold subslice. destruct (_ || _); reflexivity. Qed.

Ltac reads_only_auto :=
  repeat first
    [ apply reads_only_ret | apply reads_only_panic | apply reads_only_lift
    | apply reads_only_getStore | apply reads_only_getObj
    | apply reads_only_readAt | apply reads_only_subslice
    | apply reads_only_bind; [|intros ?]
    | match goal with
      | |- reads_only (if ?c then _ else _) => destruct c
      | |- reads_only (match ?x with _ => _ end) => destruct x
      end ].

Lemma reads_only_assertType (r : nat) (e : hValue) (pos : Z) :
  reads_only (assertType hInstance r e pos).
Proof. unfold assertType. reads_only_auto. Qed.

Lemma reads_only_assertTypes_each (et : Typ) (vs : list hValue) :
  reads_only (assertTypes_each hInstance et vs).
Proof. induction vs as [|e vs IH]; simpl; reads_only_auto. exact IH. Qed.

Lemma reads_only_assertTypes (r : nat) (vs : list hValue) :
  reads_only (assertTypes hInstance r vs).
Proof.
  unfold assertTypes. reads_only_auto. apply reads_only_assertTypes_each.
Qed.

Lemma reads_only_iterValues (values : Iterable) : reads_only (iterValues values).
Proof. unfold iterValues. reads_only_auto. Qed.

Lemma reads_only_IndexOf (r : nat) (val : hValue) : reads_only (IndexOf hEquals r val).
Proof. unfold IndexOf. reads_only_auto. Qed.

(** ** What a call leaves alone *)

(** What a slice holds depends only on the cells of its backing array
    below its end. *)
Lemma elems_take_eq (st st' : store) (s : goslice) (n : nat) :
  take n (backing st' (ptr s)) = take n (backing st (ptr s)) ->
  (off s + slen s <= n)%nat -> elems st' s = elems st s.
Proof.
  intros H Hn. unfold elems.
  assert (Hw : forall b : list hValue,
            take (slen s) (drop (off s) b)
            = drop (off s) (take (off s + slen s) (take n b))).
  { intros b. rewrite take_take.
    replace ((off s + slen s) `min` n)%nat with (off s + slen s)%nat by lia.
    rewrite skipn_firstn_comm. f_equal. lia. }
  rewrite (Hw (backing st' (ptr s))), (Hw (backing st (ptr s))), H. reflexivity.
Qed.

Lemma elems_backing_eq (st st' : store) (s : goslice) :
  backing st' (ptr s) = backing st (ptr s) -> elems st' s = elems st s.
Proof. intros H. unfold elems. rewrite H. reflexivity. Qed.

(** An array keeps its elements through a call that leaves it in place,
    leaves the backing arrays other than [p] as they are, and leaves the
    first [n] cells of [p] as they are, when it has another backing array
    than [p] or ends within these [n] cells. *)
Lemma contents_frame (st st' : store) (r' : nat) (o' : arrayObj) (p n : nat) :
  objs st !! r' = Some o' -> objs st' !! r' = Some o' ->
  (forall q : nat, q <> p -> (q < length (mem st))%nat -> backing st' q = backing st q) ->
  take n (backing st' p) = take n (backing st p) ->
  (ptr (a_slice o') < length (mem st))%nat ->
  ptr (a_slice o') <> p \/
  (ptr (a_slice o') = p /\ off (a_slice o') + slen (a_slice o') <= n)%nat ->
  contents st' r' = contents st r'.
Proof.
  intros Ho Ho' Hother Htake Hp Hcase. unfold contents. rewrite Ho, Ho'.
  destruct Hcase as [Hne | [Heq Hend]].
  - apply elems_backing_eq. apply Hother; assumption.
  - apply elems_take_eq with (n := n); [|exact Hend]. rewrite Heq. exact Htake.
Qed.

Lemma setSlice_run (r : nat) (v : arrayObj) (s : goslice) (st : store) :
  objs st !! r = Some v ->
  setSlice r s st
  = (Ok tt, mk_store (<[r := mk_arrayObj s (a_typ v) (a_frozen v)]> (objs st)) (mem st)).
Proof.
  intros H. unfold setSlice. rewrite (mbind_run _ _ _ _ _ (getObj_run r v st H)).
  reflexivity.
Qed.

(** ** Add *)

(** A run of [Add] on an array that is not frozen and whose type accepts
    the value. *)
Lemma Add_run (r : nat) (v : arrayObj) (val : hValue) (st : store) :
  objs st !! r = Some v -> a_frozen v = false -> wf_slice st (a_slice v) ->
  (assertType hInstance r val (Z.of_nat (slen (a_slice v))) st).1 = Ok tt ->
  exists (s' : goslice) (st' : store),
    Add growslice hInstance r val st = (Ok tt, st')
    /\ objs st' = <[r := mk_arrayObj s' (a_typ v) false]> (objs st)
    /\ wf_slice st' s'
    /\ slen s' = S (slen (a_slice v))
    /\ elems st' s' = elems st (a_slice v) ++ [val]
    /\ (length (mem st) <= length (mem st'))%nat
    /\ (forall q : nat, q <> ptr (a_slice v) -> (q < length (mem st))%nat ->
          backing st' q = backing st q)
    /\ take (off (a_slice v) + slen (a_slice v)) (backing st' (ptr (a_slice v)))
       = take (off (a_slice v) + slen (a_slice v)) (backing st (ptr (a_slice v))).
Proof.
  clear hEquals Parse.
  intros Hobj Hfr Hwf Hty.
  destruct (append_spec (a_slice v) [val] st Hwf)
    as (s' & st1 & Happ & Hobjs & Hwf' & Hlen & Hel & Hmem & Hother & _ & Htake & _).
  exists s', (mk_store (<[r := mk_arrayObj s' (a_typ v) false]> (objs st1)) (mem st1)).
  split.
  - unfold Add. rewrite (mbind_run _ _ _ _ _ (getObj_run r v st Hobj)).
    rewrite Hfr.
    rewrite (mbind_run _ _ st st tt).
    2: { rewrite (reads_only_run _ st (reads_only_assertType r val _)).
         rewrite Hty. reflexivity. }
    rewrite (mbind_run _ _ _ _ _ Happ).
    rewrite (setSlice_run r v s' st1) by (rewrite Hobjs; exact Hobj).
    rewrite Hfr. reflexivity.
  - simpl. rewrite Hobjs. repeat split; auto; try apply Hwf'.
    simpl in Hlen. lia.
Qed.

(** X7. [Add] on an array that is not frozen and whose type accepts the value
    returns, and afterwards the array holds its old elements followed by
    the value, with its type and frozen flag as before. Every other array
    is still there, and keeps its elements when its backing array is
    another one or when it ends no later than the array did: [Add] writes
    no cell below the old end of the array. *)
Theorem Add_appends (r : nat) (v : arrayObj) (val : hValue) (st : store) :
  objs st !! r = Some v -> a_frozen v = false -> wf_slice st (a_slice v) ->
  (assertType hInstance r val (Z.of_nat (slen (a_slice v))) st).1 = Ok tt ->
  exists (v' : arrayObj) (st' : store),
    Add growslice hInstance r val st = (Ok tt, st')
    /\ objs st' !! r = Some v'
    /\ a_typ v' = a_typ v /\ a_frozen v' = false /\ wf_slice st' (a_slice v')
    /\ contents st' r = contents st r ++ [val]
    /\ length (objs st') = length (objs st)
    /\ forall (r' : nat) (o' : arrayObj),
         r' <> r -> objs st !! r' = Some o' ->
         objs st' !! r' = Some o'
         /\ ((ptr (a_slice o') < length (mem st))%nat ->
             ptr (a_slice o') <> ptr (a_slice v) \/
             (ptr (a_slice o') = ptr (a_slice v) /\
              off (a_slice o') + slen (a_slice o') <= off (a_slice v) + slen (a_slice v))%nat ->
             contents st' r' = contents st r').
Proof.
  intros Hobj Hfr Hwf Hty.
  destruct (Add_run r v val st Hobj Hfr Hwf Hty)
    as (s' & st' & Hrun & Hobjs & Hwf' & Hlen & Hel & Hmem & Hother & Htake).
  pose proof (lookup_lt_Some _ _ _ Hobj) as Hr.
  assert (Hv' : objs st' !! r = Some (mk_arrayObj s' (a_typ v) false)).
  { rewrite Hobjs. apply list_lookup_insert_eq. exact Hr. }
  exists (mk_arrayObj s' (a_typ v) false), st'.
  repeat split; auto; try apply Hwf'.
  - unfold contents. rewrite Hv', Hobj. exact Hel.
  - rewrite Hobjs. apply length_insert.
  - rewrite Hobjs. rewrite list_lookup_insert_ne by congruence. assumption.
  - intros Hp Hcase.
    eapply contents_frame; eauto.
    rewrite Hobjs. rewrite list_lookup_insert_ne by congruence. assumption.
Qed.

(** ** Remove and Pop *)

Lemma window_take (b : list hValue) (o n : nat) :
  take n (drop o b) = drop o (take (o + n) b).
Proof. rewrite skipn_firstn_comm. f_equal. lia. Qed.

Lemma write_range_drop (b : list hValue) (i : nat) (vs : list hValue) (n : nat) :
  (i + length vs <= n)%nat -> (n <= length b)%nat ->
  drop n (write_range b i vs) = drop n b.
Proof.
  intros Hn Hb. unfold write_range.
  rewrite drop_app_ge by (rewrite length_take; lia).
  rewrite length_take. replace (i `min` length b)%nat with i by lia.
  rewrite drop_app_ge by lia.
  rewrite drop_drop. f_equal. lia.
Qed.

Lemma write_range_one (b : list hValue) (i : nat) (x : hValue) :
  (i < length b)%nat -> write_range b i [x] = <[i := x]> b.
Proof.
  intros Hi. unfold write_range. simpl.
  rewrite insert_take_drop by exact Hi. repeat f_equal. lia.
Qed.

Lemma writeAt_run (s : goslice) (i : Z) (x : hValue) (st : store) :
  0 <= i < Z.of_nat (slen s) ->
  writeAt s i x st
  = (Ok tt,
     mk_store (objs st)
       (<[ptr s := write_range (backing st (ptr s)) (off s + Z.to_nat i) [x]]> (mem st))).
Proof.
  intros Hi. unfold writeAt.
  replace ((i <? 0) || (Z.of_nat (slen s) <=? i)) with false; [reflexivity|].
  symmetry. apply orb_false_iff. split; [apply Z.ltb_ge | apply Z.leb_gt]; lia.
Qed.

(** A run of [removePos] at a position of the array, when the type of the
    array allows one element less. *)
Lemma removePos_run (r : nat) (v : arrayObj) (pos : Z) (st : store) :
  objs st !! r = Some v -> wf_slice st (a_slice v) ->
  0 <= pos < Z.of_nat (slen (a_slice v)) ->
  match a_typ v with
  | Some t => exists mn : Z, Min t = Ok mn /\ mn <= Z.of_nat (slen (a_slice v)) - 1
  | None => True
  end ->
  exists (x : hValue) (st' : store),
    removePos r pos st = (Ok x, st')
    /\ elems st (a_slice v) !! Z.to_nat pos = Some x
    /\ objs st'
       = <[r := mk_arrayObj
                  (mk_goslice (ptr (a_slice v)) (off (a_slice v)) (slen (a_slice v) - 1))
                  (a_typ v) (a_frozen v)]> (objs st)
    /\ elems st' (mk_goslice (ptr (a_slice v)) (off (a_slice v)) (slen (a_slice v) - 1))
       = delete (Z.to_nat pos) (elems st (a_slice v))
    /\ length (mem st') = length (mem st)
    /\ (forall q : nat, q <> ptr (a_slice v) -> backing st' q = backing st q)
    /\ length (backing st' (ptr (a_slice v))) = length (backing st (ptr (a_slice v)))
    /\ take (off (a_slice v) + Z.to_nat pos) (backing st' (ptr (a_slice v)))
       = take (off (a_slice v) + Z.to_nat pos) (backing st (ptr (a_slice v)))
    /\ drop (off (a_slice v) + slen (a_slice v)) (backing st' (ptr (a_slice v)))
       = drop (off (a_slice v) + slen (a_slice v)) (backing st (ptr (a_slice v)))
    /\ backing st' (ptr (a_slice v)) !! (off (a_slice v) + slen (a_slice v) - 1)%nat
       = Some GoNil.
Proof.
  clear growslice hInstance hEquals Parse.
  intros Hobj Hwf Hpos Hmin.
  pose proof (elems_wf_length st _ Hwf) as Hlen.
  destruct Hwf as [Hp Hb].
  destruct v as [[p o n] t f]. cbn [a_slice a_typ a_frozen ptr off slen] in *.
  set (k := Z.to_nat pos).
  set (old := elems st (mk_goslice p o n)) in *.
  set (b := backing st p) in *.
  destruct (lookup_lt_is_Some_2 old k ltac:(lia)) as [x Hx].
  set (b1 := write_range b (o + k) (drop (k + 1) old)).
  set (b2 := write_range b1 (o + Z.to_nat (Z.of_nat n - 1)) [GoNil]).
  assert (Hdl : length (drop (k + 1) old) = (n - k - 1)%nat).
  { rewrite length_drop. lia. }
  assert (Hb1 : length b1 = length b).
  { unfold b1. apply write_range_length. lia. }
  assert (Hb2 : length b2 = length b).
  { unfold b2. rewrite write_range_length; [exact Hb1|]. simpl. lia. }
  exists x, (mk_store
               (<[r := mk_arrayObj (mk_goslice p o (n - 1)) t f]> (objs st))
               (<[p := b2]> (<[p := b1]> (mem st)))).
  assert (Hback : forall os q,
            backing (mk_store os (<[p := b2]> (<[p := b1]> (mem st)))) q
            = if decide (p = q) then b2 else backing st q).
  { intros os q. rewrite backing_insert. rewrite length_insert.
    destruct (decide (p = q)) as [->|Hne].
    - rewrite decide_True by exact Hp. reflexivity.
    - unfold backing. rewrite list_lookup_insert_ne by exact Hne. reflexivity. }
  split.
  - unfold removePos. rewrite (mbind_run _ _ _ _ _ (getObj_run r _ st Hobj)).
    cbn [a_slice a_typ a_frozen ptr off slen].
    replace ((pos >=? 0) && (pos <? Z.of_nat n)) with true.
    2: { symmetry. apply andb_true_iff. split; [apply Z.geb_le | apply Z.ltb_lt]; lia. }
    rewrite (mbind_run _ _ st st tt).
    2: { destruct t as [t|]; [|reflexivity].
         destruct Hmin as (mn & Hmn & Hle).
         unfold mbind, lift. rewrite Hmn.
         replace (mn >? Z.of_nat n - 1) with false; [reflexivity|].
         symmetry. rewrite Z.gtb_ltb. apply Z.ltb_ge. exact Hle. }
    rewrite (mbind_run _ _ st st x).
    2: { unfold readAt. fold old. f_equal. apply index_Ok. split; [lia | exact Hx]. }
    rewrite (mbind_run _ _ st st st) by reflexivity.
    fold old. fold k.
    rewrite (mbind_run _ _ st (mk_store (objs st) (<[p := b1]> (mem st))) tt)
      by reflexivity.
    rewrite (mbind_run _ _ _ (mk_store (objs st) (<[p := b2]> (<[p := b1]> (mem st)))) tt).
    2: { rewrite writeAt_run by (cbn [slen]; lia).
         cbn [ptr off objs mem]. f_equal. f_equal. f_equal.
         unfold b2. f_equal. rewrite backing_insert.
         rewrite decide_True by reflexivity. rewrite decide_True by exact Hp.
         reflexivity. }
    rewrite (mbind_run _ _ _ _ tt
               (setSlice_run r _ _ (mk_store (objs st) (<[p := b2]> (<[p := b1]> (mem st))))
                  Hobj)).
    cbn [a_typ a_frozen]. unfold mret. f_equal. f_equal. f_equal. f_equal. f_equal. lia.
  - split; [exact Hx|]. split; [reflexivity|].
    assert (Hk2 : (o + Z.to_nat (Z.of_nat n - 1) = o + n - 1)%nat) by lia.
    split; [|split; [|split; [|split; [|split; [|split]]]]].
    + unfold elems at 1. cbn [ptr off slen]. rewrite Hback.
      rewrite decide_True by reflexivity.
      unfold b2. rewrite delete_take_drop.
      transitivity (take (n - 1) (drop o b1)).
      * rewrite !window_take. f_equal.
        rewrite write_range_take; [reflexivity | lia | lia].
      * unfold b1.
        replace (n - 1)%nat with (k + length (drop (k + 1) old))%nat by lia.
        rewrite write_range_window by lia.
        unfold old, elems. cbn [ptr off slen]. fold b.
        rewrite take_take. replace (k `min` n)%nat with k by lia.
        f_equal. f_equal. lia.
    + simpl. rewrite !length_insert. reflexivity.
    + intros q Hq. rewrite Hback. rewrite decide_False by congruence. reflexivity.
    + rewrite Hback. rewrite decide_True by reflexivity. exact Hb2.
    + rewrite Hback. rewrite decide_True by reflexivity.
      unfold b2. rewrite write_range_take by lia.
      unfold b1. apply write_range_take; lia.
    + rewrite Hback. rewrite decide_True by reflexivity.
      unfold b2. rewrite write_range_drop by (simpl; lia).
      unfold b1. apply write_range_drop; lia.
    + rewrite Hback. rewrite decide_True by reflexivity.
      unfold b2. rewrite Hk2. rewrite write_range_one by lia.
      apply list_lookup_insert_eq. lia.
Qed.

(** X8. [Remove] at a position of an array that is not frozen, when the type
    of the array allows one element less: the call returns the element at
    the position, and afterwards the array holds its other elements in
    their order, with its type and frozen flag as before, and the cell it
    gave up holds nil. The call allocates nothing. Every other array is
    still there, and keeps its elements when its backing array is another
    one or when it ends at or before the position. *)
Theorem Remove_removes (r : nat) (v : arrayObj) (pos : Z) (st : store) :
  objs st !! r = Some v -> a_frozen v = false -> wf_slice st (a_slice v) ->
  0 <= pos < Z.of_nat (slen (a_slice v)) ->
  match a_typ v with
  | Some t => exists mn : Z, Min t = Ok mn /\ mn <= Z.of_nat (slen (a_slice v)) - 1
  | None => True
  end ->
  exists (x : hValue) (v' : arrayObj) (st' : store),
    Remove r pos st = (Ok x, st')
    /\ contents st r !! Z.to_nat pos = Some x
    /\ contents st' r = delete (Z.to_nat pos) (contents st r)
    /\ objs st' !! r = Some v'
    /\ a_typ v' = a_typ v /\ a_frozen v' = false /\ wf_slice st' (a_slice v')
    /\ backing st' (ptr (a_slice v)) !! (off (a_slice v) + slen (a_slice v) - 1)%nat
       = Some GoNil
    /\ length (objs st') = length (objs st) /\ length (mem st') = length (mem st)
    /\ forall (r' : nat) (o' : arrayObj),
         r' <> r -> objs st !! r' = Some o' ->
         objs st' !! r' = Some o'
         /\ (ptr (a_slice o') <> ptr (a_slice v) \/
             (ptr (a_slice o') = ptr (a_slice v) /\
              off (a_slice o') + slen (a_slice o') <= off (a_slice v) + Z.to_nat pos)%nat ->
             contents st' r' = contents st r').
Proof.
  clear growslice hInstance hEquals Parse.
  intros Hobj Hfr Hwf Hpos Hmin.
  destruct (removePos_run r v pos st Hobj Hwf Hpos Hmin)
    as (x & st' & Hrun & Hx & Hobjs & Hel & Hmem & Hother & Hblen & Htake & _ & Hnil).
  pose proof (lookup_lt_Some _ _ _ Hobj) as Hr.
  set (s' := mk_goslice (ptr (a_slice v)) (off (a_slice v)) (slen (a_slice v) - 1)) in *.
  assert (Hv' : objs st' !! r = Some (mk_arrayObj s' (a_typ v) (a_frozen v))).
  { rewrite Hobjs. apply list_lookup_insert_eq. exact Hr. }
  exists x, (mk_arrayObj s' (a_typ v) (a_frozen v)), st'.
  assert (Hc : contents st r = elems st (a_slice v)).
  { unfold contents. rewrite Hobj. reflexivity. }
  split.
  { unfold Remove. rewrite (mbind_run _ _ _ _ _ (getObj_run r v st Hobj)).
    rewrite Hfr. exact Hrun. }
  rewrite Hc. repeat split; auto.
  - unfold contents. rewrite Hv'. exact Hel.
  - unfold wf_slice. cbn [a_slice ptr s']. rewrite Hmem. apply Hwf.
  - unfold wf_slice. cbn [a_slice ptr off slen s']. rewrite Hblen.
    destruct Hwf as [_ Hb]. lia.
  - rewrite Hobjs. apply length_insert.
  - rewrite Hobjs. rewrite list_lookup_insert_ne by congruence. assumption.
  - intros Hcase. unfold contents.
    rewrite Hobjs. rewrite list_lookup_insert_ne by congruence.
    match goal with H : objs st !! r' = Some o' |- _ => rewrite H end.
    destruct Hcase as [Hne | [Heq Hend]].
    + apply elems_backing_eq. apply Hother. exact Hne.
    + eapply elems_take_eq; [|exact Hend]. rewrite Heq. exact Htake.
Qed.

(** X9. [Add] and then [Pop]: on an array that is not frozen, whose type accepts
    the value and allows the length the array has, [Pop] after [Add]
    returns the value that was added, and the array holds what it held
    before the two calls. *)
Theorem Add_then_Pop (r : nat) (v : arrayObj) (val : hValue) (st : store) :
  objs st !! r = Some v -> a_frozen v = false -> wf_slice st (a_slice v) ->
  (assertType hInstance r val (Z.of_nat (slen (a_slice v))) st).1 = Ok tt ->
  match a_typ v with
  | Some t => exists mn : Z, Min t = Ok mn /\ mn <= Z.of_nat (slen (a_slice v))
  | None => True
  end ->
  exists st1 st2 : store,
    Add growslice hInstance r val st = (Ok tt, st1)
    /\ Pop r st1 = (Ok (val, true), st2)
    /\ contents st2 r = contents st r
    /\ Frozen st2 r = false
    /\ (exists v2 : arrayObj, objs st2 !! r = Some v2 /\ a_typ v2 = a_typ v).
Proof.
  clear hEquals Parse.
  intros Hobj Hfr Hwf Hty Hmin.
  destruct (Add_run r v val st Hobj Hfr Hwf Hty)
    as (s1 & st1 & Hadd & Hobjs1 & Hwf1 & Hlen1 & Hel1 & _).
  pose proof (lookup_lt_Some _ _ _ Hobj) as Hr.
  pose proof (elems_wf_length st _ Hwf) as Hlen.
  assert (Hv1 : objs st1 !! r = Some (mk_arrayObj s1 (a_typ v) false)).
  { rewrite Hobjs1. apply list_lookup_insert_eq. exact Hr. }
  destruct (removePos_run r _ (Z.of_nat (slen (a_slice v))) st1 Hv1 Hwf1)
    as (x & st2 & Hrem & Hx & Hobjs2 & Hel2 & _).
  { cbn [a_slice]. lia. }
  { cbn [a_typ a_slice]. destruct (a_typ v) as [t|]; [|exact I].
    destruct Hmin as (mn & Hmn & Hle). exists mn. split; [exact Hmn | lia]. }
  cbn [a_slice a_typ a_frozen] in *.
  rewrite Nat2Z.id in *. rewrite Hel1 in Hx, Hel2.
  rewrite lookup_app_r in Hx by lia. rewrite Hlen, Nat.sub_diag in Hx.
  injection Hx as <-.
  assert (Hv2 : objs st2 !! r
                = Some (mk_arrayObj (mk_goslice (ptr s1) (off s1) (slen s1 - 1))
                          (a_typ v) false)).
  { rewrite Hobjs2. apply list_lookup_insert_eq.
    rewrite Hobjs1, length_insert. exact Hr. }
  exists st1, st2. split; [exact Hadd|]. split; [|split; [|split]].
  - unfold Pop. rewrite (mbind_run _ _ _ _ _ (getObj_run r _ st1 Hv1)).
    cbn [a_frozen a_slice].
    replace (Z.of_nat (slen s1) - 1) with (Z.of_nat (slen (a_slice v))) by lia.
    replace (Z.of_nat (slen (a_slice v)) >=? 0) with true
      by (symmetry; apply Z.geb_le; lia).
    rewrite (mbind_run _ _ _ _ _ Hrem). reflexivity.
  - unfold contents. rewrite Hv2, Hobj. cbn [a_slice]. rewrite Hel2.
    rewrite delete_take_drop.
    rewrite take_app_le by lia. rewrite take_ge by lia.
    rewrite drop_ge by (rewrite length_app; simpl; lia).
    apply app_nil_r.
  - unfold Frozen. rewrite Hv2. reflexivity.
  - eexists. split; [exact Hv2 | reflexivity].
Qed.

(** ** IndexOf and RemoveValue *)

Lemma IndexOf_loop_first (st : store) (val x : hValue) (l1 l2 : list hValue) :
  forall i : Z,
    Forall (fun e => hEquals st val e = false) l1 ->
    hEquals st val x = true ->
    IndexOf_loop hEquals st val (l1 ++ x :: l2) i = i + Z.of_nat (length l1).
Proof.
  clear growslice hInstance Parse.
  induction l1 as [|e l1 IH]; intros i Hall Hx; simpl.
  - rewrite Hx. lia.
  - inversion Hall as [|? ? He Hl]. subst. rewrite He. rewrite IH by assumption. lia.
Qed.

Lemma IndexOf_loop_cases (st : store) (val : hValue) (a : list hValue) :
  forall i : Z,
    (IndexOf_loop hEquals st val a i = -1
     /\ Forall (fun e => hEquals st val e = false) a)
    \/ exists (x : hValue) (k : nat),
         IndexOf_loop hEquals st val a i = i + Z.of_nat k
         /\ a !! k = Some x /\ hEquals st val x = true
         /\ Forall (fun e => hEquals st val e = false) (take k a).
Proof.
  clear growslice hInstance Parse.
  induction a as [|e a IH]; intros i; simpl.
  - left. split; [reflexivity | constructor].
  - destruct (hEquals st val e) eqn:He.
    + right. exists e, 0%nat. repeat split; auto. lia.
    + destruct (IH (i + 1)) as [[Hm Hall] | (x & k & Hi & Hx & Heq & Hbefore)].
      * left. split; [exact Hm | constructor; assumption].
      * right. exists x, (S k). repeat split; auto; [lia|].
        simpl. constructor; assumption.
Qed.

(** X10. [IndexOf] returns the position of the first element the value equals,
    and [-1] when it equals none; it never panics on an array and leaves
    the store as it is. So a result that is not [-1] is a position of the
    array, the value equals the element there and equals no element
    before it. *)
Theorem IndexOf_first (r : nat) (v : arrayObj) (val : hValue) (st : store) :
  objs st !! r = Some v ->
  exists i : Z,
    IndexOf hEquals r val st = (Ok i, st)
    /\ (i = -1 /\ Forall (fun e => hEquals st val e = false) (contents st r)
        \/ exists x : hValue,
             0 <= i /\ contents st r !! Z.to_nat i = Some x
             /\ hEquals st val x = true
             /\ Forall (fun e => hEquals st val e = false)
                  (take (Z.to_nat i) (contents st r))).
Proof.
  clear growslice hInstance Parse.
  intros Hobj. unfold IndexOf.
  rewrite (mbind_run _ _ _ _ _ (getObj_run r v st Hobj)).
  unfold mbind, getStore, mret. eexists. split; [reflexivity|].
  unfold contents. rewrite Hobj.
  destruct (IndexOf_loop_cases st val (elems st (a_slice v)) 0)
    as [[Hm Hall] | (x & k & Hi & Hx & Heq & Hbefore)].
  - left. split; assumption.
  - right. exists x. rewrite Hi, Z.add_0_l, Nat2Z.id. repeat split; auto. lia.
Qed.

(** X11. [RemoveValue] of a value that equals an element of the array removes
    the first such element and no other: when the array holds [l1], then
    [x], then [l2], and the value equals [x] and no element of [l1], the
    call returns true and the array holds [l1] followed by [l2]. *)
Theorem RemoveValue_removes_first
    (r : nat) (v : arrayObj) (value x : hValue) (l1 l2 : list hValue) (st : store) :
  objs st !! r = Some v -> a_frozen v = false -> wf_slice st (a_slice v) ->
  contents st r = l1 ++ x :: l2 ->
  Forall (fun e => hEquals st value e = false) l1 ->
  hEquals st value x = true ->
  isGoNil x = false ->
  match a_typ v with
  | Some t => exists mn : Z, Min t = Ok mn /\ mn <= Z.of_nat (slen (a_slice v)) - 1
  | None => True
  end ->
  exists st' : store,
    RemoveValue hEquals r value st = (Ok true, st')
    /\ contents st' r = l1 ++ l2
    /\ length (objs st') = length (objs st).
Proof.
  clear growslice hInstance Parse.
  intros Hobj Hfr Hwf Hc Hl1 Hx Hnil Hmin.
  pose proof (elems_wf_length st _ Hwf) as Hlen.
  assert (Hc' : elems st (a_slice v) = l1 ++ x :: l2).
  { rewrite <- Hc. unfold contents. rewrite Hobj. reflexivity. }
  assert (Hll : (length l1 < slen (a_slice v))%nat).
  { rewrite <- Hlen, Hc', length_app. simpl. lia. }
  destruct (removePos_run r v (Z.of_nat (length l1)) st Hobj Hwf ltac:(lia) Hmin)
    as (y & st' & Hrun & Hy & Hobjs & Hel & _).
  rewrite Nat2Z.id in *. rewrite Hc' in Hy, Hel.
  rewrite list_lookup_middle in Hy by reflexivity. injection Hy as <-.
  exists st'. split; [|split].
  - unfold RemoveValue. rewrite (mbind_run _ _ _ _ _ (getObj_run r v st Hobj)).
    rewrite Hfr.
    rewrite (mbind_run _ _ st st (Z.of_nat (length l1))).
    2: { unfold IndexOf. rewrite (mbind_run _ _ _ _ _ (getObj_run r v st Hobj)).
         unfold mbind, getStore, mret. rewrite Hc'.
         rewrite IndexOf_loop_first by assumption. reflexivity. }
    rewrite (mbind_run _ _ _ _ _ Hrun). unfold mret. rewrite Hnil. reflexivity.
  - unfold contents. rewrite Hobjs.
    rewrite list_lookup_insert_eq by (eapply lookup_lt_Some; exact Hobj).
    cbn [a_slice]. rewrite Hel. rewrite delete_middle. reflexivity.
  - rewrite Hobjs. apply length_insert.
Qed.

(** ** Insert *)

(** A run of [Insert] at a position from [0] to the length of an array
    that is not frozen and whose type accepts the value there. *)
Lemma Insert_run (r : nat) (v : arrayObj) (pos : Z) (val : hValue) (st : store) :
  objs st !! r = Some v -> a_frozen v = false -> wf_slice st (a_slice v) ->
  0 <= pos <= Z.of_nat (slen (a_slice v)) ->
  (assertType hInstance r val pos st).1 = Ok tt ->
  exists (s' : goslice) (st' : store),
    Insert growslice hInstance r pos val st = (Ok tt, st')
    /\ objs st' = <[r := mk_arrayObj s' (a_typ v) false]> (objs st)
    /\ wf_slice st' s'
    /\ elems st' s'
       = take (Z.to_nat pos) (elems st (a_slice v))
         ++ val :: drop (Z.to_nat pos) (elems st (a_slice v))
    /\ (length (mem st) <= length (mem st'))%nat
    /\ (forall q : nat, q <> ptr (a_slice v) -> (q < length (mem st))%nat ->
          backing st' q = backing st q)
    /\ take (off (a_slice v) + Z.to_nat pos) (backing st' (ptr (a_slice v)))
       = take (off (a_slice v) + Z.to_nat pos) (backing st (ptr (a_slice v))).
Proof.
  clear hEquals Parse.
  intros Hobj Hfr Hwf Hpos Hty.
  pose proof (elems_wf_length st _ Hwf) as Hlen.
  set (s := a_slice v) in *.
  set (head := mk_goslice (ptr s) (off s + Z.to_nat 0) (Z.to_nat (pos - 0))).
  set (tail := mk_goslice (ptr s) (off s + Z.to_nat pos)
                 (Z.to_nat (Z.of_nat (slen s) - pos))).
  assert (Hwfh : wf_slice st head).
  { destruct Hwf as [Hp Hb]. split; [exact Hp|]. cbn [head ptr off slen]. lia. }
  assert (Hhead : elems st head = take (Z.to_nat pos) (elems st s)).
  { unfold head. rewrite elems_subslice by lia. rewrite drop_0.
    f_equal. lia. }
  assert (Htail : elems st tail = drop (Z.to_nat pos) (elems st s)).
  { unfold tail. rewrite elems_subslice by lia.
    apply take_ge. rewrite length_drop. lia. }
  destruct (append_spec head (val :: elems st tail) st Hwfh)
    as (s' & st1 & Happ & Hobjs & Hwf' & _ & Hel & Hmem & Hother & _ & Htake & _).
  exists s', (mk_store (<[r := mk_arrayObj s' (a_typ v) false]> (objs st1)) (mem st1)).
  split.
  - unfold Insert. rewrite (mbind_run _ _ _ _ _ (getObj_run r v st Hobj)).
    rewrite Hfr.
    rewrite (mbind_run _ _ st st tt).
    2: { rewrite (reads_only_run _ st (reads_only_assertType r val _)).
         rewrite Hty. reflexivity. }
    fold s.
    rewrite (mbind_run _ _ _ _ _ (subslice_in_range st s 0 pos Hwf
                                    ltac:(lia) ltac:(lia) ltac:(lia))).
    rewrite (mbind_run _ _ _ _ _ (subslice_in_range st s pos (Z.of_nat (slen s)) Hwf
                                    ltac:(lia) ltac:(lia) ltac:(lia))).
    rewrite (mbind_run _ _ st st st) by reflexivity.
    fold head. fold tail.
    rewrite (mbind_run _ _ _ _ _ Happ).
    rewrite (setSlice_run r v s' st1) by (rewrite Hobjs; exact Hobj).
    rewrite Hfr. reflexivity.
  - simpl. rewrite Hobjs. repeat split; auto; try apply Hwf'.
    + change (elems st1 s' = take (Z.to_nat pos) (elems st s)
                              ++ val :: drop (Z.to_nat pos) (elems st s)).
      rewrite Hel, Hhead, Htail. reflexivity.
    + cbn [head ptr off slen] in Htake.
      replace (off s + Z.to_nat 0 + Z.to_nat (pos - 0))%nat
        with (off s + Z.to_nat pos)%nat in Htake by lia.
      exact Htake.
Qed.

(** X12. [Insert] at a position from [0] to the length of an array that is not
    frozen and whose type accepts the value there: afterwards the array
    holds the elements it had before the position, the value, and the
    elements it had from the position on, with its type and frozen flag as
    before. Every other array is still there, and keeps its elements when
    its backing array is another one or when it ends at or before the
    position. *)
Theorem Insert_inserts (r : nat) (v : arrayObj) (pos : Z) (val : hValue) (st : store) :
  objs st !! r = Some v -> a_frozen v = false -> wf_slice st (a_slice v) ->
  0 <= pos <= Z.of_nat (slen (a_slice v)) ->
  (assertType hInstance r val pos st).1 = Ok tt ->
  exists (v' : arrayObj) (st' : store),
    Insert growslice hInstance r pos val st = (Ok tt, st')
    /\ objs st' !! r = Some v'
    /\ a_typ v' = a_typ v /\ a_frozen v' = false /\ wf_slice st' (a_slice v')
    /\ contents st' r
       = take (Z.to_nat pos) (contents st r) ++ val :: drop (Z.to_nat pos) (contents st r)
    /\ length (objs st') = length (objs st)
    /\ forall (r' : nat) (o' : arrayObj),
         r' <> r -> objs st !! r' = Some o' ->
         objs st' !! r' = Some o'
         /\ ((ptr (a_slice o') < length (mem st))%nat ->
             ptr (a_slice o') <> ptr (a_slice v) \/
             (ptr (a_slice o') = ptr (a_slice v) /\
              off (a_slice o') + slen (a_slice o') <= off (a_slice v) + Z.to_nat pos)%nat ->
             contents st' r' = contents st r').
Proof.
  intros Hobj Hfr Hwf Hpos Hty.
  destruct (Insert_run r v pos val st Hobj Hfr Hwf Hpos Hty)
    as (s' & st' & Hrun & Hobjs & Hwf' & Hel & Hmem & Hother & Htake).
  pose proof (lookup_lt_Some _ _ _ Hobj) as Hr.
  assert (Hv' : objs st' !! r = Some (mk_arrayObj s' (a_typ v) false)).
  { rewrite Hobjs. apply list_lookup_insert_eq. exact Hr. }
  exists (mk_arrayObj s' (a_typ v) false), st'.
  repeat split; auto; try apply Hwf'.
  - unfold contents. rewrite Hv', Hobj. exact Hel.
  - rewrite Hobjs. apply length_insert.
  - rewrite Hobjs. rewrite list_lookup_insert_ne by congruence. assumption.
  - intros Hp Hcase.
    eapply contents_frame; eauto.
    rewrite Hobjs. rewrite list_lookup_insert_ne by congruence. assumption.
Qed.

(** [assertType] at a position below the length reads no bound of the
    type: it passes when the value is an instance of the type of the
    position. *)
Lemma assertType_below (r : nat) (v : arrayObj) (t et : Typ) (pos : Z) (val : hValue)
    (st : store) :
  objs st !! r = Some v -> a_typ v = Some t ->
  pos < Z.of_nat (slen (a_slice v)) ->
  positionType t pos = Ok et -> hInstance et st val = Ok true ->
  assertType hInstance r val pos st = (Ok tt, st).
Proof.
  clear growslice hEquals Parse.
  intros Hobj Ht Hpos Het Hin. unfold assertType.
  rewrite (mbind_run _ _ _ _ _ (getObj_run r v st Hobj)). rewrite Ht.
  replace (pos >=? Z.of_nat (slen (a_slice v))) with false
    by (symmetry; rewrite Z.geb_leb; apply Z.leb_gt; lia).
  unfold mbind, mret, lift, getStore. rewrite Het, Hin. reflexivity.
Qed.

(** X13. The maximum size of a typed array is checked by [Add] but not by
    [Insert] below the length. On an array that is not frozen and already
    has as many elements as its type allows, [Add] panics with the size
    error and leaves the store as it is, while [Insert] at a position of
    the array, of a value that is an instance of the type of that
    position, returns and leaves the array one element longer than its
    type allows. *)
Theorem Insert_unchecked_size
    (r : nat) (v : arrayObj) (t et : Typ) (pos : Z) (val : hValue) (st : store) :
  objs st !! r = Some v -> a_frozen v = false -> wf_slice st (a_slice v) ->
  a_typ v = Some t ->
  Max t = Ok (Z.of_nat (slen (a_slice v))) ->
  Z.of_nat (slen (a_slice v)) < MaxInt64 ->
  0 <= pos < Z.of_nat (slen (a_slice v)) ->
  positionType t pos = Ok et -> hInstance et st val = Ok true ->
  Add growslice hInstance r val st = (Panic IllegalSize, st)
  /\ exists (v' : arrayObj) (st' : store),
       Insert growslice hInstance r pos val st = (Ok tt, st')
       /\ objs st' !! r = Some v' /\ a_typ v' = Some t
       /\ Z.of_nat (length (contents st' r)) = Z.of_nat (slen (a_slice v)) + 1
       /\ Max t = Ok (Z.of_nat (length (contents st' r)) - 1).
Proof.
  clear hEquals Parse.
  intros Hobj Hfr Hwf Ht Hmax Hsmall Hpos Het Hin. split.
  - unfold Add. rewrite (mbind_run _ _ _ _ _ (getObj_run r v st Hobj)).
    rewrite Hfr. apply mbind_panic. unfold assertType.
    rewrite (mbind_run _ _ _ _ _ (getObj_run r v st Hobj)). rewrite Ht.
    rewrite Z.geb_leb, Z.leb_refl.
    apply mbind_panic. unfold mbind, lift. rewrite Hmax.
    rewrite wrap_small by (unfold MaxInt64 in Hsmall; lia).
    replace (Z.of_nat (slen (a_slice v)) + 1 >? Z.of_nat (slen (a_slice v))) with true
      by (symmetry; rewrite Z.gtb_ltb; apply Z.ltb_lt; lia).
    reflexivity.
  - pose proof (assertType_below r v t et pos val st Hobj Ht ltac:(lia) Het Hin) as Hty.
    destruct (Insert_run r v pos val st Hobj Hfr Hwf ltac:(lia))
      as (s' & st' & Hrun & Hobjs & Hwf' & Hel & _).
    { rewrite Hty. reflexivity. }
    pose proof (lookup_lt_Some _ _ _ Hobj) as Hr.
    assert (Hv' : objs st' !! r = Some (mk_arrayObj s' (a_typ v) false)).
    { rewrite Hobjs. apply list_lookup_insert_eq. exact Hr. }
    assert (Hn : Z.of_nat (length (contents st' r)) = Z.of_nat (slen (a_slice v)) + 1).
    { unfold contents. rewrite Hv'. cbn [a_slice]. rewrite Hel.
      rewrite length_app. simpl. rewrite length_take, length_drop.
      rewrite (elems_wf_length st _ Hwf). lia. }
    exists (mk_arrayObj s' (a_typ v) false), st'.
    repeat split; auto.
    rewrite Hn, Hmax. f_equal. lia.
Qed.

(** ** Set *)

(** X14. [Set] at a position of an array that is not frozen and whose type
    accepts the value there returns the element that was at the position
    and writes the value into that one cell of the backing array. The
    array then holds the value at the position and its other elements as
    before; no array is added or changed, and no other cell of the store
    is written. *)
Theorem Set_replaces (r : nat) (v : arrayObj) (pos : Z) (val : hValue) (st : store) :
  objs st !! r = Some v -> a_frozen v = false -> wf_slice st (a_slice v) ->
  0 <= pos < Z.of_nat (slen (a_slice v)) ->
  (assertType hInstance r val pos st).1 = Ok tt ->
  exists (x : hValue) (st' : store),
    Set_ hInstance r pos val st = (Ok x, st')
    /\ contents st r !! Z.to_nat pos = Some x
    /\ contents st' r = <[Z.to_nat pos := val]> (contents st r)
    /\ objs st' = objs st
    /\ mem st'
       = <[ptr (a_slice v) :=
             <[(off (a_slice v) + Z.to_nat pos)%nat := val]> (backing st (ptr (a_slice v)))]>
           (mem st).
Proof.
  clear growslice hEquals Parse.
  intros Hobj Hfr Hwf Hpos Hty.
  pose proof (elems_wf_length st _ Hwf) as Hlen.
  destruct (lookup_lt_is_Some_2 (elems st (a_slice v)) (Z.to_nat pos) ltac:(lia))
    as [x Hx].
  assert (Hc : contents st r = elems st (a_slice v)).
  { unfold contents. rewrite Hobj. reflexivity. }
  destruct Hwf as [Hp Hb].
  assert (Hw : write_range (backing st (ptr (a_slice v)))
                 (off (a_slice v) + Z.to_nat pos) [val]
               = <[(off (a_slice v) + Z.to_nat pos)%nat := val]>
                   (backing st (ptr (a_slice v)))).
  { apply write_range_one. lia. }
  exists x, (mk_store (objs st)
               (<[ptr (a_slice v) :=
                    <[(off (a_slice v) + Z.to_nat pos)%nat := val]>
                      (backing st (ptr (a_slice v)))]> (mem st))).
  split; [|split; [|split; [|split]]].
  - unfold Set_. rewrite (mbind_run _ _ _ _ _ (getObj_run r v st Hobj)).
    rewrite Hfr.
    rewrite (mbind_run _ _ st st tt).
    2: { rewrite (reads_only_run _ st (reads_only_assertType r val _)).
         rewrite Hty. reflexivity. }
    rewrite (mbind_run _ _ st st x).
    2: { unfold readAt. f_equal. apply index_Ok. split; [lia | exact Hx]. }
    rewrite (mbind_run _ _ _ _ _ (writeAt_run _ _ _ _ Hpos)).
    rewrite Hw. reflexivity.
  - rewrite Hc. exact Hx.
  - rewrite Hc. unfold contents at 1. cbn [objs]. rewrite Hobj.
    unfold elems. rewrite backing_insert.
    rewrite decide_True by reflexivity. rewrite decide_True by exact Hp.
    rewrite drop_insert_ge by lia. rewrite take_insert_lt by lia.
    f_equal. lia.
  - reflexivity.
  - reflexivity.
Qed.

(** ** With *)

(** X15. [With] on an array whose type accepts the value returns a new array
    that holds the elements of the array followed by the value and has
    its type and frozen flag; the frozen flag of the receiver is not
    looked at. The receiver and every array that was there keep their
    place, and the receiver keeps its elements. The new array has the
    backing array of the receiver when that has a cell left after the end
    of the receiver, whether the receiver is frozen or not, and a fresh
    one otherwise. *)
Theorem With_appends (r : nat) (v : arrayObj) (val : hValue) (st : store) :
  objs st !! r = Some v -> wf_slice st (a_slice v) ->
  (assertType hInstance r val (Z.of_nat (slen (a_slice v))) st).1 = Ok tt ->
  exists (v' : arrayObj) (st' : store),
    With growslice hInstance r val st = (Ok (length (objs st)), st')
    /\ objs st' = objs st ++ [v']
    /\ a_typ v' = a_typ v /\ a_frozen v' = a_frozen v /\ wf_slice st' (a_slice v')
    /\ contents st' (length (objs st)) = contents st r ++ [val]
    /\ contents st' r = contents st r
    /\ ((slen (a_slice v) < cap st (a_slice v))%nat ->
        ptr (a_slice v') = ptr (a_slice v) /\ off (a_slice v') = off (a_slice v)
        /\ length (mem st') = length (mem st))
    /\ ((cap st (a_slice v) <= slen (a_slice v))%nat ->
        ptr (a_slice v') = length (mem st)).
Proof.
  clear hEquals Parse.
  intros Hobj Hwf Hty.
  destruct (append_spec (a_slice v) [val] st Hwf)
    as (s' & st1 & Happ & Hobjs & Hwf' & Hlen & Hel & Hmem & Hother & Hblen & Htake & Hcase).
  pose proof (lookup_lt_Some _ _ _ Hobj) as Hr.
  exists (mk_arrayObj s' (a_typ v) (a_frozen v)),
         (mk_store (objs st1 ++ [mk_arrayObj s' (a_typ v) (a_frozen v)]) (mem st1)).
  split; [|split; [|split; [|split; [|split; [|split; [|split; [|split]]]]]]].
  - unfold With. rewrite (mbind_run _ _ _ _ _ (getObj_run r v st Hobj)).
    rewrite (mbind_run _ _ st st tt).
    2: { rewrite (reads_only_run _ st (reads_only_assertType r val _)).
         rewrite Hty. reflexivity. }
    rewrite (mbind_run _ _ _ _ _ Happ). unfold newObj. rewrite Hobjs. reflexivity.
  - simpl. rewrite Hobjs. reflexivity.
  - reflexivity.
  - reflexivity.
  - exact Hwf'.
  - unfold contents. cbn [objs]. rewrite Hobjs.
    rewrite lookup_app_r by lia. rewrite Nat.sub_diag. cbn [lookup list_lookup a_slice].
    rewrite Hobj. exact Hel.
  - unfold contents. cbn [objs]. rewrite Hobjs.
    rewrite lookup_app_l by exact Hr. rewrite Hobj.
    apply (elems_take_eq st st1 (a_slice v) _ Htake). lia.
  - intros Hcap. cbn [a_slice].
    destruct Hcase as [(Hp & Ho & _ & Hb) | (_ & Hfull)]; [|simpl in Hfull; lia].
    repeat split; auto. cbn [mem].
    destruct Hwf as [Hpv Hbv]. destruct Hwf' as [Hp' _]. rewrite Hp in Hp'.
    assert (Hle : (length (mem st1) <= length (mem st))%nat); [|lia].
    destruct (Nat.le_gt_cases (length (mem st1)) (length (mem st))) as [|Hgt]; [assumption|].
    exfalso.
    pose proof (Hother (length (mem st)) ltac:(lia)) as Hnew. clear Hnew.
    unfold append in Happ.
    replace (slen (a_slice v) + length [val] <=? cap st (a_slice v))%nat with true in Happ
      by (symmetry; apply Nat.leb_le; simpl; lia).
    unfold mbind, writeCells, mret in Happ. injection Happ as _ Hst1.
    rewrite <- Hst1 in Hgt. simpl in Hgt. rewrite length_insert in Hgt. lia.
  - intros Hcap. cbn [a_slice].
    destruct Hcase as [(_ & _ & Hfit & _) | (Hp & _)]; [simpl in Hfit; lia | exact Hp].
Qed.

(** X16. [With] on a frozen slice writes into the frozen array the slice was
    taken from. For a frozen array and [0 <= i <= j] below its length,
    [Slice(i, j)] is a frozen array over the same backing array, and
    [With] on that slice puts the value into the cell after the end of the
    slice: the frozen source then holds the value at position [j] in place
    of the element it had there. *)
Theorem With_overwrites_frozen_source
    (r : nat) (v : arrayObj) (i j : Z) (val : hValue) (st : store) :
  objs st !! r = Some v -> a_frozen v = true -> wf_slice st (a_slice v) ->
  0 <= i -> i <= j -> j < Z.of_nat (slen (a_slice v)) ->
  exists (r1 r2 : nat) (st1 st2 : store),
    Slice r i j st = (Ok r1, st1)
    /\ Frozen st1 r1 = true
    /\ With growslice hInstance r1 val st1 = (Ok r2, st2)
    /\ contents st2 r2 = take (Z.to_nat (j - i)) (drop (Z.to_nat i) (contents st r)) ++ [val]
    /\ Frozen st2 r = true
    /\ contents st1 r = contents st r
    /\ contents st2 r = <[Z.to_nat j := val]> (contents st r).
Proof.
  clear hEquals Parse.
  intros Hobj Hfr Hwf Hi Hij Hj.
  pose proof (lookup_lt_Some _ _ _ Hobj) as Hr.
  pose proof (elems_wf_length st _ Hwf) as Hlen.
  pose proof (Slice_shares r v st i j Hobj Hfr Hwf Hi Hij ltac:(lia)) as HS.
  replace ((i =? 0) && (j =? Z.of_nat (slen (a_slice v)))) with false in HS.
  2: { symmetry. apply andb_false_iff. right. apply Z.eqb_neq. lia. }
  set (ss := mk_goslice (ptr (a_slice v)) (off (a_slice v) + Z.to_nat i) (Z.to_nat (j - i)))
    in *.
  set (o1 := mk_arrayObj ss None true) in *.
  set (st1 := mk_store (objs st ++ [o1]) (mem st)) in *.
  assert (Ho1 : objs st1 !! length (objs st) = Some o1).
  { simpl. rewrite lookup_app_r by lia. rewrite Nat.sub_diag. reflexivity. }
  assert (Hwf1 : wf_slice st1 ss).
  { destruct Hwf as [Hp Hb]. split; [exact Hp|].
    cbn [ss ptr off slen]. change (backing st1 (ptr (a_slice v)))
      with (backing st (ptr (a_slice v))). lia. }
  destruct (append_spec ss [val] st1 Hwf1)
    as (s' & st2' & Happ & Hobjs & Hwf' & Hlen' & Hel & _ & _ & _ & _ & Hcase).
  assert (Hc : contents st r = elems st (a_slice v)).
  { unfold contents. rewrite Hobj. reflexivity. }
  exists (length (objs st)), (length (objs st1)), st1,
         (mk_store (objs st2' ++ [mk_arrayObj s' None true]) (mem st2')).
  split; [exact HS|]. split; [|split; [|split; [|split; [|split]]]].
  - unfold Frozen. rewrite Ho1. reflexivity.
  - unfold With. rewrite (mbind_run _ _ _ _ _ (getObj_run _ o1 st1 Ho1)).
    rewrite (mbind_run _ _ st1 st1 tt).
    2: { unfold assertType. rewrite (mbind_run _ _ _ _ _ (getObj_run _ o1 st1 Ho1)).
         reflexivity. }
    rewrite (mbind_run _ _ _ _ _ Happ). unfold newObj. rewrite Hobjs. reflexivity.
  - unfold contents at 1. cbn [objs]. rewrite Hobjs.
    rewrite lookup_app_r by lia. rewrite Nat.sub_diag. cbn [lookup list_lookup a_slice].
    transitivity (elems st1 ss ++ [val]); [exact Hel|]. f_equal. rewrite Hc.
    change (elems st1 ss) with (elems st ss). unfold ss.
    apply elems_subslice. lia.
  - unfold Frozen. cbn [objs]. rewrite Hobjs.
    rewrite lookup_app_l by (simpl; rewrite length_app; lia).
    simpl. rewrite lookup_app_l by exact Hr. rewrite Hobj. exact Hfr.
  - unfold st1. apply contents_app_objs. exact Hr.
  - destruct Hcase as [(_ & _ & _ & Hb) | (_ & Hfull)].
    2: { exfalso. unfold cap in Hfull. cbn [ss ptr off slen] in Hfull.
         change (backing st1 (ptr (a_slice v))) with (backing st (ptr (a_slice v)))
           in Hfull.
         destruct Hwf as [_ Hbv]. simpl in Hfull. lia. }
    unfold contents at 1. cbn [objs]. rewrite Hobjs.
    rewrite lookup_app_l by (simpl; rewrite length_app; lia).
    simpl objs. rewrite lookup_app_l by exact Hr. rewrite Hobj.
    rewrite Hc. unfold elems.
    match goal with
    | |- take _ (drop _ ?b) = _ => change b with (backing st2' (ptr ss))
    end.
    rewrite Hb. cbn [ss ptr off slen].
    change (backing st1 (ptr (a_slice v))) with (backing st (ptr (a_slice v))).
    destruct Hwf as [_ Hbv].
    rewrite write_range_one by lia.
    rewrite drop_insert_ge by lia. rewrite take_insert_lt by lia.
    f_equal. lia.
Qed.

(** ** A call that panics *)

Local Abbreviation clean_at m st :=
  (forall e : panic, (m st).1 = Panic e -> (m st).2 = st).

Lemma clean_at_bind {A B : Type} (m : M A) (k : A -> M B) (st : store) :
  reads_only m ->
  (forall a : A, m st = (Ok a, st) -> clean_at (k a) st) ->
  clean_at (mbind m k) st.
Proof.
  intros Hm Hk e. unfold mbind. rewrite (reads_only_run m st Hm).
  destruct (m st).1 as [a|e'] eqn:Hr; [|reflexivity].
  apply Hk. rewrite (reads_only_run m st Hm), Hr. reflexivity.
Qed.

Lemma clean_at_reads_only {A : Type} (m : M A) (st : store) :
  reads_only m -> clean_at m st.
Proof. intros Hm e _. apply Hm. Qed.

Lemma clean_at_Ok {A : Type} (m : M A) (st st' : store) (a : A) :
  m st = (Ok a, st') -> clean_at m st.
Proof. intros H e He. rewrite H in He. discriminate. Qed.

Lemma getObj_Ok (r : nat) (v : arrayObj) (st st' : store) :
  getObj r st = (Ok v, st') -> objs st !! r = Some v.
Proof.
  unfold getObj. destruct (objs st !! r); intros H; inversion H. reflexivity.
Qed.

Lemma append_total (s : goslice) (vs : list hValue) (st : store) :
  exists (s' : goslice) (st' : store),
    append growslice s vs st = (Ok s', st') /\ objs st' = objs st.
Proof.
  clear hInstance hEquals Parse.
  unfold append. destruct (_ <=? _)%nat; eexists _, _; split; reflexivity.
Qed.

Lemma appendEach_total (vs : list hValue) :
  forall (s : goslice) (st : store),
  exists (s' : goslice) (st' : store),
    appendEach growslice s vs st = (Ok s', st') /\ objs st' = objs st.
Proof.
  clear hInstance hEquals Parse.
  induction vs as [|e vs IH]; intros s st; simpl.
  - eexists _, _. split; reflexivity.
  - destruct (append_total s [e] st) as (s1 & st1 & Happ & Hobjs).
    rewrite (mbind_run _ _ _ _ _ Happ).
    destruct (IH s1 st1) as (s2 & st2 & Hrun & Hobjs2).
    exists s2, st2. split; [exact Hrun | congruence].
Qed.

(** Once the array at [r] is there, storing a slice that [append] made
    returns. *)
Lemma append_setSlice_Ok (r : nat) (v : arrayObj) (m : M goslice) (st : store) :
  objs st !! r = Some v ->
  (exists (s' : goslice) (st' : store), m st = (Ok s', st') /\ objs st' = objs st) ->
  exists st' : store, (mbind m (fun s => setSlice r s)) st = (Ok tt, st').
Proof.
  intros Hobj (s' & st1 & Hm & Hobjs).
  rewrite (mbind_run _ _ _ _ _ Hm).
  rewrite (setSlice_run r v s' st1) by (rewrite Hobjs; exact Hobj).
  eexists. reflexivity.
Qed.

Lemma removePos_clean (r : nat) (pos : Z) (st : store) :
  clean_at (removePos r pos) st.
Proof.
  clear growslice hInstance hEquals Parse.
  unfold removePos.
  apply clean_at_bind; [reads_only_auto|]. intros v Hv. apply getObj_Ok in Hv.
  destruct ((pos >=? 0) && (pos <? Z.of_nat (slen (a_slice v)))) eqn:Hin;
    [|apply clean_at_reads_only; reads_only_auto].
  apply andb_true_iff in Hin as [H0 H1].
  apply Z.geb_le in H0. apply Z.ltb_lt in H1.
  apply clean_at_bind; [reads_only_auto|]. intros [] _.
  apply clean_at_bind; [reads_only_auto|]. intros val _.
  apply clean_at_bind; [reads_only_auto|]. intros st0 Hst0.
  injection Hst0 as <-.
  unfold mbind at 1, writeCells at 1.
  unfold mbind at 1. rewrite writeAt_run by lia.
  unfold mbind at 1.
  erewrite setSlice_run by exact Hv.
  intros e He. discriminate.
Qed.

Lemma clean_at_map {A B : Type} (m : M A) (k : A -> M B) (st : store) :
  (forall (a : A) (st1 : store) (e : panic), (k a st1).1 <> Panic e) ->
  clean_at m st -> clean_at (mbind m k) st.
Proof.
  intros Hk Hm e. unfold mbind.
  destruct (m st) as [[a|e'] st1] eqn:Hrun.
  - intros He. exfalso. exact (Hk a st1 e He).
  - intros _. apply (Hm e'). reflexivity.
Qed.

Lemma writeAt_clean (s : goslice) (i : Z) (x : hValue) (st : store) :
  clean_at (writeAt s i x) st.
Proof.
  unfold writeAt. destruct (_ || _); intros e He; [reflexivity | discriminate].
Qed.

(** X17. A mutating call that panics has changed nothing. Whatever the call,
    the array and the store: when [Add], [AddAll], [AddValues], [Insert],
    [Set], [Remove], [RemoveValue], [Pop] or [SetType] panics (on a frozen
    array, on a value or a size the type of the array rejects, on a
    position out of range, on an argument that is no array type), the
    store is as it was before the call. *)
Theorem mutation_panic_leaves_store (m : mutation) (r : nat) (st : store) (e : panic) :
  (mutate growslice hInstance hEquals Parse m r st).1 = Panic e ->
  (mutate growslice hInstance hEquals Parse m r st).2 = st.
Proof.
  revert e.
  destruct m as [val|values|values|pos val|pos val|pos|value| |ti]; cbn [mutate].
  - unfold Add.
    apply clean_at_bind; [reads_only_auto|]. intros v Hv. apply getObj_Ok in Hv.
    destruct (a_frozen v); [apply clean_at_reads_only; reads_only_auto|].
    apply clean_at_bind; [apply reads_only_assertType|]. intros [] _.
    destruct (append_setSlice_Ok r v (append growslice (a_slice v) [val]) st Hv
                (append_total _ _ _)) as [st' Hrun].
    eapply clean_at_Ok. exact Hrun.
  - unfold AddAll.
    apply clean_at_bind; [reads_only_auto|]. intros v Hv. apply getObj_Ok in Hv.
    destruct (a_frozen v); [apply clean_at_reads_only; reads_only_auto|].
    apply clean_at_bind; [apply reads_only_iterValues|]. intros vs _.
    apply clean_at_bind; [apply reads_only_assertTypes|]. intros [] _.
    destruct values as [r0|vs0].
    + destruct (append_setSlice_Ok r v (append growslice (a_slice v) vs) st Hv
                  (append_total _ _ _)) as [st' Hrun].
      eapply clean_at_Ok. exact Hrun.
    + destruct (append_setSlice_Ok r v (appendEach growslice (a_slice v) vs) st Hv
                  (appendEach_total _ _ _)) as [st' Hrun].
      eapply clean_at_Ok. exact Hrun.
  - unfold AddValues.
    apply clean_at_bind; [reads_only_auto|]. intros v Hv. apply getObj_Ok in Hv.
    destruct (a_frozen v); [apply clean_at_reads_only; reads_only_auto|].
    apply clean_at_bind; [apply reads_only_assertTypes|]. intros [] _.
    destruct (append_setSlice_Ok r v (append growslice (a_slice v) values) st Hv
                (append_total _ _ _)) as [st' Hrun].
    eapply clean_at_Ok. exact Hrun.
  - unfold Insert.
    apply clean_at_bind; [reads_only_auto|]. intros v Hv. apply getObj_Ok in Hv.
    destruct (a_frozen v); [apply clean_at_reads_only; reads_only_auto|].
    apply clean_at_bind; [apply reads_only_assertType|]. intros [] _.
    apply clean_at_bind; [reads_only_auto|]. intros head _.
    apply clean_at_bind; [reads_only_auto|]. intros tail _.
    apply clean_at_bind; [reads_only_auto|]. intros st0 Hst0. injection Hst0 as <-.
    destruct (append_setSlice_Ok r v (append growslice head (val :: elems st tail)) st Hv
                (append_total _ _ _)) as [st' Hrun].
    eapply clean_at_Ok. exact Hrun.
  - apply clean_at_map; [discriminate|]. unfold Set_.
    apply clean_at_bind; [reads_only_auto|]. intros v Hv.
    destruct (a_frozen v); [apply clean_at_reads_only; reads_only_auto|].
    apply clean_at_bind; [apply reads_only_assertType|]. intros [] _.
    apply clean_at_bind; [reads_only_auto|]. intros old _.
    apply clean_at_map; [discriminate|]. apply writeAt_clean.
  - apply clean_at_map; [discriminate|]. unfold Remove.
    apply clean_at_bind; [reads_only_auto|]. intros v Hv.
    destruct (a_frozen v); [apply clean_at_reads_only; reads_only_auto|].
    apply removePos_clean.
  - apply clean_at_map; [discriminate|]. unfold RemoveValue.
    apply clean_at_bind; [reads_only_auto|]. intros v Hv.
    destruct (a_frozen v); [apply clean_at_reads_only; reads_only_auto|].
    apply clean_at_bind; [apply reads_only_IndexOf|]. intros i _.
    apply clean_at_map; [discriminate|]. apply removePos_clean.
  - apply clean_at_map; [discriminate|]. unfold Pop.
    apply clean_at_bind; [reads_only_auto|]. intros v Hv.
    destruct (a_frozen v); [apply clean_at_reads_only; reads_only_auto|].
    destruct (_ >=? 0); [|apply clean_at_reads_only; reads_only_auto].
    apply clean_at_map; [discriminate|]. apply removePos_clean.
  - unfold SetType.
    apply clean_at_bind; [reads_only_auto|]. intros v Hv.
    destruct (a_frozen v); [apply clean_at_reads_only; reads_only_auto|].
    apply clean_at_bind; [reads_only_auto|]. intros [mt ok] _.
    destruct ok; cbn [negb]; [|apply clean_at_reads_only; reads_only_auto].
    destruct mt as [t|]; [|intros e He; discriminate].
    apply clean_at_bind; [reads_only_auto|]. intros st0 _.
    apply clean_at_bind; [reads_only_auto|]. intros b _.
    destruct b; [intros e He; discriminate | apply clean_at_reads_only; reads_only_auto].
Qed.

End StoreFacts.

(** ** Select and Reject *)

Section ReadingFacts.

Variable growslice : nat -> nat -> nat.
Variable predicate : hValue -> bool.

Set Default Proof Using "Type".

(** The loop of [Select] and [Reject] from a slice [vs] that lies within a
    backing array at or after [p0]: the elements the predicate answers
    [keep] for are added to [vs] in their order, and no backing array
    below [p0] is written. *)
Lemma Select_loop_spec (keep : bool) (p0 : nat) (a : list hValue) :
  forall (vs : goslice) (st : store),
    wf_slice st vs -> (p0 <= ptr vs)%nat ->
    exists (vs' : goslice) (st' : store),
      Select_loop growslice predicate keep a vs st = (Ok vs', st')
      /\ objs st' = objs st
      /\ wf_slice st' vs' /\ (p0 <= ptr vs')%nat
      /\ elems st' vs' = elems st vs ++ filter (fun e => predicate e = keep) a
      /\ (length (mem st) <= length (mem st'))%nat
      /\ forall q : nat, (q < p0)%nat -> backing st' q = backing st q.
Proof.
  induction a as [|e a IH]; intros vs st Hwf Hp0; simpl.
  - exists vs, st. rewrite app_nil_r. repeat split; auto; apply Hwf.
  - destruct (Bool.eqb (predicate e) keep) eqn:Hk.
    + apply Bool.eqb_prop in Hk.
      destruct (append_spec growslice vs [e] st Hwf)
        as (s1 & st1 & Happ & Hobjs & Hwf1 & _ & Hel & Hmem & Hother & _ & _ & Hcase).
      rewrite (mbind_run _ _ _ _ _ Happ).
      assert (Hp1 : (p0 <= ptr s1)%nat).
      { destruct Hwf as [Hp _].
        destruct Hcase as [(Hp' & _) | (Hp' & _)]; rewrite Hp'; lia. }
      destruct (IH s1 st1 Hwf1 Hp1)
        as (vs' & st' & Hrun & Hobjs' & Hwf' & Hp' & Hel' & Hmem' & Hother').
      exists vs', st'. split; [exact Hrun|].
      rewrite filter_cons_True by exact Hk.
      repeat split; auto; try apply Hwf'; try congruence; try lia.
      * rewrite Hel', Hel, <- app_assoc. reflexivity.
      * intros q Hq. rewrite Hother' by exact Hq.
        destruct Hwf as [Hp _]. apply Hother; lia.
    + apply Bool.eqb_false_iff in Hk.
      rewrite filter_cons_False by exact Hk.
      apply IH; assumption.
Qed.

Lemma Select_run (keep : bool) (r : nat) (v : arrayObj) (st : store) :
  objs st !! r = Some v ->
  exists (vs' : goslice) (st' : store),
    (v0 <- getObj r ;;
     vs <- alloc [] 0 ;;
     st0 <- getStore ;;
     vs <- Select_loop growslice predicate keep (elems st0 (a_slice v0)) vs ;;
     newObj (mk_arrayObj vs (a_typ v0) (a_frozen v0)))%M st
    = (Ok (length (objs st)), st')
    /\ objs st' = objs st ++ [mk_arrayObj vs' (a_typ v) (a_frozen v)]
    /\ wf_slice st' vs' /\ (length (mem st) <= ptr vs')%nat
    /\ elems st' vs' = filter (fun e => predicate e = keep) (elems st (a_slice v))
    /\ forall q : nat, (q < length (mem st))%nat -> backing st' q = backing st q.
Proof.
  intros Hobj.
  set (st0 := mk_store (objs st) (mem st ++ [[]])).
  assert (Hwf0 : wf_slice st0 (mk_goslice (length (mem st)) 0 0)).
  { split; simpl; [rewrite length_app; simpl; lia | lia]. }
  destruct (Select_loop_spec keep (length (mem st)) (elems st0 (a_slice v))
              (mk_goslice (length (mem st)) 0 0) st0 Hwf0 ltac:(simpl; lia))
    as (vs' & st' & Hrun & Hobjs & Hwf' & Hp' & Hel & Hmem & Hother).
  assert (Hold : forall q, (q < length (mem st))%nat -> backing st0 q = backing st q).
  { intros q Hq. unfold backing, st0. simpl. rewrite lookup_app_l by exact Hq.
    reflexivity. }
  exists vs', (mk_store (objs st' ++ [mk_arrayObj vs' (a_typ v) (a_frozen v)]) (mem st')).
  split; [|split; [|split; [|split; [|split]]]].
  - rewrite (mbind_run _ _ _ _ _ (getObj_run r v st Hobj)).
    rewrite (mbind_run _ _ st st0 (mk_goslice (length (mem st)) 0 0)) by reflexivity.
    rewrite (mbind_run _ _ st0 st0 st0) by reflexivity.
    rewrite (mbind_run _ _ _ _ _ Hrun). unfold newObj. rewrite Hobjs. reflexivity.
  - simpl. rewrite Hobjs. reflexivity.
  - exact Hwf'.
  - exact Hp'.
  - change (elems st' vs' = filter (fun e => predicate e = keep) (elems st (a_slice v))).
    rewrite Hel.
    assert (He0 : elems st0 (mk_goslice (length (mem st)) 0 0) = []) by reflexivity.
    rewrite He0. simpl. f_equal.
    destruct (decide (ptr (a_slice v) < length (mem st))%nat) as [Hlt|Hge].
    + apply elems_backing_eq. apply Hold. exact Hlt.
    + unfold elems.
      assert (Hnone : backing st (ptr (a_slice v)) = []).
      { unfold backing. rewrite lookup_ge_None_2 by lia. reflexivity. }
      rewrite Hnone.
      destruct (drop (off (a_slice v)) (backing st0 (ptr (a_slice v)))) as [|x l] eqn:Hd.
      * rewrite drop_nil. reflexivity.
      * exfalso. unfold backing, st0 in Hd. simpl in Hd.
        destruct (decide (ptr (a_slice v) = length (mem st))) as [Heq|Hne].
        -- rewrite Heq in Hd. rewrite lookup_app_r in Hd by lia.
           rewrite Nat.sub_diag in Hd. simpl in Hd. rewrite drop_nil in Hd. discriminate.
        -- rewrite lookup_ge_None_2 in Hd by (rewrite length_app; simpl; lia).
           simpl in Hd. rewrite drop_nil in Hd. discriminate.
  - intros q Hq.
    change (backing st' q = backing st q).
    rewrite Hother by exact Hq. apply Hold. exact Hq.
Qed.

(** X18. [Select] and [Reject] return a new array over a fresh backing array.
    The array [Select] returns holds the elements the predicate holds for,
    in their order, and the array [Reject] returns holds the others; each
    has the type and the frozen flag of the receiver, whatever its length.
    No array that was there is changed, and no backing array that was
    there is written. *)
Theorem Select_Reject_filter (r : nat) (v : arrayObj) (st : store) :
  objs st !! r = Some v ->
  forall keep : bool,
  exists (v' : arrayObj) (st' : store),
    (if keep then Select growslice predicate r st else Reject growslice predicate r st)
    = (Ok (length (objs st)), st')
    /\ objs st' = objs st ++ [v']
    /\ contents st' (length (objs st))
       = filter (fun e => predicate e = keep) (contents st r)
    /\ a_typ v' = a_typ v /\ a_frozen v' = a_frozen v
    /\ wf_slice st' (a_slice v') /\ (length (mem st) <= ptr (a_slice v'))%nat
    /\ (forall q : nat, (q < length (mem st))%nat -> backing st' q = backing st q)
    /\ (forall (r0 : nat) (o0 : arrayObj),
          objs st !! r0 = Some o0 -> (ptr (a_slice o0) < length (mem st))%nat ->
          objs st' !! r0 = Some o0 /\ contents st' r0 = contents st r0).
Proof.
  intros Hobj keep.
  destruct (Select_run keep r v st Hobj)
    as (vs' & st' & Hrun & Hobjs & Hwf' & Hp' & Hel & Hother).
  exists (mk_arrayObj vs' (a_typ v) (a_frozen v)), st'.
  split; [destruct keep; exact Hrun|].
  split; [exact Hobjs|].
  repeat split; auto; try apply Hwf'.
  - unfold contents. rewrite Hobjs. rewrite lookup_app_r by lia.
    rewrite Nat.sub_diag. cbn [lookup list_lookup a_slice]. rewrite Hobj. exact Hel.
  - rewrite Hobjs. apply lookup_app_l_Some. assumption.
  - unfold contents. rewrite Hobjs.
    rewrite lookup_app_l by (eapply lookup_lt_Some; eassumption).
    match goal with H : objs st !! _ = Some o0 |- _ => rewrite H end.
    apply elems_backing_eq. apply Hother. assumption.
Qed.

(** ** All, Any and One *)

Lemma One_loop_spec (a : list hValue) :
  forall f : bool,
    One_loop predicate a f = true
    <-> (length (filter (fun e => predicate e = true) a) + (if f then 1 else 0) = 1)%nat.
Proof.
  induction a as [|e a IH]; intros f; simpl.
  - destruct f; simpl; split; intros H; try reflexivity; try discriminate; lia.
  - destruct (predicate e) eqn:He.
    + rewrite filter_cons_True by exact He. simpl.
      destruct f.
      * split; [discriminate | lia].
      * rewrite IH. lia.
    + rewrite filter_cons_False by congruence. apply IH.
Qed.

(** X19. [All], [Any] and [One] leave the store as it is and never panic on an
    array. [All] answers whether the predicate holds for every element,
    [Any] whether it holds for some element, and [One] whether it holds for
    exactly one element. *)
Theorem All_Any_One_count (r : nat) (v : arrayObj) (st : store) :
  objs st !! r = Some v ->
  exists b_all b_any b_one : bool,
    All predicate r st = (Ok b_all, st)
    /\ Any predicate r st = (Ok b_any, st)
    /\ One predicate r st = (Ok b_one, st)
    /\ (b_all = true <-> Forall (fun e => predicate e = true) (contents st r))
    /\ (b_any = true <-> Exists (fun e => predicate e = true) (contents st r))
    /\ (b_one = true
        <-> length (filter (fun e => predicate e = true) (contents st r)) = 1%nat).
Proof.
  clear growslice.
  intros Hobj. unfold All, Any, One.
  rewrite !(mbind_run _ _ _ _ _ (getObj_run r v st Hobj)).
  unfold mbind, getStore, mret. eexists _, _, _.
  split; [reflexivity|]. split; [reflexivity|]. split; [reflexivity|].
  unfold contents. rewrite Hobj. generalize (elems st (a_slice v)). intros a.
  split; [|split].
  - induction a as [|e a IH]; simpl; [split; auto|].
    destruct (predicate e) eqn:He; simpl.
    + rewrite IH. split; [intros H; constructor; assumption|].
      intros H. inversion H. assumption.
    + split; [discriminate|]. intros H. inversion H. congruence.
  - induction a as [|e a IH]; simpl.
    + split; [discriminate | intros H; inversion H].
    + destruct (predicate e) eqn:He.
      * split; [intros _; apply Exists_cons_hd; exact He | reflexivity].
      * rewrite IH. split; [intros H; apply Exists_cons_tl; exact H|].
        intros H. inversion H; [congruence | assumption].
  - rewrite One_loop_spec. lia.
Qed.

(** ** ContainsAll and SameValues *)

Variable hEquals : store -> hValue -> hValue -> bool.

Lemma ContainsAll_mark_Some (st : store) (ea : hValue) (vs : list hValue) :
  (forall be : hValue, be ∈ vs -> isGoNil be = false ->
     (hEquals st be ea = true <-> be = ea)) ->
  forall vs' : list hValue,
    ContainsAll_mark hEquals st ea vs = Some vs' ->
    filter (fun x => isGoNil x = false) vs
    ≡ₚ ea :: filter (fun x => isGoNil x = false) vs'.
Proof.
  clear growslice predicate.
  induction vs as [|be vs IH]; intros Heq vs' H; simpl in H; [discriminate|].
  assert (Heq' : forall be0, be0 ∈ vs -> isGoNil be0 = false ->
                   (hEquals st be0 ea = true <-> be0 = ea)).
  { intros be0 Hin. apply Heq. apply list_elem_of_further. exact Hin. }
  destruct (negb (isGoNil be) && hEquals st be ea) eqn:Hm.
  - injection H as <-.
    apply andb_true_iff in Hm as [Hn He]. apply negb_true_iff in Hn.
    apply (Heq be (list_elem_of_here _ _) Hn) in He. subst be.
    rewrite filter_cons_True by exact Hn.
    rewrite filter_cons_False by (simpl; discriminate). reflexivity.
  - destruct (ContainsAll_mark hEquals st ea vs) as [vs''|] eqn:Hrec; [|discriminate].
    injection H as <-. specialize (IH Heq' vs'' eq_refl).
    destruct (isGoNil be) eqn:Hn.
    + rewrite !filter_cons_False by congruence. exact IH.
    + rewrite !filter_cons_True by exact Hn. rewrite IH. apply perm_swap.
Qed.

Lemma ContainsAll_mark_None (st : store) (ea : hValue) (vs : list hValue) :
  (forall be : hValue, be ∈ vs -> isGoNil be = false ->
     (hEquals st be ea = true <-> be = ea)) ->
  ContainsAll_mark hEquals st ea vs = None ->
  ea ∉ filter (fun x => isGoNil x = false) vs.
Proof.
  clear growslice predicate.
  induction vs as [|be vs IH]; intros Heq H; simpl in H.
  - simpl. apply not_elem_of_nil.
  - assert (Heq' : forall be0, be0 ∈ vs -> isGoNil be0 = false ->
                     (hEquals st be0 ea = true <-> be0 = ea)).
    { intros be0 Hin. apply Heq. apply list_elem_of_further. exact Hin. }
    destruct (negb (isGoNil be) && hEquals st be ea) eqn:Hm; [discriminate|].
    destruct (ContainsAll_mark hEquals st ea vs) as [vs''|] eqn:Hrec; [discriminate|].
    specialize (IH Heq' eq_refl).
    destruct (isGoNil be) eqn:Hn.
    + rewrite filter_cons_False by congruence. exact IH.
    + rewrite filter_cons_True by exact Hn.
      apply not_elem_of_cons. split; [|exact IH].
      intros ->. simpl in Hm.
      rewrite (proj2 (Heq be (list_elem_of_here _ _) Hn) eq_refl) in Hm. discriminate.
Qed.

(** The loop of [ContainsAll] over [k] positions of [a] from [n] on, when
    [vs] has [k] elements left that are not marked, and [Equals] between
    these and the elements of [a] is identity: the loop answers whether
    the [k] elements of [a] are a rearrangement of the elements left in
    [vs]. *)
Lemma ContainsAll_loop_spec (st : store) (a : list hValue) (k : nat) :
  forall (n : nat) (vs : list hValue),
    length (filter (fun x => isGoNil x = false) vs) = k ->
    (forall be ea : hValue, be ∈ vs -> isGoNil be = false -> ea ∈ a ->
       (hEquals st be ea = true <-> be = ea)) ->
    ContainsAll_loop hEquals st a vs k (Z.of_nat n) = Ok true
    <-> take k (drop n a) ≡ₚ filter (fun x => isGoNil x = false) vs.
Proof.
  clear growslice predicate.
  induction k as [|k IH]; intros n vs Hlen Heq; simpl.
  - apply length_zero_iff_nil in Hlen. rewrite Hlen. rewrite take_0. split; auto.
  - destruct (a !! n) as [ea|] eqn:Hea.
    + assert (Hidx : index a (Z.of_nat n) = Ok ea).
      { apply index_Ok. rewrite Nat2Z.id. split; [lia | exact Hea]. }
      rewrite Hidx. cbn [rbind].
      rewrite (drop_S _ _ _ Hea). rewrite firstn_cons.
      pose proof (list_elem_of_lookup_2 _ _ _ Hea) as Hin.
      assert (Heq1 : forall be, be ∈ vs -> isGoNil be = false ->
                       (hEquals st be ea = true <-> be = ea)).
      { intros be Hbe Hnil. apply Heq; assumption. }
      destruct (ContainsAll_mark hEquals st ea vs) as [vs'|] eqn:Hm.
      * pose proof (ContainsAll_mark_Some st ea vs Heq1 vs' Hm) as Hperm.
        assert (Hlen' : length (filter (fun x => isGoNil x = false) vs') = k).
        { apply Permutation_length in Hperm. simpl in Hperm. lia. }
        assert (Heq' : forall be ea0, be ∈ vs' -> isGoNil be = false -> ea0 ∈ a ->
                         (hEquals st be ea0 = true <-> be = ea0)).
        { intros be ea0 Hbe Hnil. apply Heq; [|exact Hnil].
          assert (Hbf : be ∈ filter (fun x => isGoNil x = false) vs).
          { rewrite Hperm. apply list_elem_of_further.
            apply list_elem_of_filter. split; assumption. }
          apply list_elem_of_filter in Hbf. apply Hbf. }
        replace (Z.of_nat n + 1) with (Z.of_nat (S n)) by lia.
        rewrite (IH (S n) vs' Hlen' Heq'). rewrite Hperm.
        split; [intros H; constructor; exact H | apply Permutation_cons_inv].
      * pose proof (ContainsAll_mark_None st ea vs Heq1 Hm) as Hnot.
        split; [discriminate|]. intros Hperm. exfalso. apply Hnot.
        rewrite <- Hperm. apply list_elem_of_here.
    + assert (Hnone : forall x, index a (Z.of_nat n) <> Ok x).
      { intros x Hx. apply index_Ok in Hx as [_ Hx]. rewrite Nat2Z.id in Hx. congruence. }
      destruct (index a (Z.of_nat n)) as [x|e] eqn:Hidx; [exfalso; eapply Hnone; eauto|].
      cbn [rbind]. split; [discriminate|].
      intros Hperm. apply Permutation_length in Hperm.
      rewrite Hlen in Hperm. rewrite length_take, length_drop in Hperm.
      apply lookup_ge_None_1 in Hea. lia.
Qed.

Lemma ContainsAll_loop_Ok (st : store) (a : list hValue) (k : nat) :
  forall (n : nat) (vs : list hValue),
    (n + k <= length a)%nat ->
    exists b : bool, ContainsAll_loop hEquals st a vs k (Z.of_nat n) = Ok b.
Proof.
  clear growslice predicate.
  induction k as [|k IH]; intros n vs Hn; simpl; [eexists; reflexivity|].
  destruct (lookup_lt_is_Some_2 a n ltac:(lia)) as [ea Hea].
  assert (Hidx : index a (Z.of_nat n) = Ok ea).
  { apply index_Ok. rewrite Nat2Z.id. split; [lia | exact Hea]. }
  rewrite Hidx. cbn [rbind].
  destruct (ContainsAll_mark hEquals st ea vs) as [vs'|]; [|eexists; reflexivity].
  replace (Z.of_nat n + 1) with (Z.of_nat (S n)) by lia.
  apply IH. lia.
Qed.

(** A run of [ContainsAll] against the values [vs] of the other iterable. *)
Lemma ContainsAll_run (r : nat) (v : arrayObj) (other : Iterable) (vs : list hValue)
    (st : store) :
  objs st !! r = Some v ->
  iterValues other st = (Ok vs, st) ->
  Forall (fun x => isGoNil x = false) vs ->
  (forall be ea : hValue, be ∈ vs -> ea ∈ contents st r ->
     (hEquals st be ea = true <-> be = ea)) ->
  exists b : bool,
    ContainsAll hEquals r other st = (Ok b, st)
    /\ (b = true
        <-> (length vs <= length (contents st r))%nat
            /\ take (length vs) (contents st r) ≡ₚ vs).
Proof.
  clear growslice predicate.
  intros Hobj Hvs Hnil Heq.
  assert (Hc : contents st r = elems st (a_slice v)).
  { unfold contents. rewrite Hobj. reflexivity. }
  rewrite Hc in *. set (a := elems st (a_slice v)) in *.
  assert (Hf : filter (fun x => isGoNil x = false) vs = vs).
  { clear -Hnil. induction Hnil as [|x l Hx Hl IH]; [reflexivity|].
    rewrite filter_cons_True by exact Hx. rewrite IH. reflexivity. }
  unfold ContainsAll. rewrite (mbind_run _ _ _ _ _ (getObj_run r v st Hobj)).
  rewrite (mbind_run _ _ st st st) by reflexivity.
  rewrite (mbind_run _ _ _ _ _ Hvs). fold a. unfold len.
  destruct (Z.of_nat (length a) <? Z.of_nat (length vs)) eqn:Hlt.
  - apply Z.ltb_lt in Hlt. exists false. split; [reflexivity|].
    split; [discriminate | lia].
  - apply Z.ltb_ge in Hlt.
    destruct (Z.of_nat (length a) =? 0) eqn:H0.
    + apply Z.eqb_eq in H0. exists true. split; [reflexivity|].
      assert (Hvs0 : vs = []) by (apply length_zero_iff_nil; lia).
      subst vs. simpl. rewrite take_0. split; auto. intros _. split; [lia | reflexivity].
    + destruct (ContainsAll_loop_Ok st a (length vs) 0 vs ltac:(lia)) as [b Hb].
      exists b. unfold lift. change 0 with (Z.of_nat 0). rewrite Hb.
      split; [reflexivity|].
      pose proof (ContainsAll_loop_spec st a (length vs) 0 vs
                    ltac:(rewrite Hf; reflexivity)
                    ltac:(intros be ea Hbe _ Hea; apply Heq; assumption)) as Hspec.
      rewrite Hb, drop_0, Hf in Hspec.
      split.
      * intros ->. split; [lia|]. apply Hspec. reflexivity.
      * intros [_ Hperm]. apply Hspec in Hperm. congruence.
Qed.

(** X20. [ContainsAll] compares a prefix of the receiver with the other
    iterable. When [Equals] between the values of the two is identity,
    the call leaves the store as it is and answers true exactly when the
    other iterable has no more values than the receiver has elements and
    the first elements of the receiver, as many as the other iterable has
    values, are a rearrangement of these values. The elements the
    receiver has after them play no part, and a receiver whose first
    element is not among the values of a non-empty iterable is answered
    false for. *)
Theorem ContainsAll_compares_prefix (r : nat) (v : arrayObj) (other : Iterable)
    (vs : list hValue) (st : store) :
  objs st !! r = Some v ->
  iterValues other st = (Ok vs, st) ->
  Forall (fun x => isGoNil x = false) vs ->
  (forall be ea : hValue, be ∈ vs -> ea ∈ contents st r ->
     (hEquals st be ea = true <-> be = ea)) ->
  exists b : bool,
    ContainsAll hEquals r other st = (Ok b, st)
    /\ (b = true
        <-> (length vs <= length (contents st r))%nat
            /\ take (length vs) (contents st r) ≡ₚ vs)
    /\ (forall x : hValue, contents st r !! 0%nat = Some x -> vs <> [] -> x ∉ vs ->
        b = false).
Proof.
  clear growslice predicate.
  intros Hobj Hvs Hnil Heq.
  destruct (ContainsAll_run r v other vs st Hobj Hvs Hnil Heq) as (b & Hrun & Hb).
  exists b. split; [exact Hrun|]. split; [exact Hb|].
  intros x Hx Hne Hnot. destruct b; [|reflexivity]. exfalso.
  destruct (proj1 Hb eq_refl) as [_ Hperm]. apply Hnot. rewrite <- Hperm.
  destruct vs as [|y vs0]; [congruence|].
  destruct (contents st r) as [|c0 cs]; [discriminate|].
  simpl in Hx. injection Hx as ->. simpl. apply list_elem_of_here.
Qed.

(** X21. [SameValues] answers whether the two hold the same values, each as
    often as the other, in any order: when [Equals] between the values of
    the two is identity, the call leaves the store as it is and answers
    true exactly when the elements of the receiver are a rearrangement of
    the values of the other iterable. *)
Theorem SameValues_permutation (r : nat) (v : arrayObj) (other : Iterable)
    (vs : list hValue) (st : store) :
  objs st !! r = Some v -> wf_slice st (a_slice v) ->
  iterValues other st = (Ok vs, st) ->
  Forall (fun x => isGoNil x = false) vs ->
  (forall be ea : hValue, be ∈ vs -> ea ∈ contents st r ->
     (hEquals st be ea = true <-> be = ea)) ->
  exists b : bool,
    SameValues hEquals r other st = (Ok b, st)
    /\ (b = true <-> contents st r ≡ₚ vs).
Proof.
  clear growslice predicate.
  intros Hobj Hwf Hvs Hnil Heq.
  destruct (ContainsAll_run r v other vs st Hobj Hvs Hnil Heq) as (b & Hrun & Hb).
  pose proof (elems_wf_length st _ Hwf) as Hlen.
  assert (Hc : contents st r = elems st (a_slice v)).
  { unfold contents. rewrite Hobj. reflexivity. }
  unfold SameValues. rewrite (mbind_run _ _ _ _ _ (getObj_run r v st Hobj)).
  rewrite (mbind_run _ _ _ _ _ Hvs). unfold len.
  destruct (Z.of_nat (slen (a_slice v)) =? Z.of_nat (length vs)) eqn:Hn.
  - apply Z.eqb_eq in Hn. exists b. split; [exact Hrun|].
    rewrite Hb.
    assert (Hl : length vs = length (contents st r)) by (rewrite Hc, Hlen; lia).
    rewrite Hl, firstn_all.
    split; [intros [_ H]; exact H | intros H; split; [lia | exact H]].
  - apply Z.eqb_neq in Hn. exists false. split; [reflexivity|].
    split; [discriminate|]. intros Hperm. apply Permutation_length in Hperm.
    rewrite Hc, Hlen in Hperm. lia.
Qed.

End ReadingFacts.

(** ** Copy and FrozenCopy *)

Lemma extends_refl (st : store) : extends st st.
Proof. split; auto. Qed.

Lemma extends_trans (st1 st2 st3 : store) :
  extends st1 st2 -> extends st2 st3 -> extends st1 st3.
Proof. intros [H1 H2] [H3 H4]. split; auto. Qed.

Lemma extends_Frozen (st st' : store) (c : nat) :
  extends st st' -> Frozen st c = true -> Frozen st' c = true.
Proof.
  intros [Ho _]. unfold Frozen. destruct (objs st !! c) as [o|] eqn:Hc; [|discriminate].
  rewrite (Ho c o Hc). auto.
Qed.

Lemma extends_elems (st st' : store) (s : goslice) :
  extends st st' -> (ptr s < length (mem st))%nat -> elems st' s = elems st s.
Proof.
  intros [_ Hm] Hp. apply elems_backing_eq. unfold backing.
  destruct (lookup_lt_is_Some_2 (mem st) (ptr s) Hp) as [b Hb].
  rewrite Hb, (Hm _ _ Hb). reflexivity.
Qed.

Lemma lookup_incl_length {A : Type} (l l' : list A) :
  (forall (i : nat) (x : A), l !! i = Some x -> l' !! i = Some x) ->
  (length l <= length l')%nat.
Proof.
  intros H. destruct (decide (length l = 0)%nat) as [->|Hne]; [lia|].
  destruct (lookup_lt_is_Some_2 l (length l - 1) ltac:(lia)) as [x Hx].
  apply H in Hx. apply lookup_lt_Some in Hx. lia.
Qed.

Lemma extends_mem_length (st st' : store) :
  extends st st' -> (length (mem st) <= length (mem st'))%nat.
Proof. intros [_ Hm]. apply lookup_incl_length. exact Hm. Qed.

Lemma write_range_middle (pre post : list hValue) (x y : hValue) :
  write_range (pre ++ x :: post) (length pre) [y] = pre ++ y :: post.
Proof.
  unfold write_range. rewrite take_app_length. simpl.
  rewrite drop_app_ge by lia.
  replace (length pre + 1 - length pre)%nat with 1%nat by lia.
  reflexivity.
Qed.

(** The loop of a frozen copy over the cells [es] of the copy, when the
    frozen copies it asks for leave the store they find in place and
    return frozen arrays. *)
Lemma Copy_each_spec (n : nat) (cp : goslice) :
  (forall (f : nat) (st : store) (c : nat) (st' : store),
     Copy n f true st = Some (c, st') -> extends st st' /\ Frozen st' c = true) ->
  forall (es : list hValue) (i : nat) (st stE : store) (pre post : list hValue),
    mem st !! ptr cp = Some (pre ++ es ++ post) ->
    length pre = (off cp + i)%nat ->
    Copy_each (fun f => Copy n f true) cp es i st = Some stE ->
    (forall (r : nat) (o : arrayObj), objs st !! r = Some o -> objs stE !! r = Some o)
    /\ (forall (p : nat) (b : list hValue),
          p <> ptr cp -> mem st !! p = Some b -> mem stE !! p = Some b)
    /\ exists es' : list hValue,
         mem stE !! ptr cp = Some (pre ++ es' ++ post)
         /\ Forall2 (frozen_image stE) es es'.
Proof.
  intros IHn. induction es as [|e es IH]; intros i st stE pre post Hmem Hpre Hrun.
  - simpl in Hrun. injection Hrun as <-. repeat split; auto.
    exists []. split; [exact Hmem | constructor].
  - assert (Hgo : forall (y : hValue) (st2 : store),
              (forall r o, objs st !! r = Some o -> objs st2 !! r = Some o) ->
              (forall p b, p <> ptr cp -> mem st !! p = Some b -> mem st2 !! p = Some b) ->
              mem st2 !! ptr cp = Some ((pre ++ [y]) ++ es ++ post) ->
              Copy_each (fun f => Copy n f true) cp es (S i) st2 = Some stE ->
              (forall stF, (forall r o, objs st2 !! r = Some o -> objs stF !! r = Some o) ->
                           frozen_image stF e y) ->
              (forall (r : nat) (o : arrayObj),
                 objs st !! r = Some o -> objs stE !! r = Some o)
              /\ (forall (p : nat) (b : list hValue),
                    p <> ptr cp -> mem st !! p = Some b -> mem stE !! p = Some b)
              /\ exists es' : list hValue,
                   mem stE !! ptr cp = Some (pre ++ es' ++ post)
                   /\ Forall2 (frozen_image stE) (e :: es) es').
    { intros y st2 Ho2 Hm2 Hcp2 Hrun2 Himg.
      destruct (IH (S i) st2 stE (pre ++ [y]) post Hcp2
                  ltac:(rewrite length_app; simpl; lia) Hrun2)
        as (HoE & HmE & es' & HcpE & HF).
      split; [auto|]. split; [auto|].
      exists (y :: es'). split.
      - rewrite HcpE. rewrite <- app_assoc. reflexivity.
      - constructor; [apply Himg; exact HoE | exact HF]. }
    simpl in Hrun. destruct e as [|p0|f|t0].
    + apply (Hgo GoNil st); auto.
      * rewrite Hmem. rewrite <- app_assoc. reflexivity.
      * intros; reflexivity.
    + apply (Hgo (HPrim p0) st); auto.
      * rewrite Hmem. rewrite <- app_assoc. reflexivity.
      * intros; reflexivity.
    + destruct (Copy n f true st) as [[c st1]|] eqn:Hc; [|discriminate].
      destruct (IHn f st c st1 Hc) as [[Ho1 Hm1] Hfr].
      pose proof (Hm1 _ _ Hmem) as Hcp1.
      apply (Hgo (HRef c)
               (writeCells (ptr cp) (off cp + i) [HRef c] st1).2); auto.
      * intros p b Hp Hb. simpl. rewrite list_lookup_insert_ne by congruence. auto.
      * simpl. unfold backing. rewrite Hcp1. simpl.
        rewrite list_lookup_insert_eq by (eapply lookup_lt_Some; exact Hcp1).
        rewrite <- Hpre. rewrite write_range_middle.
        rewrite <- app_assoc. reflexivity.
      * intros stF HoF. simpl. exists c. split; [reflexivity|].
        unfold Frozen in *. simpl in HoF.
        destruct (objs st1 !! c) as [o|] eqn:Hoc; [|discriminate].
        rewrite (HoF c o Hoc). exact Hfr.
    + apply (Hgo (HType t0) st); auto.
      * rewrite Hmem. rewrite <- app_assoc. reflexivity.
      * intros; reflexivity.
Qed.

(** What a frozen copy is, when [Copy] returns one. *)
Lemma Copy_frozen_spec (n : nat) :
  forall (r : nat) (st : store) (c : nat) (st' : store),
    Copy n r true st = Some (c, st') ->
    extends st st' /\ Frozen st' c = true
    /\ (Frozen st r = true -> c = r /\ st' = st)
    /\ (Frozen st r = false ->
        (length (objs st) <= c)%nat
        /\ (exists v v' : arrayObj,
              objs st !! r = Some v /\ objs st' !! c = Some v'
              /\ a_typ v' = a_typ v
              /\ (length (mem st) <= ptr (a_slice v'))%nat)
        /\ Forall2 (frozen_image st') (contents st r) (contents st' c)).
Proof.
  induction n as [|n IHn]; intros r st c st' Hrun; [discriminate|].
  simpl in Hrun. destruct (objs st !! r) as [v|] eqn:Hobj; [|discriminate].
  destruct (a_frozen v) eqn:Hfr; simpl in Hrun.
  - injection Hrun as <- <-. split; [apply extends_refl|].
    unfold Frozen. rewrite Hobj. repeat split; auto; congruence.
  - set (cp := mk_goslice (length (mem st)) 0 (slen (a_slice v))) in *.
    set (es := elems st (a_slice v)) in *.
    set (st1 := mk_store (objs st) (mem st ++ [es])) in *.
    assert (He1 : elems st1 cp = es).
    { unfold elems, backing, st1, cp. simpl.
      rewrite lookup_app_r by lia. rewrite Nat.sub_diag. simpl. rewrite drop_0.
      apply take_ge. apply elems_length. }
    rewrite He1 in Hrun.
    destruct (Copy_each (fun f => Copy n f true) cp es 0 st1) as [st2|] eqn:Hloop;
      [|discriminate].
    injection Hrun as <- <-.
    assert (Hcp1 : mem st1 !! ptr cp = Some ([] ++ es ++ [])).
    { unfold st1, cp. simpl. rewrite lookup_app_r by lia.
      rewrite Nat.sub_diag, app_nil_r. reflexivity. }
    destruct (Copy_each_spec n cp
                (fun f st0 c0 st0' H => let (a, b) := IHn f st0 c0 st0' H in
                                        conj a (proj1 b))
                es 0 st1 st2 [] [] Hcp1 eq_refl Hloop)
      as (Ho2 & Hm2 & es' & Hcp2 & HF).
    simpl in Hcp2. rewrite app_nil_r in Hcp2.
    set (v' := mk_arrayObj cp (a_typ v) true).
    set (st' := mk_store (objs st2 ++ [v']) (mem st2)).
    assert (Hext2 : forall r0 o, objs st2 !! r0 = Some o -> objs st' !! r0 = Some o).
    { intros r0 o H0. unfold st'. simpl. apply lookup_app_l_Some. exact H0. }
    assert (Hext : extends st st').
    { split.
      - intros r0 o H0. apply Hext2. apply Ho2. exact H0.
      - intros p b Hb. unfold st'. simpl. apply Hm2.
        + apply lookup_lt_Some in Hb. unfold cp. simpl. lia.
        + unfold st1. simpl. apply lookup_app_l_Some. exact Hb. }
    assert (Hv' : objs st' !! length (objs st2) = Some v').
    { unfold st'. simpl. rewrite lookup_app_r by lia. rewrite Nat.sub_diag. reflexivity. }
    assert (Hlen2 : (length (objs st) <= length (objs st2))%nat).
    { apply lookup_incl_length. exact Ho2. }
    split; [exact Hext|]. split; [|split].
    + unfold Frozen. rewrite Hv'. reflexivity.
    + unfold Frozen. rewrite Hobj, Hfr. discriminate.
    + intros _. split; [exact Hlen2|]. split.
      * exists v, v'. repeat split; auto.
      * unfold contents. rewrite Hobj, Hv'. fold es.
        assert (He' : elems st' (a_slice v') = es').
        { unfold elems, backing. simpl. rewrite Hcp2. simpl. rewrite drop_0.
          apply take_ge. rewrite <- (Forall2_length _ _ _ HF). apply elems_length. }
        rewrite He'.
        eapply Forall2_impl; [exact HF|].
        intros x y Hxy. destruct x; simpl in Hxy |- *; auto.
        destruct Hxy as (c0 & Hy & Hc0). exists c0. split; [exact Hy|].
        unfold Frozen in *. destruct (objs st2 !! c0) as [o|] eqn:Hoc; [|discriminate].
        rewrite (Hext2 c0 o Hoc). exact Hc0.
Qed.

(** The loop of a frozen copy returns when the frozen copies it asks for
    return. *)
Lemma Copy_each_total (n : nat) (cp : goslice) (P : store -> Prop) (K : nat -> Prop) :
  (forall (f : nat) (st : store), P st -> K f ->
     exists (c : nat) (st' : store), Copy n f true st = Some (c, st') /\ P st') ->
  (forall (st : store) (i : nat) (y : hValue),
     P st -> P (writeCells (ptr cp) i [y] st).2) ->
  forall (es : list hValue) (i : nat) (st : store),
    P st -> (forall f : nat, HRef f ∈ es -> K f) ->
    exists stE : store,
      Copy_each (fun f => Copy n f true) cp es i st = Some stE /\ P stE.
Proof.
  intros Hcopy Hwrite. induction es as [|e es IH]; intros i st HP HK; simpl.
  - exists st. auto.
  - assert (HK' : forall f, HRef f ∈ es -> K f).
    { intros f Hf. apply HK. apply list_elem_of_further. exact Hf. }
    destruct e as [|p0|f|t0]; try (apply IH; assumption).
    destruct (Hcopy f st HP (HK f (list_elem_of_here _ _))) as (c & st1 & Hc & HP1).
    rewrite Hc. apply IH; [|exact HK']. apply Hwrite. exact HP1.
Qed.

(** X22. [FrozenCopy] returns on a store whose arrays that are not frozen hold
    no array that leads back to them: when every array has its backing
    array, and [rank] goes down from every array that is not frozen to
    the arrays it holds, a frozen copy of the array at [r] is made with
    [rank r + 1] nested calls at most. The copy is frozen; it is the
    array itself when that is frozen, and else a new array of the same
    type, over a new backing array, that holds a frozen array for every
    array the source holds and the element of the source everywhere
    else. No array and no backing array that was there is changed. *)
Theorem FrozenCopy_returns (rank : nat -> nat) (r : nat) (st : store) :
  (forall (r0 : nat) (o : arrayObj),
     objs st !! r0 = Some o -> (ptr (a_slice o) < length (mem st))%nat) ->
  (forall (r0 : nat) (o : arrayObj) (f : nat),
     objs st !! r0 = Some o -> a_frozen o = false -> HRef f ∈ elems st (a_slice o) ->
     (f < length (objs st))%nat /\ (rank f < rank r0)%nat) ->
  (r < length (objs st))%nat ->
  exists (c : nat) (st' : store),
    FrozenCopy (S (rank r)) r st = Some (c, st')
    /\ extends st st'
    /\ Frozen st' c = true
    /\ (Frozen st r = true -> c = r /\ st' = st)
    /\ (Frozen st r = false ->
        (length (objs st) <= c)%nat
        /\ (exists v v' : arrayObj,
              objs st !! r = Some v /\ objs st' !! c = Some v'
              /\ a_typ v' = a_typ v
              /\ (length (mem st) <= ptr (a_slice v'))%nat)
        /\ Forall2 (frozen_image st') (contents st r) (contents st' c)).
Proof.
  intros Hwf Hrank Hr.
  assert (Htotal : forall (n : nat) (r0 : nat) (stX : store),
            extends st stX -> (r0 < length (objs st))%nat -> (rank r0 < n)%nat ->
            exists (c : nat) (stX' : store),
              Copy n r0 true stX = Some (c, stX') /\ extends st stX').
  { induction n as [|n IHn]; intros r0 stX Hext Hr0 Hn; [lia|].
    destruct (lookup_lt_is_Some_2 _ _ Hr0) as [v Hv].
    pose proof (proj1 Hext _ _ Hv) as HvX.
    simpl. rewrite HvX.
    destruct (a_frozen v) eqn:Hfr; simpl; [exists r0, stX; auto|].
    set (cp := mk_goslice (length (mem stX)) 0 (slen (a_slice v))).
    set (es := elems stX (a_slice v)).
    set (st1 := mk_store (objs stX) (mem stX ++ [es])).
    assert (He1 : elems st1 cp = es).
    { unfold elems, backing, st1, cp. simpl.
      rewrite lookup_app_r by lia. rewrite Nat.sub_diag. simpl. rewrite drop_0.
      apply take_ge. apply elems_length. }
    rewrite He1.
    assert (Hes : es = elems st (a_slice v)).
    { unfold es. apply extends_elems; [exact Hext|]. eapply Hwf. exact Hv. }
    pose proof (extends_mem_length _ _ Hext) as Hml.
    destruct (Copy_each_total n cp
                (fun s => extends st s) (fun f => (f < length (objs st))%nat
                                                  /\ (rank f < n)%nat))
      with (es := es) (i := 0%nat) (st := st1) as (st2 & Hloop & Hext2).
    - intros f s Hs [Hf Hrf]. apply IHn; assumption.
    - intros s i y [Ho Hm]. split; [exact Ho|].
      intros p b Hb. simpl. rewrite list_lookup_insert_ne; [auto|].
      apply lookup_lt_Some in Hb. unfold cp. simpl. lia.
    - destruct Hext as [Ho Hm]. split; [exact Ho|].
      intros p b Hb. unfold st1. simpl. apply lookup_app_l_Some. auto.
    - intros f Hf. rewrite Hes in Hf.
      destruct (Hrank r0 v f Hv Hfr Hf) as [Hfl Hfr0]. split; [exact Hfl | lia].
    - rewrite Hloop. eexists _, _. split; [reflexivity|].
      destruct Hext2 as [Ho Hm]. split; [|exact Hm].
      intros r1 o H1. simpl. apply lookup_app_l_Some. auto. }
  destruct (Htotal (S (rank r)) r st (extends_refl st) Hr ltac:(lia))
    as (c & st' & Hrun & _).
  exists c, st'. split; [exact Hrun|].
  apply (Copy_frozen_spec _ _ _ _ _ Hrun).
Qed.

(** X23. [FrozenCopy] does not return on an array that is not frozen and leads
    back to itself. When each array of a set is there, is not frozen, has
    its backing array and holds an array of the set, a frozen copy of an
    array of the set is never made, however deep the calls may nest:
    [Copy] makes a frozen copy of each element before it has a copy to
    hand out, so the calls go round the arrays without end. *)
Theorem FrozenCopy_never_returns_on_cycle (S0 : nat -> Prop) (st : store) :
  (forall r : nat, S0 r ->
     exists (v : arrayObj) (f : nat),
       objs st !! r = Some v /\ a_frozen v = false
       /\ (ptr (a_slice v) < length (mem st))%nat
       /\ HRef f ∈ elems st (a_slice v) /\ S0 f) ->
  forall (fuel r : nat), S0 r -> FrozenCopy fuel r st = None.
Proof.
  intros Hcyc fuel. unfold FrozenCopy.
  assert (Hnone : forall (r : nat) (stX : store),
            S0 r -> extends st stX -> Copy fuel r true stX = None);
    [|intros r Hr; apply Hnone; [exact Hr | apply extends_refl]].
  induction fuel as [|n IHn]; intros r stX Hr Hext; [reflexivity|].
  destruct (Hcyc r Hr) as (v & f & Hv & Hfr & Hp & Hf & HSf).
  simpl. rewrite (proj1 Hext _ _ Hv). rewrite Hfr. simpl.
  set (cp := mk_goslice (length (mem stX)) 0 (slen (a_slice v))).
  set (es := elems stX (a_slice v)).
  set (st1 := mk_store (objs stX) (mem stX ++ [es])).
  assert (He1 : elems st1 cp = es).
  { unfold elems, backing, st1, cp. simpl.
    rewrite lookup_app_r by lia. rewrite Nat.sub_diag. simpl. rewrite drop_0.
    apply take_ge. apply elems_length. }
  rewrite He1.
  assert (Hes : es = elems st (a_slice v)).
  { unfold es. apply extends_elems; assumption. }
  rewrite <- Hes in Hf.
  pose proof (extends_mem_length _ _ Hext) as Hml.
  assert (Hloop : forall (l : list hValue) (i : nat) (s : store),
            extends st s -> HRef f ∈ l ->
            Copy_each (fun f0 => Copy n f0 true) cp l i s = None).
  { induction l as [|e l IHl]; intros i s Hs Hin.
    - apply elem_of_nil in Hin. contradiction.
    - simpl. apply elem_of_cons in Hin.
      destruct e as [|p0|g|t0].
      + destruct Hin as [Hin|Hin]; [discriminate | apply IHl; assumption].
      + destruct Hin as [Hin|Hin]; [discriminate | apply IHl; assumption].
      + destruct (Copy n g true s) as [[c s1]|] eqn:Hc; [|reflexivity].
        destruct Hin as [Hin|Hin].
        * injection Hin as <-. rewrite (IHn f s HSf Hs) in Hc. discriminate.
        * apply IHl; [|exact Hin].
          pose proof (proj1 (Copy_frozen_spec _ _ _ _ _ Hc)) as Hs1.
          destruct (extends_trans _ _ _ Hs Hs1) as [Ho Hm]. split; [exact Ho|].
          intros p b Hb. simpl. rewrite list_lookup_insert_ne; [auto|].
          apply lookup_lt_Some in Hb. unfold cp. simpl. lia.
      + destruct Hin as [Hin|Hin]; [discriminate | apply IHl; assumption]. }
  rewrite (Hloop es 0%nat st1); [reflexivity | | exact Hf].
  destruct Hext as [Ho Hm]. split; [exact Ho|].
  intros p b Hb. unfold st1. simpl. apply lookup_app_l_Some. auto.
Qed.

(** X24. [Copy(false)] returns with one call: a new array that is not frozen,
    whether the receiver is frozen or not, with the type and the elements
    of the receiver in a backing array of its own. Nothing that was in
    the store is changed, and from then on no run of mutating calls on
    the receiver changes the elements of the copy, and no run of mutating
    calls on the copy changes the elements of the receiver. *)
Theorem Copy_unfrozen_independent
    (growslice : nat -> nat -> nat)
    (hInstance : Typ -> store -> hValue -> result bool)
    (hEquals : store -> hValue -> hValue -> bool)
    (Parse : string -> result Value)
    (fuel : nat) (r : nat) (v : arrayObj) (st : store) :
  objs st !! r = Some v -> wf_slice st (a_slice v) ->
  exists (v' : arrayObj) (st' : store),
    Copy (S fuel) r false st = Some (length (objs st), st')
    /\ objs st' !! length (objs st) = Some v'
    /\ a_frozen v' = false /\ a_typ v' = a_typ v
    /\ ptr (a_slice v') <> ptr (a_slice v)
    /\ contents st' (length (objs st)) = contents st r
    /\ contents st' r = contents st r
    /\ extends st st'
    /\ (forall ms : list mutation,
          contents (mutateAll growslice hInstance hEquals Parse ms r st') (length (objs st))
          = contents st' (length (objs st)))
    /\ (forall ms : list mutation,
          contents (mutateAll growslice hInstance hEquals Parse ms (length (objs st)) st') r
          = contents st' r).
Proof.
  intros Hobj Hwf.
  pose proof (lookup_lt_Some _ _ _ Hobj) as Hr.
  destruct Hwf as [Hp Hb].
  destruct (lookup_lt_is_Some_2 _ _ Hp) as [b Hbk].
  set (es := elems st (a_slice v)).
  set (cp := mk_goslice (length (mem st)) 0 (slen (a_slice v))).
  set (v' := mk_arrayObj cp (a_typ v) false).
  set (st' := mk_store (objs st ++ [v']) (mem st ++ [es])).
  assert (Hrun : Copy (S fuel) r false st = Some (length (objs st), st')).
  { simpl. rewrite Hobj. reflexivity. }
  assert (Hv' : objs st' !! length (objs st) = Some v').
  { simpl. rewrite lookup_app_r by lia. rewrite Nat.sub_diag. reflexivity. }
  assert (Hv : objs st' !! r = Some v).
  { simpl. apply lookup_app_l_Some. exact Hobj. }
  assert (Hes : mem st' !! length (mem st) = Some es).
  { simpl. rewrite lookup_app_r by lia. rewrite Nat.sub_diag. reflexivity. }
  assert (Hbk' : mem st' !! ptr (a_slice v) = Some b).
  { simpl. apply lookup_app_l_Some. exact Hbk. }
  assert (Hc : contents st r = es).
  { unfold contents. rewrite Hobj. reflexivity. }
  assert (Hcc : contents st' (length (objs st)) = es).
  { unfold contents. rewrite Hv'. unfold elems, backing. cbn [a_slice v' cp ptr off slen].
    rewrite Hes. simpl. rewrite drop_0. apply take_ge. apply elems_length. }
  assert (Hcr : contents st' r = es).
  { unfold contents. rewrite Hv. apply elems_app_mem. exact Hp. }
  assert (Hne : r <> length (objs st)) by lia.
  assert (Hiso1 : isolated r (length (objs st)) v' es st').
  { split; [exact Hv'|]. split; [exact Hes|].
    intros o Ho. rewrite Hv in Ho. injection Ho as <-. simpl. lia. }
  assert (Hiso2 : isolated (length (objs st)) r v b st').
  { split; [exact Hv|]. split; [exact Hbk'|].
    intros o Ho. rewrite Hv' in Ho. injection Ho as <-. simpl. lia. }
  exists v', st'. split; [exact Hrun|]. split; [exact Hv'|].
  split; [reflexivity|]. split; [reflexivity|].
  split; [simpl; lia|]. split; [congruence|]. split; [congruence|].
  split; [|split].
  - split.
    + intros r0 o Ho. simpl. apply lookup_app_l_Some. exact Ho.
    + intros p0 b0 Hb0. simpl. apply lookup_app_l_Some. exact Hb0.
  - intros ms.
    pose proof (isolated_mutateAll growslice hInstance hEquals Parse
                  r (length (objs st)) v' es Hne ms st' Hiso1) as Hiso'.
    rewrite (isolated_contents _ _ _ _ Hne _ Hiso').
    rewrite (isolated_contents _ _ _ _ Hne _ Hiso1). reflexivity.
  - intros ms.
    pose proof (isolated_mutateAll growslice hInstance hEquals Parse
                  (length (objs st)) r v b (not_eq_sym Hne) ms st' Hiso2) as Hiso'.
    rewrite (isolated_contents _ _ _ _ (not_eq_sym Hne) _ Hiso').
    rewrite (isolated_contents _ _ _ _ (not_eq_sym Hne) _ Hiso2). reflexivity.
Qed.

(** ** AddAll and AddValues *)

Section AddAllFacts.

Variable growslice : nat -> nat -> nat.
Variable hInstance : Typ -> store -> hValue -> result bool.

Set Default Proof Using "Type".

Lemma appendEach_spec (vs : list hValue) :
  forall (s : goslice) (st : store),
    wf_slice st s ->
    exists (s' : goslice) (st' : store),
      appendEach growslice s vs st = (Ok s', st')
      /\ objs st' = objs st
      /\ wf_slice st' s'
      /\ elems st' s' = elems st s ++ vs
      /\ (length (mem st) <= length (mem st'))%nat
      /\ (forall q : nat, q <> ptr s -> (q < length (mem st))%nat ->
            backing st' q = backing st q)
      /\ take (off s + slen s) (backing st' (ptr s))
         = take (off s + slen s) (backing st (ptr s)).
Proof.
  clear hInstance.
  induction vs as [|e vs IH]; intros s st Hwf; simpl.
  - exists s, st. rewrite app_nil_r. repeat split; auto; apply Hwf.
  - destruct (append_spec growslice s [e] st Hwf)
      as (s1 & st1 & Happ & Hobjs & Hwf1 & Hlen & Hel & Hmem & Hother & _ & Htake & Hcase).
    rewrite (mbind_run _ _ _ _ _ Happ).
    destruct (IH s1 st1 Hwf1)
      as (s' & st' & Hrun & Hobjs' & Hwf' & Hel' & Hmem' & Hother' & Htake').
    exists s', st'. split; [exact Hrun|].
    destruct Hwf as [Hp Hb].
    repeat split; try apply Hwf'; try congruence; try lia.
    + rewrite Hel', Hel, <- app_assoc. reflexivity.
    + intros q Hq Hlt. rewrite Hother'; [apply Hother; assumption | | lia].
      destruct Hcase as [(Hp1 & _) | (Hp1 & _)]; rewrite Hp1; lia.
    + destruct Hcase as [(Hp1 & Ho1 & _) | (Hp1 & _)].
      * rewrite Hp1, Ho1, Hlen in Htake'. simpl in Htake'.
        rewrite <- Htake.
        apply (f_equal (take (off s + slen s))) in Htake'.
        rewrite !take_take in Htake'.
        replace ((off s + slen s) `min` (off s + (slen s + 1)))%nat
          with (off s + slen s)%nat in Htake' by lia.
        exact Htake'.
      * rewrite Hother' by lia. exact Htake.
Qed.

(** X25. [AddAll] and [AddValues] on an array that is not frozen and whose
    type accepts the values: afterwards the array holds its old elements
    followed by the values in their order, with its type and frozen flag
    as before, whether the values come from an array, from the receiver
    itself or from another iterable. Every other array is still there,
    and keeps its elements when its backing array is another one or when
    it ends no later than the array did. *)
Theorem AddAll_appends (r : nat) (v : arrayObj) (values : Iterable) (vs : list hValue)
    (st : store) :
  objs st !! r = Some v -> a_frozen v = false -> wf_slice st (a_slice v) ->
  iterValues values st = (Ok vs, st) ->
  (assertTypes hInstance r vs st).1 = Ok tt ->
  forall call : bool,
  exists (v' : arrayObj) (st' : store),
    (if call then AddAll growslice hInstance r values st
     else AddValues growslice hInstance r vs st) = (Ok tt, st')
    /\ objs st' !! r = Some v'
    /\ a_typ v' = a_typ v /\ a_frozen v' = false /\ wf_slice st' (a_slice v')
    /\ contents st' r = contents st r ++ vs
    /\ length (objs st') = length (objs st)
    /\ forall (r' : nat) (o' : arrayObj),
         r' <> r -> objs st !! r' = Some o' ->
         objs st' !! r' = Some o'
         /\ ((ptr (a_slice o') < length (mem st))%nat ->
             ptr (a_slice o') <> ptr (a_slice v) \/
             (ptr (a_slice o') = ptr (a_slice v) /\
              off (a_slice o') + slen (a_slice o') <= off (a_slice v) + slen (a_slice v))%nat ->
             contents st' r' = contents st r').
Proof.
  intros Hobj Hfr Hwf Hvs Hty call.
  pose proof (lookup_lt_Some _ _ _ Hobj) as Hr.
  assert (Hgen : exists (s' : goslice) (st1 : store),
            (if call then AddAll growslice hInstance r values st
             else AddValues growslice hInstance r vs st)
            = (Ok tt, mk_store (<[r := mk_arrayObj s' (a_typ v) false]> (objs st1)) (mem st1))
            /\ objs st1 = objs st
            /\ wf_slice st1 s'
            /\ elems st1 s' = elems st (a_slice v) ++ vs
            /\ (length (mem st) <= length (mem st1))%nat
            /\ (forall q : nat, q <> ptr (a_slice v) -> (q < length (mem st))%nat ->
                  backing st1 q = backing st q)
            /\ take (off (a_slice v) + slen (a_slice v)) (backing st1 (ptr (a_slice v)))
               = take (off (a_slice v) + slen (a_slice v)) (backing st (ptr (a_slice v)))).
  { assert (Hassert : assertTypes hInstance r vs st = (Ok tt, st)).
    { rewrite (reads_only_run _ st (reads_only_assertTypes hInstance r vs)).
      rewrite Hty. reflexivity. }
    destruct (append_spec growslice (a_slice v) vs st Hwf)
      as (s1 & st1 & Happ & Hobjs & Hwf1 & _ & Hel & Hmem & Hother & _ & Htake & _).
    destruct (appendEach_spec vs (a_slice v) st Hwf)
      as (s2 & st2 & Happ2 & Hobjs2 & Hwf2 & Hel2 & Hmem2 & Hother2 & Htake2).
    destruct call.
    - unfold AddAll. rewrite (mbind_run _ _ _ _ _ (getObj_run r v st Hobj)).
      rewrite Hfr. rewrite (mbind_run _ _ _ _ _ Hvs).
      rewrite (mbind_run _ _ _ _ _ Hassert).
      destruct values as [r0|vs0].
      + exists s1, st1. rewrite (mbind_run _ _ _ _ _ Happ).
        rewrite (setSlice_run r v s1 st1) by (rewrite Hobjs; exact Hobj).
        rewrite Hfr. repeat split; auto; apply Hwf1.
      + exists s2, st2. rewrite (mbind_run _ _ _ _ _ Happ2).
        rewrite (setSlice_run r v s2 st2) by (rewrite Hobjs2; exact Hobj).
        rewrite Hfr. repeat split; auto; apply Hwf2.
    - exists s1, st1.
      unfold AddValues. rewrite (mbind_run _ _ _ _ _ (getObj_run r v st Hobj)).
      rewrite Hfr. rewrite (mbind_run _ _ _ _ _ Hassert).
      rewrite (mbind_run _ _ _ _ _ Happ).
      rewrite (setSlice_run r v s1 st1) by (rewrite Hobjs; exact Hobj).
      rewrite Hfr. repeat split; auto; apply Hwf1. }
  destruct Hgen as (s' & st1 & Hrun & Hobjs & Hwf' & Hel & Hmem & Hother & Htake).
  set (st' := mk_store (<[r := mk_arrayObj s' (a_typ v) false]> (objs st1)) (mem st1)) in *.
  assert (Hv' : objs st' !! r = Some (mk_arrayObj s' (a_typ v) false)).
  { simpl. rewrite Hobjs. apply list_lookup_insert_eq. exact Hr. }
  exists (mk_arrayObj s' (a_typ v) false), st'.
  split; [exact Hrun|]. split; [exact Hv'|].
  repeat split; auto; try apply Hwf'.
  - unfold contents. rewrite Hv', Hobj. exact Hel.
  - simpl. rewrite Hobjs. apply length_insert.
  - simpl. rewrite Hobjs. rewrite list_lookup_insert_ne by congruence. assumption.
  - intros Hp Hcase.
    eapply contents_frame with (p := ptr (a_slice v)); eauto.
    simpl. rewrite Hobjs. rewrite list_lookup_insert_ne by congruence. assumption.
Qed.

End AddAllFacts.

(** ** Unique *)

Lemma existsb_app_l {A : Type} (f : A -> bool) (l k : list A) :
  existsb f l = true -> existsb f (l ++ k) = true.
Proof. intros H. rewrite existsb_app, H. reflexivity. Qed.

(** The loop of [Unique] from the kept elements [u]: it keeps [u] and adds
    elements of [a] in their order, each element of [a] equals a kept
    one, and no element it adds equals one kept before it. *)
Lemma unique_loop_spec (a : list Value) :
  forall u : list Value,
    exists k : list Value,
      unique_loop a u = u ++ k
      /\ k `sublist_of` a
      /\ (forall x : Value, x ∈ a -> existsb (fun e => equals x e) (u ++ k) = true)
      /\ (forall (i j : nat) (x y : Value),
            (i < j)%nat -> (length u <= j)%nat ->
            (u ++ k) !! i = Some x -> (u ++ k) !! j = Some y -> equals y x = false).
Proof.
  induction a as [|e a IH]; intros u; simpl.
  - exists []. rewrite app_nil_r. repeat split; auto.
    + intros x Hx. apply elem_of_nil in Hx. contradiction.
    + intros i j x y _ Hj _ Hy. apply lookup_lt_Some in Hy. lia.
  - destruct (existsb (fun e0 => equals e e0) u) eqn:Hex.
    + destruct (IH u) as (k & Hk & Hsub & Hall & Hdist).
      exists k. split; [exact Hk|]. split; [apply sublist_cons; exact Hsub|].
      split; [|exact Hdist].
      intros x Hx. apply elem_of_cons in Hx as [->|Hx]; [|apply Hall; exact Hx].
      apply existsb_app_l. exact Hex.
    + destruct (IH (u ++ [e])) as (k & Hk & Hsub & Hall & Hdist).
      exists (e :: k). rewrite Hk. rewrite <- app_assoc. simpl.
      split; [reflexivity|]. split; [apply sublist_skip; exact Hsub|].
      replace (u ++ e :: k) with ((u ++ [e]) ++ k) by (rewrite <- app_assoc; reflexivity).
      split.
      * intros x Hx. apply elem_of_cons in Hx as [->|Hx]; [|apply Hall; exact Hx].
        apply existsb_app_l. rewrite existsb_app. simpl.
        rewrite equals_refl. rewrite orb_true_r. reflexivity.
      * intros i j x y Hij Hj Hx Hy.
        destruct (decide (j = length u)) as [->|Hne].
        -- rewrite lookup_app_l in Hy by (rewrite length_app; simpl; lia).
           rewrite lookup_app_r in Hy by lia. rewrite Nat.sub_diag in Hy.
           injection Hy as <-.
           rewrite lookup_app_l in Hx by (rewrite length_app; simpl; lia).
           rewrite lookup_app_l in Hx by lia.
           destruct (equals e x) eqn:Hexy; [|reflexivity].
           exfalso. apply not_true_iff_false in Hex. apply Hex.
           apply existsb_exists. exists x. split; [|exact Hexy].
           apply list_elem_of_In. eapply list_elem_of_lookup_2. exact Hx.
        -- apply (Hdist i j x y); auto. rewrite length_app. simpl. lia.
Qed.

Lemma sublist_same_length {A : Type} (l k : list A) :
  l `sublist_of` k -> length l = length k -> l = k.
Proof.
  induction 1 as [|x l k Hs IH|x l k Hs IH]; simpl; intros Hlen.
  - reflexivity.
  - f_equal. apply IH. lia.
  - apply sublist_length in Hs. lia.
Qed.

(** X26. [Unique] keeps the first of the elements that equal one another. The
    array it returns has the type and the frozen flag of the receiver and
    holds elements of the receiver in the order they have there; every
    element of the receiver equals one of them, and none of them equals
    one that comes before it. When nothing is left out, the array it
    returns is the receiver. (The hash table of the source is read as
    the model of [Unique] reads it: values that are equal have the same
    hash code.) *)
Theorem array_Unique_first_occurrences (v : array) :
  typ (array_Unique v) = typ v
  /\ frozen (array_Unique v) = frozen v
  /\ slice (array_Unique v) `sublist_of` slice v
  /\ (forall x : Value, x ∈ slice v ->
        exists y : Value, y ∈ slice (array_Unique v) /\ equals x y = true)
  /\ (forall (i j : nat) (x y : Value),
        (i < j)%nat -> slice (array_Unique v) !! i = Some x ->
        slice (array_Unique v) !! j = Some y -> equals y x = false)
  /\ (length (slice (array_Unique v)) = length (slice v) -> array_Unique v = v).
Proof.
  destruct (unique_loop_spec (slice v) []) as (k & Hk & Hsub & Hall & Hdist).
  simpl in Hk, Hall, Hdist.
  assert (Hfound : forall l x, existsb (fun e => equals x e) l = true ->
                     exists y, y ∈ l /\ equals x y = true).
  { intros l x H. apply existsb_exists in H as (y & Hy & He).
    exists y. split; [apply list_elem_of_In; exact Hy | exact He]. }
  unfold array_Unique. unfold len.
  destruct (Z.of_nat (length (slice v)) <? 2) eqn:Hsmall.
  - apply Z.ltb_lt in Hsmall. repeat split; auto.
    + intros x Hx. exists x. split; [exact Hx | apply equals_refl].
    + intros i j x y Hij Hx Hy. apply lookup_lt_Some in Hy. lia.
  - rewrite Hk.
    destruct (Z.of_nat (length k) =? Z.of_nat (length (slice v))) eqn:Hsame.
    + apply Z.eqb_eq in Hsame.
      assert (Hkv : k = slice v) by (apply sublist_same_length; [exact Hsub | lia]).
      subst k. rewrite Hkv in Hall, Hdist. repeat split; auto.
      intros i j x y Hij Hx Hy. apply (Hdist i j x y); auto. lia.
    + apply Z.eqb_neq in Hsame. simpl. repeat split; auto.
      * intros i j x y Hij Hx Hy. apply (Hdist i j x y); auto. lia.
      * intros Hlen. lia.
Qed.

(** ** The meta type, once more *)

Section MetaFacts.

Variable Assignable : Typ -> Typ -> result bool.
Variable Instance : Typ -> Value -> result bool.
Variable CheckAssignableTo : Typ -> Typ -> result bool.
Variable otherAssignable : Typ -> Typ -> result bool.
Variable otherInstance : Typ -> Value -> result bool.

Set Default Proof Using "Type".

(** X27. Every meta type is an instance of its own type and is assignable from
    itself, and from a meta type only when the two are equal: the meta
    type without an operand is assignable from no meta type with one, and
    a meta type with an operand is assignable from exactly the meta types
    whose operand equals its own. A value that is no type is an instance
    of no meta type. *)
Theorem metaType_own_instance (tp : option Typ) :
  Typ_Instance Assignable Instance CheckAssignableTo otherAssignable otherInstance
    (Typ_Type (metaType tp)) (VType (metaType tp)) = Ok true
  /\ metaType_Assignable CheckAssignableTo tp (metaType tp) = Ok true
  /\ (forall otp : option Typ,
        metaType_Assignable CheckAssignableTo tp (metaType otp)
        = Ok (Typ_Equals (metaType tp) (metaType otp)))
  /\ (forall t : Typ,
        metaType_Assignable CheckAssignableTo None (metaType (Some t)) = Ok false)
  /\ (forall (p : prim) (a : array),
        metaType_Instance Assignable CheckAssignableTo otherAssignable tp (VPrim p)
        = Ok false
        /\ metaType_Instance Assignable CheckAssignableTo otherAssignable tp
             (VArray a) = Ok false).
Proof.
  repeat split.
  - destruct tp; reflexivity.
  - destruct tp as [t|]; simpl; [|reflexivity]. rewrite Typ_Equals_refl. reflexivity.
  - intros otp. destruct tp as [t|], otp as [ot|]; reflexivity.
Qed.

End MetaFacts.

(** ** Flatten *)

Lemma flattens_no_ref (st : store) (es l : list hValue) :
  flattens st es l -> Forall (fun x => isRef x = false) l.
Proof.
  induction 1 as [|a o es l1 l2 _ _ IH1 _ IH2|e es l He _ IH].
  - constructor.
  - apply Forall_app. split; assumption.
  - constructor; assumption.
Qed.

Lemma flattens_vals (st : store) (p es l : list hValue) :
  Forall (fun x => isRef x = false) p -> flattens st es l -> flattens st (p ++ es) (p ++ l).
Proof.
  intros Hp H. induction Hp as [|x p Hx _ IH]; simpl; [exact H|].
  apply flattens_val; assumption.
Qed.

Lemma Flatten_first_spec (a : list hValue) :
  forall i : nat,
    match Flatten_first a i with
    | None => Forall (fun x => isRef x = false) a
    | Some k =>
        (i <= k)%nat /\ Forall (fun x => isRef x = false) (take (k - i) a)
        /\ exists f : nat, a !! (k - i)%nat = Some (HRef f)
    end.
Proof.
  induction a as [|e a IH]; intros i; simpl; [constructor|].
  destruct (isRef e) eqn:He.
  - split; [lia|]. rewrite Nat.sub_diag. simpl. split; [constructor|].
    destruct e; try discriminate. eexists. reflexivity.
  - specialize (IH (S i)). destruct (Flatten_first a (S i)) as [k|].
    + destruct IH as (Hk & Hall & f & Hf). split; [lia|].
      replace (k - i)%nat with (S (k - S i)) by lia. simpl.
      split; [constructor; assumption | exists f; exact Hf].
    + constructor; assumption.
Qed.

Section FlattenFacts.

Variable growslice : nat -> nat -> nat.
Variable st0 : store.
Hypothesis wf0 :
  forall (r : nat) (o : arrayObj),
    objs st0 !! r = Some o -> (ptr (a_slice o) < length (mem st0))%nat.

Set Default Proof Using "Type + wf0".

(** What holds of the store and of the slice that is being filled all
    through [Flatten]: the arrays are those of [st0], the backing arrays
    of [st0] are as they were, and the slice lies within a backing array
    that [st0] did not have. *)
Local Abbreviation filling stX rc :=
  (objs stX = objs st0
   /\ le (length (mem st0)) (length (mem stX))
   /\ (forall q : nat, lt q (length (mem st0)) -> backing stX q = backing st0 q)
   /\ wf_slice stX rc /\ le (length (mem st0)) (ptr rc)).

Lemma filling_elems (stX : store) (rc : goslice) (a : nat) (o : arrayObj) :
  filling stX rc -> objs stX !! a = Some o ->
  objs st0 !! a = Some o /\ elems stX (a_slice o) = elems st0 (a_slice o).
Proof.
  intros (Ho & _ & Hb & _) Ha. rewrite Ho in Ha. split; [exact Ha|].
  apply elems_backing_eq. apply Hb. eapply wf0. exact Ha.
Qed.

Lemma filling_append (stX : store) (rc : goslice) (e : hValue) :
  filling stX rc ->
  exists (rc' : goslice) (stX' : store),
    append growslice rc [e] stX = (Ok rc', stX')
    /\ filling stX' rc' /\ elems stX' rc' = elems stX rc ++ [e].
Proof.
  intros (Ho & Hl & Hb & Hwf & Hp).
  destruct (append_spec growslice rc [e] stX Hwf)
    as (rc' & stX' & Happ & Hobjs & Hwf' & _ & Hel & Hmem & Hother & _ & _ & Hcase).
  exists rc', stX'. split; [exact Happ|]. split; [|exact Hel].
  split; [congruence|]. split; [lia|]. split; [|split; [exact Hwf'|]].
  - intros q Hq. rewrite Hother by lia. apply Hb. exact Hq.
  - destruct Hcase as [(Hp' & _) | (Hp' & _)]; rewrite Hp'; lia.
Qed.

(** The loop of [flattenElements], when the nested calls it makes keep
    what holds of the store and flatten what they are given. *)
Lemma flattenElements_each_sound
    (flatten : list hValue -> goslice -> store -> option (goslice * store)) :
  (forall (es : list hValue) (rc : goslice) (stX : store) (rc' : goslice) (stX' : store),
     flatten es rc stX = Some (rc', stX') -> filling stX rc ->
     filling stX' rc'
     /\ exists l, elems stX' rc' = elems stX rc ++ l /\ flattens st0 es l) ->
  forall (es : list hValue) (rc : goslice) (stX : store) (rc' : goslice) (stX' : store),
    flattenElements_each growslice flatten es rc stX = Some (rc', stX') ->
    filling stX rc ->
    filling stX' rc'
    /\ exists l, elems stX' rc' = elems stX rc ++ l /\ flattens st0 es l.
Proof.
  intros Hrec. induction es as [|e es IH]; intros rc stX rc' stX' Hrun Hfill.
  - simpl in Hrun. injection Hrun as <- <-. split; [exact Hfill|].
    exists []. rewrite app_nil_r. split; [reflexivity | constructor].
  - assert (Hval : isRef e = false ->
              match append growslice rc [e] stX with
              | (Ok receiver', st') =>
                  flattenElements_each growslice flatten es receiver' st'
              | (Panic _, _) => None
              end = Some (rc', stX') ->
              filling stX' rc'
              /\ exists l, elems stX' rc' = elems stX rc ++ l /\ flattens st0 (e :: es) l).
    { intros He Hrun'.
      destruct (filling_append stX rc e Hfill) as (rc1 & st1 & Happ & Hfill1 & Hel1).
      rewrite Happ in Hrun'.
      destruct (IH rc1 st1 rc' stX' Hrun' Hfill1) as (Hfill' & l & Hel & Hfl).
      split; [exact Hfill'|]. exists (e :: l). split.
      - rewrite Hel, Hel1, <- app_assoc. reflexivity.
      - apply flattens_val; assumption. }
    simpl in Hrun. destruct e as [|p0|a|t0]; try (apply Hval; [reflexivity | exact Hrun]).
    clear Hval.
    destruct (objs stX !! a) as [o|] eqn:Ha; [|discriminate].
    destruct (flatten (elems stX (a_slice o)) rc stX) as [[rc1 st1]|] eqn:Hnest;
      [|discriminate].
    destruct (Hrec _ _ _ _ _ Hnest Hfill) as (Hfill1 & l1 & Hel1 & Hfl1).
    destruct (IH rc1 st1 rc' stX' Hrun Hfill1) as (Hfill' & l2 & Hel & Hfl2).
    destruct (filling_elems stX rc a o Hfill Ha) as [Ha0 He0].
    split; [exact Hfill'|]. exists (l1 ++ l2). split.
    + rewrite Hel, Hel1, <- app_assoc. reflexivity.
    + apply flattens_ref with (o := o); [exact Ha0 | | exact Hfl2].
      rewrite <- He0. exact Hfl1.
Qed.

Lemma flattenElements_sound (fuel : nat) :
  forall (es : list hValue) (rc : goslice) (stX : store) (rc' : goslice) (stX' : store),
    flattenElements growslice fuel es rc stX = Some (rc', stX') ->
    filling stX rc ->
    filling stX' rc'
    /\ exists l, elems stX' rc' = elems stX rc ++ l /\ flattens st0 es l.
Proof.
  induction fuel as [|n IHn]; intros es rc stX rc' stX' Hrun; [discriminate|].
  simpl in Hrun. revert Hrun. apply flattenElements_each_sound. exact IHn.
Qed.

Lemma flattenElements_each_total
    (flatten : list hValue -> goslice -> store -> option (goslice * store))
    (K : nat -> Prop) :
  (forall (es : list hValue) (rc : goslice) (stX : store) (rc' : goslice) (stX' : store),
     flatten es rc stX = Some (rc', stX') -> filling stX rc -> filling stX' rc') ->
  (forall (a : nat) (o : arrayObj) (rc : goslice) (stX : store),
     K a -> objs st0 !! a = Some o -> filling stX rc ->
     exists (rc' : goslice) (stX' : store),
       flatten (elems st0 (a_slice o)) rc stX = Some (rc', stX')) ->
  forall (es : list hValue) (rc : goslice) (stX : store),
    filling stX rc ->
    (forall f : nat, HRef f ∈ es -> (f < length (objs st0))%nat /\ K f) ->
    exists (rc' : goslice) (stX' : store),
      flattenElements_each growslice flatten es rc stX = Some (rc', stX').
Proof.
  intros Hsound Hnested. induction es as [|e es IH]; intros rc stX Hfill Hrefs; simpl.
  - eexists _, _. reflexivity.
  - assert (Hrefs' : forall f, HRef f ∈ es -> (f < length (objs st0))%nat /\ K f).
    { intros f Hf. apply Hrefs. apply list_elem_of_further. exact Hf. }
    assert (Hval : exists (rc' : goslice) (stX' : store),
              match append growslice rc [e] stX with
              | (Ok receiver', st') =>
                  flattenElements_each growslice flatten es receiver' st'
              | (Panic _, _) => None
              end = Some (rc', stX')).
    { destruct (filling_append stX rc e Hfill) as (rc1 & st1 & Happ & Hfill1 & _).
      rewrite Happ. apply IH; assumption. }
    destruct e as [|p0|a|t0]; try exact Hval. clear Hval.
    destruct (Hrefs a (list_elem_of_here _ _)) as [Ha HK].
    destruct (lookup_lt_is_Some_2 _ _ Ha) as [o Ho0].
    assert (Ho : objs stX !! a = Some o).
    { destruct Hfill as (Hobjs & _). rewrite Hobjs. exact Ho0. }
    rewrite Ho.
    destruct (filling_elems stX rc a o Hfill Ho) as [_ He0]. rewrite He0.
    destruct (Hnested a o rc stX HK Ho0 Hfill) as (rc1 & st1 & Hnest).
    rewrite Hnest. apply IH; [|exact Hrefs'].
    eapply Hsound; eauto.
Qed.

(** [flattenElements] returns when [rank] goes down from every array to
    the arrays it holds. *)
Lemma flattenElements_total (rank : nat -> nat) :
  (forall (r : nat) (o : arrayObj) (f : nat),
     objs st0 !! r = Some o -> HRef f ∈ elems st0 (a_slice o) ->
     (f < length (objs st0))%nat /\ (rank f < rank r)%nat) ->
  forall (n : nat) (es : list hValue) (rc : goslice) (stX : store),
    filling stX rc ->
    (forall f : nat, HRef f ∈ es -> (f < length (objs st0))%nat /\ (rank f < n)%nat) ->
    exists (rc' : goslice) (stX' : store),
      flattenElements growslice (S n) es rc stX = Some (rc', stX').
Proof.
  intros Hrank. induction n as [|n IHn]; intros es rc stX Hfill Hrefs; simpl.
  - apply (flattenElements_each_total _ (fun f => (rank f < 0)%nat)); auto.
    + discriminate.
    + intros a o rc0 stX0 Hlt. lia.
  - apply (flattenElements_each_total _ (fun f => (rank f < S n)%nat)); auto.
    + intros es0 rc0 stX0 rc' stX' Hrun Hf.
      apply (flattenElements_sound (S n) _ _ _ _ _ Hrun Hf).
    + intros a o rc0 stX0 Hlt Ho Hf. apply IHn; [exact Hf|].
      intros f Hin. destruct (Hrank a o f Ho Hin) as [Hf1 Hf2]. split; [exact Hf1 | lia].
Qed.

(** [flattenElements] does not return on elements that hold an array of a
    set whose arrays each hold an array of the set. *)
Lemma flattenElements_cycle (S0 : nat -> Prop) :
  (forall r : nat, S0 r ->
     exists (v : arrayObj) (f : nat),
       objs st0 !! r = Some v /\ HRef f ∈ elems st0 (a_slice v) /\ S0 f) ->
  forall (fuel : nat) (es : list hValue) (rc : goslice) (stX : store),
    filling stX rc ->
    (exists f : nat, HRef f ∈ es /\ S0 f) ->
    flattenElements growslice fuel es rc stX = None.
Proof.
  intros Hcyc. induction fuel as [|n IHn]; [reflexivity|]. simpl.
  induction es as [|e es IHes]; intros rc stX Hfill (f & Hf & HS).
  - apply elem_of_nil in Hf. contradiction.
  - simpl. apply elem_of_cons in Hf.
    assert (Hval : isRef e = false ->
              match append growslice rc [e] stX with
              | (Ok receiver', st') =>
                  flattenElements_each growslice (flattenElements growslice n)
                    es receiver' st'
              | (Panic _, _) => None
              end = None).
    { intros He.
      destruct (filling_append stX rc e Hfill) as (rc1 & st1 & Happ & Hfill1 & _).
      rewrite Happ. apply IHes; [exact Hfill1|].
      destruct Hf as [Hf|Hf]; [subst e; discriminate|]. exists f. auto. }
    destruct e as [|p0|a|t0]; try (apply Hval; reflexivity). clear Hval.
    destruct (objs stX !! a) as [o|] eqn:Ha; [|reflexivity].
    destruct (flattenElements growslice n (elems stX (a_slice o)) rc stX)
      as [[rc1 st1]|] eqn:Hnest; [|reflexivity].
    destruct (flattenElements_sound _ _ _ _ _ _ Hnest Hfill) as (Hfill1 & _).
    destruct Hf as [Hf|Hf].
    + injection Hf as <-. exfalso.
      destruct (Hcyc f HS) as (v & g & Hv & Hg & HSg).
      destruct (filling_elems stX rc f o Hfill Ha) as [Ho0 He0].
      rewrite Hv in Ho0. injection Ho0 as ->.
      rewrite (IHn (elems stX (a_slice o)) rc stX Hfill) in Hnest; [discriminate|].
      exists g. rewrite He0. auto.
    + apply IHes; [exact Hfill1|]. exists f. auto.
Qed.

End FlattenFacts.

Set Default Proof Using "Type".

(** The slice [Flatten] starts from: the elements before the first array,
    in a backing array of twice the length of the receiver. *)
Lemma Flatten_start (st : store) (a : list hValue) (k : nat) :
  (k < length a)%nat ->
  let fs := mk_goslice (length (mem st)) 0 k in
  let st1 := mk_store (objs st) (mem st ++ [take k a ++ replicate (2 * length a - k) GoNil]) in
  alloc (take k a ++ replicate (2 * length a - k) GoNil) k st = (Ok fs, st1)
  /\ (objs st1 = objs st
      /\ (length (mem st) <= length (mem st1))%nat
      /\ (forall q : nat, (q < length (mem st))%nat -> backing st1 q = backing st q)
      /\ wf_slice st1 fs /\ (length (mem st) <= ptr fs)%nat)
  /\ elems st1 fs = take k a.
Proof.
  intros Hk fs st1. split; [reflexivity|].
  assert (Hb : backing st1 (length (mem st))
               = take k a ++ replicate (2 * length a - k) GoNil).
  { unfold backing, st1. simpl. rewrite lookup_app_r by lia.
    rewrite Nat.sub_diag. reflexivity. }
  split; [|].
  - split; [reflexivity|]. split; [simpl; rewrite length_app; lia|].
    split; [|split].
    + intros q Hq. unfold backing, st1. simpl. rewrite lookup_app_l by exact Hq.
      reflexivity.
    + split; simpl; [rewrite length_app; simpl; lia|].
      rewrite Hb. rewrite length_app, length_take, length_replicate. lia.
    + simpl. lia.
  - unfold elems. cbn [fs ptr off slen]. rewrite Hb, drop_0.
    rewrite take_app_le by (rewrite length_take; lia).
    rewrite take_take. f_equal. lia.
Qed.

(** X28. [Flatten] returns on arrays that do not lead back to themselves,
    and changes nothing that exists. When every array has its backing
    array and [rank] goes down from every array to the arrays it holds,
    [Flatten] of the array at [r] returns with [rank r + 1] nested calls
    at most. The array it returns holds the elements of the receiver
    with every array among them, and within these, replaced by its
    elements, so it holds no array; it has the frozen flag of the
    receiver. It is the receiver itself, with the store as it was, when
    the receiver holds no array, and otherwise a new array without a
    type over a new backing array. Every array and every backing array
    that was there is still there, as it was. *)
Theorem Flatten_returns (growslice : nat -> nat -> nat) (rank : nat -> nat)
    (r : nat) (st : store) :
  (forall (r0 : nat) (o : arrayObj),
     objs st !! r0 = Some o -> (ptr (a_slice o) < length (mem st))%nat) ->
  (forall (r0 : nat) (o : arrayObj) (f : nat),
     objs st !! r0 = Some o -> HRef f ∈ elems st (a_slice o) ->
     (f < length (objs st))%nat /\ (rank f < rank r0)%nat) ->
  (r < length (objs st))%nat ->
  exists (r' : nat) (st' : store),
    Flatten growslice (S (rank r)) r st = Some (r', st')
    /\ extends st st'
    /\ flattens st (contents st r) (contents st' r')
    /\ Forall (fun x => isRef x = false) (contents st' r')
    /\ Frozen st' r' = Frozen st r
    /\ (Forall (fun x => isRef x = false) (contents st r) -> r' = r /\ st' = st)
    /\ (Exists (fun x => isRef x = true) (contents st r) ->
        r' = length (objs st)
        /\ exists v' : arrayObj,
             objs st' = objs st ++ [v'] /\ a_typ v' = None
             /\ (length (mem st) <= ptr (a_slice v'))%nat).
Proof.
  intros Hwf Hrank Hr.
  destruct (lookup_lt_is_Some_2 _ _ Hr) as [v Hv].
  assert (Hc : contents st r = elems st (a_slice v)).
  { unfold contents. rewrite Hv. reflexivity. }
  rewrite Hc. set (a := elems st (a_slice v)) in *.
  unfold Flatten. rewrite Hv. fold a.
  pose proof (Flatten_first_spec a 0) as Hfirst.
  destruct (Flatten_first a 0) as [k|].
  - destruct Hfirst as (_ & Hbefore & f & Hf). rewrite Nat.sub_0_r in Hbefore, Hf.
    pose proof (lookup_lt_Some _ _ _ Hf) as Hk.
    destruct (Flatten_start st a k Hk) as (Halloc & Hfill & Hfs).
    rewrite Halloc.
    set (fs := mk_goslice (length (mem st)) 0 k) in *.
    set (st1 := mk_store (objs st)
                  (mem st ++ [take k a ++ replicate (2 * length a - k) GoNil])) in *.
    destruct (flattenElements_total growslice st Hwf rank Hrank (rank r) (drop k a) fs st1
                Hfill) as (rc' & st2 & Hrun).
    { intros g Hg. apply (Hrank r v g Hv). fold a.
      rewrite <- (take_drop k a). apply elem_of_app. right. exact Hg. }
    rewrite Hrun.
    destruct (flattenElements_sound growslice st Hwf _ _ _ _ _ _ Hrun Hfill)
      as ((Hobjs & Hlen & Hback & Hwf' & Hp') & l & Hel & Hfl).
    rewrite Hfs in Hel.
    set (v' := mk_arrayObj rc' None (a_frozen v)).
    set (st' := mk_store (objs st2 ++ [v']) (mem st2)).
    assert (Hv' : objs st' !! length (objs st2) = Some v').
    { unfold st'. simpl. rewrite lookup_app_r by lia. rewrite Nat.sub_diag. reflexivity. }
    assert (Hc' : contents st' (length (objs st2)) = take k a ++ l).
    { unfold contents. rewrite Hv'. exact Hel. }
    exists (length (objs st2)), st'. split; [reflexivity|].
    split; [|split; [|split; [|split; [|split]]]].
    + split.
      * intros r0 o Ho. unfold st'. simpl. apply lookup_app_l_Some.
        rewrite Hobjs. exact Ho.
      * intros p b Hb. unfold st'. simpl.
        pose proof (lookup_lt_Some _ _ _ Hb) as Hplt.
        destruct (lookup_lt_is_Some_2 (mem st2) p ltac:(lia)) as [b' Hb'].
        pose proof (Hback p Hplt) as Heq. unfold backing in Heq.
        rewrite Hb, Hb' in Heq. simpl in Heq. rewrite Hb'. f_equal. exact Heq.
    + rewrite Hc'. rewrite <- (take_drop k a) at 1.
      apply flattens_vals; assumption.
    + rewrite Hc'. apply Forall_app. split; [exact Hbefore|].
      eapply flattens_no_ref. exact Hfl.
    + unfold Frozen. rewrite Hv', Hv. reflexivity.
    + intros Hall. exfalso. rewrite Forall_forall in Hall.
      pose proof (Hall _ (list_elem_of_lookup_2 _ _ _ Hf)) as Hno. discriminate.
    + intros _. split; [congruence|]. exists v'. split; [|split].
      * unfold st'. simpl. rewrite Hobjs. reflexivity.
      * reflexivity.
      * exact Hp'.
  - exists r, st. split; [reflexivity|]. rewrite Hc. fold a.
    split; [apply extends_refl|]. split; [|split; [exact Hfirst|split; [reflexivity|split]]].
    + rewrite <- (app_nil_r a). apply flattens_vals; [exact Hfirst | constructor].
    + auto.
    + intros Hex. exfalso. apply Exists_exists in Hex as (x & Hx & Hxr).
      rewrite Forall_forall in Hfirst. rewrite (Hfirst x Hx) in Hxr. discriminate.
Qed.

(** X29. [Flatten] does not return on an array that leads back to itself.
    When every array has its backing array, and each array of a set is
    there and holds an array of the set (an array that holds itself, two
    arrays that hold each other), [Flatten] of an array of the set never
    returns, however deep the calls may nest, whether the arrays are
    frozen or not. *)
Theorem Flatten_never_returns_on_cycle (growslice : nat -> nat -> nat)
    (S0 : nat -> Prop) (st : store) :
  (forall (r0 : nat) (o : arrayObj),
     objs st !! r0 = Some o -> (ptr (a_slice o) < length (mem st))%nat) ->
  (forall r : nat, S0 r ->
     exists (v : arrayObj) (f : nat),
       objs st !! r = Some v /\ HRef f ∈ elems st (a_slice v) /\ S0 f) ->
  forall (fuel r : nat), S0 r -> Flatten growslice fuel r st = None.
Proof.
  intros Hwf Hcyc fuel r Hr.
  destruct (Hcyc r Hr) as (v & f & Hv & Hf & HSf).
  unfold Flatten. rewrite Hv. set (a := elems st (a_slice v)) in *.
  pose proof (Flatten_first_spec a 0) as Hfirst.
  destruct (Flatten_first a 0) as [k|].
  - destruct Hfirst as (_ & Hbefore & g & Hg). rewrite Nat.sub_0_r in Hbefore, Hg.
    pose proof (lookup_lt_Some _ _ _ Hg) as Hk.
    destruct (Flatten_start st a k Hk) as (Halloc & Hfill & _).
    rewrite Halloc.
    rewrite (flattenElements_cycle growslice st Hwf S0 Hcyc fuel (drop k a) _ _ Hfill);
      [reflexivity|].
    exists f. split; [|exact HSf].
    rewrite <- (take_drop k a) in Hf. apply elem_of_app in Hf as [Hf|Hf]; [|exact Hf].
    exfalso. rewrite Forall_forall in Hbefore.
    pose proof (Hbefore _ Hf) as Hno. discriminate.
  - exfalso. rewrite Forall_forall in Hfirst.
    pose proof (Hfirst _ Hf) as Hno. discriminate.
Qed.

(** * Runs on the example stores *)

(** [Add] of [5] to array [0] of the example store. *)
Lemma Add_appends_witness :
  exists (v' : arrayObj) (st' : store),
    Add example_growslice example_instance 0 (HPrim (intVal 5)) example_store = (Ok tt, st')
    /\ objs st' !! 0%nat = Some v'
    /\ contents st' 0 = [HPrim (intVal 1); HRef 1; HPrim (intVal 3); HPrim (intVal 5)].
Proof.
  destruct (Add_appends example_growslice example_instance 0
              (mk_arrayObj (mk_goslice 0 0 3) None false) (HPrim (intVal 5)) example_store
              eq_refl eq_refl ltac:(split; simpl; lia) eq_refl)
    as (v' & st' & Hrun & Hv' & _ & _ & _ & Hc & _).
  exists v', st'. split; [exact Hrun|]. split; [exact Hv' | exact Hc].
Defined.

(** [Remove] at [1] from array [0] of the example store. *)
Lemma Remove_removes_witness :
  exists (x : hValue) (v' : arrayObj) (st' : store),
    Remove 0 1 example_store = (Ok x, st')
    /\ [HPrim (intVal 1); HRef 1; HPrim (intVal 3)] !! 1%nat = Some x
    /\ contents st' 0 = [HPrim (intVal 1); HPrim (intVal 3)].
Proof.
  destruct (Remove_removes 0 (mk_arrayObj (mk_goslice 0 0 3) None false) 1 example_store
              eq_refl eq_refl ltac:(split; simpl; lia) ltac:(simpl; lia) I)
    as (x & v' & st' & Hrun & Hx & Hc & _).
  exists x, v', st'. split; [exact Hrun|]. split; [exact Hx | exact Hc].
Defined.

(** [Add] of [5] to array [0] of the example store, and then [Pop]. *)
Lemma Add_then_Pop_witness :
  exists st1 st2 : store,
    Add example_growslice example_instance 0 (HPrim (intVal 5)) example_store = (Ok tt, st1)
    /\ Pop 0 st1 = (Ok (HPrim (intVal 5), true), st2)
    /\ contents st2 0 = [HPrim (intVal 1); HRef 1; HPrim (intVal 3)].
Proof.
  destruct (Add_then_Pop example_growslice example_instance 0
              (mk_arrayObj (mk_goslice 0 0 3) None false) (HPrim (intVal 5)) example_store
              eq_refl eq_refl ltac:(split; simpl; lia) eq_refl I)
    as (st1 & st2 & Hadd & Hpop & Hc & _).
  exists st1, st2. split; [exact Hadd|]. split; [exact Hpop | exact Hc].
Defined.

(** [IndexOf] of [3] in array [0] of the example store. *)
Lemma IndexOf_first_witness :
  exists i : Z,
    IndexOf example_equals 0 (HPrim (intVal 3)) example_store = (Ok i, example_store)
    /\ (i = -1 /\ Forall (fun e => example_equals example_store (HPrim (intVal 3)) e = false)
                    (contents example_store 0)
        \/ exists x : hValue,
             0 <= i /\ contents example_store 0 !! Z.to_nat i = Some x
             /\ example_equals example_store (HPrim (intVal 3)) x = true
             /\ Forall (fun e => example_equals example_store (HPrim (intVal 3)) e = false)
                  (take (Z.to_nat i) (contents example_store 0))).
Proof.
  exact (IndexOf_first example_equals 0 (mk_arrayObj (mk_goslice 0 0 3) None false)
           (HPrim (intVal 3)) example_store eq_refl).
Defined.

(** [RemoveValue] of [1] from array [2] of the typed example store, which
    is [[2, 1]]. *)
Lemma RemoveValue_removes_first_witness :
  exists st' : store,
    RemoveValue example_equals 2 (HPrim (intVal 1)) example_typed = (Ok true, st')
    /\ contents st' 2 = [HPrim (intVal 2)].
Proof.
  destruct (RemoveValue_removes_first example_equals 2
              (mk_arrayObj (mk_goslice 2 0 2) None false)
              (HPrim (intVal 1)) (HPrim (intVal 1)) [HPrim (intVal 2)] [] example_typed
              eq_refl eq_refl ltac:(split; simpl; lia) eq_refl
              ltac:(repeat constructor) eq_refl eq_refl I)
    as (st' & Hrun & Hc & _).
  exists st'. split; [exact Hrun | exact Hc].
Defined.

(** [Insert] of [5] at [1] into array [0] of the example store. *)
Lemma Insert_inserts_witness :
  exists (v' : arrayObj) (st' : store),
    Insert example_growslice example_instance 0 1 (HPrim (intVal 5)) example_store
    = (Ok tt, st')
    /\ objs st' !! 0%nat = Some v'
    /\ contents st' 0 = [HPrim (intVal 1); HPrim (intVal 5); HRef 1; HPrim (intVal 3)].
Proof.
  destruct (Insert_inserts example_growslice example_instance 0
              (mk_arrayObj (mk_goslice 0 0 3) None false) 1 (HPrim (intVal 5)) example_store
              eq_refl eq_refl ltac:(split; simpl; lia) ltac:(simpl; lia) eq_refl)
    as (v' & st' & Hrun & Hv' & _ & _ & _ & Hc & _).
  exists v', st'. split; [exact Hrun|]. split; [exact Hv' | exact Hc].
Defined.

(** Array [0] of the typed example store has the two elements its type
    allows: [Add] of [5] panics, [Insert] of [5] at [0] makes it three. *)
Lemma Insert_unchecked_size_witness :
  Max (sizedArrayType DefaultAnyType 0 2) = Ok 2
  /\ Add example_growslice example_instance 0 (HPrim (intVal 5)) example_typed
     = (Panic IllegalSize, example_typed)
  /\ exists (v' : arrayObj) (st' : store),
       Insert example_growslice example_instance 0 0 (HPrim (intVal 5)) example_typed
       = (Ok tt, st')
       /\ objs st' !! 0%nat = Some v'
       /\ a_typ v' = Some (sizedArrayType DefaultAnyType 0 2)
       /\ Z.of_nat (length (contents st' 0)) = 3.
Proof.
  split; [reflexivity|].
  destruct (Insert_unchecked_size example_growslice example_instance 0
              (mk_arrayObj (mk_goslice 0 0 2) (Some (sizedArrayType DefaultAnyType 0 2)) false)
              (sizedArrayType DefaultAnyType 0 2) DefaultAnyType 0 (HPrim (intVal 5))
              example_typed
              eq_refl eq_refl ltac:(split; simpl; lia) eq_refl eq_refl
              ltac:(unfold MaxInt64; simpl; lia) ltac:(simpl; lia) eq_refl eq_refl)
    as (Hadd & v' & st' & Hrun & Hv' & Ht & Hn & _).
  split; [exact Hadd|].
  exists v', st'. split; [exact Hrun|]. split; [exact Hv'|]. split; [exact Ht | exact Hn].
Defined.

(** [Set] of [5] at [1] in array [0] of the example store. *)
Lemma Set_replaces_witness :
  exists (x : hValue) (st' : store),
    Set_ example_instance 0 1 (HPrim (intVal 5)) example_store = (Ok x, st')
    /\ contents example_store 0 !! 1%nat = Some x
    /\ contents st' 0 = [HPrim (intVal 1); HPrim (intVal 5); HPrim (intVal 3)].
Proof.
  destruct (Set_replaces example_instance 0
              (mk_arrayObj (mk_goslice 0 0 3) None false) 1 (HPrim (intVal 5)) example_store
              eq_refl eq_refl ltac:(split; simpl; lia) ltac:(simpl; lia) eq_refl)
    as (x & st' & Hrun & Hx & Hc & _).
  exists x, st'. split; [exact Hrun|]. split; [exact Hx | exact Hc].
Defined.

(** [With] of [5] on array [0] of the example store. *)
Lemma With_appends_witness :
  exists (v' : arrayObj) (st' : store),
    With example_growslice example_instance 0 (HPrim (intVal 5)) example_store
    = (Ok 2%nat, st')
    /\ contents st' 2 = [HPrim (intVal 1); HRef 1; HPrim (intVal 3); HPrim (intVal 5)]
    /\ contents st' 0 = [HPrim (intVal 1); HRef 1; HPrim (intVal 3)].
Proof.
  destruct (With_appends example_growslice example_instance 0
              (mk_arrayObj (mk_goslice 0 0 3) None false) (HPrim (intVal 5)) example_store
              eq_refl ltac:(split; simpl; lia) eq_refl)
    as (v' & st' & Hrun & _ & _ & _ & _ & Hc & Hc0 & _).
  exists v', st'. split; [exact Hrun|]. split; [exact Hc | exact Hc0].
Defined.

(** On the frozen example store, [Slice(0, 1)] of array [0] and [With] of
    [5] on that slice: array [0], frozen, then holds [5] at position [1]. *)
Lemma With_overwrites_frozen_source_witness :
  exists (r1 r2 : nat) (st1 st2 : store),
    Slice 0 0 1 example_frozen = (Ok r1, st1)
    /\ With example_growslice example_instance r1 (HPrim (intVal 5)) st1 = (Ok r2, st2)
    /\ Frozen st2 0 = true
    /\ contents example_frozen 0 = [HPrim (intVal 1); HRef 1; HPrim (intVal 3)]
    /\ contents st2 0 = [HPrim (intVal 1); HPrim (intVal 5); HPrim (intVal 3)].
Proof.
  destruct (With_overwrites_frozen_source example_growslice example_instance 0
              (mk_arrayObj (mk_goslice 0 0 3) None true) 0 1 (HPrim (intVal 5))
              example_frozen
              eq_refl eq_refl ltac:(split; simpl; lia) ltac:(lia) ltac:(lia)
              ltac:(simpl; lia))
    as (r1 & r2 & st1 & st2 & HS & _ & HW & _ & Hfr & _ & Hc).
  exists r1, r2, st1, st2. split; [exact HS|]. split; [exact HW|].
  split; [exact Hfr|]. split; [reflexivity | exact Hc].
Defined.

(** [Insert] at [7] into array [0] of the example store panics, and the
    store is the example store still. *)
Lemma mutation_panic_leaves_store_witness :
  (mutate example_growslice example_instance example_equals example_parse
     (MInsert 7 (HPrim (intVal 5))) 0 example_store).1
  = Panic (RuntimeError "slice bounds out of range")
  /\ (mutate example_growslice example_instance example_equals example_parse
        (MInsert 7 (HPrim (intVal 5))) 0 example_store).2 = example_store.
Proof.
  split; [reflexivity|].
  exact (mutation_panic_leaves_store example_growslice example_instance example_equals
           example_parse (MInsert 7 (HPrim (intVal 5))) 0 example_store
           (RuntimeError "slice bounds out of range") eq_refl).
Defined.

(** [Select] and [Reject] on array [0] of the example store, with the
    predicate that holds for [1]. *)
Lemma Select_Reject_filter_witness :
  (exists (v' : arrayObj) (st' : store),
     Select example_growslice example_predicate 0 example_store = (Ok 2%nat, st')
     /\ objs st' = objs example_store ++ [v']
     /\ contents st' 2 = [HPrim (intVal 1)])
  /\ (exists (v' : arrayObj) (st' : store),
        Reject example_growslice example_predicate 0 example_store = (Ok 2%nat, st')
        /\ objs st' = objs example_store ++ [v']
        /\ contents st' 2 = [HRef 1; HPrim (intVal 3)]).
Proof.
  split.
  - destruct (Select_Reject_filter example_growslice example_predicate 0
                (mk_arrayObj (mk_goslice 0 0 3) None false) example_store eq_refl true)
      as (v' & st' & Hrun & Hobjs & Hc & _).
    exists v', st'. split; [exact Hrun|]. split; [exact Hobjs | exact Hc].
  - destruct (Select_Reject_filter example_growslice example_predicate 0
                (mk_arrayObj (mk_goslice 0 0 3) None false) example_store eq_refl false)
      as (v' & st' & Hrun & Hobjs & Hc & _).
    exists v', st'. split; [exact Hrun|]. split; [exact Hobjs | exact Hc].
Defined.

(** [All], [Any] and [One] on array [0] of the example store, with the
    predicate that holds for [1]. *)
Lemma All_Any_One_count_witness :
  exists b_all b_any b_one : bool,
    All example_predicate 0 example_store = (Ok b_all, example_store)
    /\ Any example_predicate 0 example_store = (Ok b_any, example_store)
    /\ One example_predicate 0 example_store = (Ok b_one, example_store)
    /\ (b_one = true
        <-> length (filter (fun e => example_predicate e = true)
                      (contents example_store 0)) = 1%nat).
Proof.
  destruct (All_Any_One_count example_predicate 0
              (mk_arrayObj (mk_goslice 0 0 3) None false) example_store eq_refl)
    as (b_all & b_any & b_one & Hall & Hany & Hone & _ & _ & Hcount).
  exists b_all, b_any, b_one. repeat split; try assumption; apply Hcount.
Defined.

Lemma example_equals_ints (i j : Z) (st : store) :
  example_equals st (HPrim (intVal i)) (HPrim (intVal j)) = true
  <-> HPrim (intVal i) = HPrim (intVal j).
Proof.
  simpl. rewrite Z.eqb_eq. split; [intros ->; reflexivity | intros H; congruence].
Qed.

Lemma example_typed_identity (l k : list hValue) :
  Forall (fun x => exists i : Z, x = HPrim (intVal i)) l ->
  Forall (fun x => exists i : Z, x = HPrim (intVal i)) k ->
  forall be ea : hValue, be ∈ l -> ea ∈ k ->
    (example_equals example_typed be ea = true <-> be = ea).
Proof.
  intros Hl Hk be ea Hbe Hea.
  rewrite Forall_forall in Hl, Hk.
  destruct (Hl be Hbe) as [i ->]. destruct (Hk ea Hea) as [j ->].
  apply example_equals_ints.
Qed.

(** On the typed example store, array [0] is [[1, 2]], array [1] is [[3]]
    and array [2] is [[2, 1]]: [ContainsAll] of array [1] on array [0]
    compares [[1]] with [[3]]. *)
Lemma ContainsAll_compares_prefix_witness :
  exists b : bool,
    ContainsAll example_equals 0 (IterArray 1) example_typed = (Ok b, example_typed)
    /\ (b = true
        <-> (1 <= 2)%nat /\ [HPrim (intVal 1)] ≡ₚ [HPrim (intVal 3)]).
Proof.
  destruct (ContainsAll_compares_prefix example_equals 0
              (mk_arrayObj (mk_goslice 0 0 2) (Some (sizedArrayType DefaultAnyType 0 2)) false)
              (IterArray 1) [HPrim (intVal 3)] example_typed
              eq_refl eq_refl ltac:(repeat constructor)
              (example_typed_identity [HPrim (intVal 3)]
                 [HPrim (intVal 1); HPrim (intVal 2)]
                 ltac:(repeat constructor; eexists; reflexivity)
                 ltac:(repeat constructor; eexists; reflexivity)))
    as (b & Hrun & Hb & _).
  exists b. split; [exact Hrun | exact Hb].
Defined.

(** [SameValues] of array [2], which is [[2, 1]], on array [0], which is
    [[1, 2]]. *)
Lemma SameValues_permutation_witness :
  exists b : bool,
    SameValues example_equals 0 (IterArray 2) example_typed = (Ok b, example_typed)
    /\ (b = true
        <-> [HPrim (intVal 1); HPrim (intVal 2)] ≡ₚ [HPrim (intVal 2); HPrim (intVal 1)]).
Proof.
  destruct (SameValues_permutation example_equals 0
              (mk_arrayObj (mk_goslice 0 0 2) (Some (sizedArrayType DefaultAnyType 0 2)) false)
              (IterArray 2) [HPrim (intVal 2); HPrim (intVal 1)] example_typed
              eq_refl ltac:(split; simpl; lia) eq_refl ltac:(repeat constructor)
              (example_typed_identity [HPrim (intVal 2); HPrim (intVal 1)]
                 [HPrim (intVal 1); HPrim (intVal 2)]
                 ltac:(repeat constructor; eexists; reflexivity)
                 ltac:(repeat constructor; eexists; reflexivity)))
    as (b & Hrun & Hb).
  exists b. split; [exact Hrun | exact Hb].
Defined.

(** [AddAll] of array [0] of the example store to itself, and [AddValues]
    of the same values. *)
Lemma AddAll_appends_witness :
  (exists (v' : arrayObj) (st' : store),
     AddAll example_growslice example_instance 0 (IterArray 0) example_store = (Ok tt, st')
     /\ objs st' !! 0%nat = Some v'
     /\ contents st' 0
        = [HPrim (intVal 1); HRef 1; HPrim (intVal 3);
           HPrim (intVal 1); HRef 1; HPrim (intVal 3)])
  /\ (exists (v' : arrayObj) (st' : store),
        AddValues example_growslice example_instance 0
          [HPrim (intVal 1); HRef 1; HPrim (intVal 3)] example_store = (Ok tt, st')
        /\ objs st' !! 0%nat = Some v'
        /\ contents st' 0
           = [HPrim (intVal 1); HRef 1; HPrim (intVal 3);
              HPrim (intVal 1); HRef 1; HPrim (intVal 3)]).
Proof.
  split.
  - destruct (AddAll_appends example_growslice example_instance 0
                (mk_arrayObj (mk_goslice 0 0 3) None false) (IterArray 0)
                [HPrim (intVal 1); HRef 1; HPrim (intVal 3)] example_store
                eq_refl eq_refl ltac:(split; simpl; lia) eq_refl eq_refl true)
      as (v' & st' & Hrun & Hv' & _ & _ & _ & Hc & _).
    exists v', st'. split; [exact Hrun|]. split; [exact Hv' | exact Hc].
  - destruct (AddAll_appends example_growslice example_instance 0
                (mk_arrayObj (mk_goslice 0 0 3) None false) (IterArray 0)
                [HPrim (intVal 1); HRef 1; HPrim (intVal 3)] example_store
                eq_refl eq_refl ltac:(split; simpl; lia) eq_refl eq_refl false)
      as (v' & st' & Hrun & Hv' & _ & _ & _ & Hc & _).
    exists v', st'. split; [exact Hrun|]. split; [exact Hv' | exact Hc].
Defined.

(** [Copy(false)] of array [0] of the example store. *)
Lemma Copy_unfrozen_independent_witness :
  exists (v' : arrayObj) (st' : store),
    Copy 1 0 false example_store = Some (2%nat, st')
    /\ objs st' !! 2%nat = Some v'
    /\ a_frozen v' = false
    /\ contents st' 2 = [HPrim (intVal 1); HRef 1; HPrim (intVal 3)]
    /\ (forall ms : list mutation,
          contents (mutateAll example_growslice example_instance example_equals
                      example_parse ms 0 st') 2
          = contents st' 2).
Proof.
  destruct (Copy_unfrozen_independent example_growslice example_instance example_equals
              example_parse 0 0 (mk_arrayObj (mk_goslice 0 0 3) None false) example_store
              eq_refl ltac:(split; simpl; lia))
    as (v' & st' & Hrun & Hv' & Hfr & _ & _ & Hc & _ & _ & Hiso & _).
  exists v', st'. split; [exact Hrun|]. split; [exact Hv'|]. split; [exact Hfr|].
  split; [exact Hc | exact Hiso].
Defined.

Lemma example_nested_wf (r0 : nat) (o : arrayObj) :
  objs example_nested !! r0 = Some o -> (ptr (a_slice o) < length (mem example_nested))%nat.
Proof.
  destruct r0 as [|[|r0]]; simpl; intros H; try discriminate;
    injection H as <-; simpl; lia.
Qed.

Lemma example_nested_rank (r0 : nat) (o : arrayObj) (f : nat) :
  objs example_nested !! r0 = Some o -> a_frozen o = false ->
  HRef f ∈ elems example_nested (a_slice o) ->
  (f < length (objs example_nested))%nat /\ ((1 - f) < (1 - r0))%nat.
Proof.
  destruct r0 as [|[|r0]]; simpl; intros H; try discriminate;
    injection H as <-; intros _ Hin.
  - apply elem_of_cons in Hin as [Hin|Hin]; [discriminate|].
    apply elem_of_cons in Hin as [Hin|Hin]; [|apply elem_of_nil in Hin; contradiction].
    injection Hin as ->. simpl. lia.
  - apply elem_of_cons in Hin as [Hin|Hin]; [discriminate|].
    apply elem_of_nil in Hin. contradiction.
Qed.

(** [FrozenCopy] of array [0] of the nested example store, which holds
    array [1], returns with two nested calls. *)
Lemma FrozenCopy_returns_witness :
  exists (c : nat) (st' : store),
    FrozenCopy 2 0 example_nested = Some (c, st')
    /\ extends example_nested st'
    /\ Frozen st' c = true
    /\ Forall2 (frozen_image st') [HPrim (intVal 7); HRef 1] (contents st' c).
Proof.
  destruct (FrozenCopy_returns (fun r0 => (1 - r0)%nat) 0 example_nested
              example_nested_wf example_nested_rank ltac:(simpl; lia))
    as (c & st' & Hrun & Hext & Hfr & _ & Hnew).
  exists c, st'. split; [exact Hrun|]. split; [exact Hext|]. split; [exact Hfr|].
  apply (Hnew eq_refl).
Defined.

Lemma example_store_cycle (r : nat) :
  r = 0%nat \/ r = 1%nat ->
  exists (v : arrayObj) (f : nat),
    objs example_store !! r = Some v /\ a_frozen v = false
    /\ (ptr (a_slice v) < length (mem example_store))%nat
    /\ HRef f ∈ elems example_store (a_slice v) /\ (f = 0%nat \/ f = 1%nat).
Proof.
  intros [-> | ->].
  - exists (mk_arrayObj (mk_goslice 0 0 3) None false), 1%nat.
    repeat split; [simpl; lia | | right; reflexivity].
    apply list_elem_of_further, list_elem_of_here.
  - exists (mk_arrayObj (mk_goslice 1 0 1) None false), 0%nat.
    repeat split; [simpl; lia | | left; reflexivity].
    apply list_elem_of_here.
Qed.

(** The two arrays of the example store hold each other: [Freeze] of
    array [0] returns, [FrozenCopy] of it does not. *)
Lemma FrozenCopy_never_returns_on_cycle_witness :
  Freeze 3 0 example_store = Some example_frozen
  /\ (forall fuel : nat, FrozenCopy fuel 0 example_store = None).
Proof.
  split; [reflexivity|].
  intros fuel.
  exact (FrozenCopy_never_returns_on_cycle (fun r => r = 0%nat \/ r = 1%nat)
           example_store example_store_cycle fuel 0 (or_introl eq_refl)).
Defined.

Lemma example_nested_refs (r0 : nat) (o : arrayObj) (f : nat) :
  objs example_nested !! r0 = Some o ->
  HRef f ∈ elems example_nested (a_slice o) ->
  (f < length (objs example_nested))%nat /\ ((1 - f) < (1 - r0))%nat.
Proof.
  intros Ho. apply (example_nested_rank r0 o f Ho).
  destruct r0 as [|[|r0]]; simpl in Ho; try discriminate; injection Ho as <-; reflexivity.
Qed.

(** [Flatten] of array [0] of the nested example store, which holds [7]
    and array [1]. *)
Lemma Flatten_returns_witness :
  exists (r' : nat) (st' : store),
    Flatten example_growslice 2 0 example_nested = Some (r', st')
    /\ extends example_nested st'
    /\ flattens example_nested [HPrim (intVal 7); HRef 1] (contents st' r')
    /\ Forall (fun x => isRef x = false) (contents st' r').
Proof.
  destruct (Flatten_returns example_growslice (fun r0 => (1 - r0)%nat) 0 example_nested
              example_nested_wf example_nested_refs ltac:(simpl; lia))
    as (r' & st' & Hrun & Hext & Hfl & Hno & _).
  exists r', st'. split; [exact Hrun|]. split; [exact Hext|].
  split; [exact Hfl | exact Hno].
Defined.

Lemma example_store_wf (r0 : nat) (o : arrayObj) :
  objs example_store !! r0 = Some o -> (ptr (a_slice o) < length (mem example_store))%nat.
Proof.
  destruct r0 as [|[|r0]]; simpl; intros H; try discriminate;
    injection H as <-; simpl; lia.
Qed.

Lemma example_store_refs (r : nat) :
  r = 0%nat \/ r = 1%nat ->
  exists (v : arrayObj) (f : nat),
    objs example_store !! r = Some v
    /\ HRef f ∈ elems example_store (a_slice v) /\ (f = 0%nat \/ f = 1%nat).
Proof.
  intros Hr. destruct (example_store_cycle r Hr) as (v & f & Hv & _ & _ & Hf & HS).
  exists v, f. auto.
Qed.

(** [Flatten] of array [0] of the example store, whose two arrays hold
    each other. *)
Lemma Flatten_never_returns_on_cycle_witness :
  contents example_store 0 = [HPrim (intVal 1); HRef 1; HPrim (intVal 3)]
  /\ contents example_store 1 = [HRef 0]
  /\ (forall fuel : nat, Flatten example_growslice fuel 0 example_store = None).
Proof.
  split; [reflexivity|]. split; [reflexivity|].
  intros fuel.
  exact (Flatten_never_returns_on_cycle example_growslice (fun r => r = 0%nat \/ r = 1%nat)
           example_store example_store_wf example_store_refs fuel 0 (or_introl eq_refl)).
Defined.
